(** * BPMN masking and fragmentation: a shallow embedding of [transform.js]

    The script rewrites one BPMN document in place.  It is embedded here
    function by function: the union-find clustering and the diagram
    written by [fragmentByCoupling], the boundary search
    [collectBoundaryNeighbors], the masking run [maskByPrivacy] with its
    cascade of removals, [clearOldFragments], the geometry helpers, and
    the command line of [parseArgs] and [main].

    Scope of the model.
    - The process element is a flat list of children in document order
      (no sub-processes), so the XPath axes [./] and [.//] select the same
      nodes.  The diagram has at most one plane, the one [ensurePlane]
      returns.
    - An attribute holding an id or a reference is a [string]; the empty
      string stands for an absent attribute where the script only tests
      truthiness.  Numeric attributes are kept as the binary64 value
      [parseFloat] computes from them ([NaN] when the text does not parse),
      and comparisons are the IEEE ones of [PrimFloat].  A task without
      privacy attribute has privacy [NaN], as in the script; a flow
      without coupling weight has [None], since the script tests the
      attribute's text before parsing it.
    - DOM nodes have identity, records do not.  Where the script detaches
      one particular node, the model detaches the first (or last) child
      with the same attributes; the comment at each such place says why
      this is the node the script holds. *)

From Stdlib Require Import Floats Ascii.
From stdpp Require Import gmap strings list pretty sorting.

Local Open Scope string_scope.
Local Open Scope list_scope.

#[local] Set Warnings "-level-tolerance,-clear-no-such-hyp".

(** ** Document model *)

Record Task := mkTask {
  t_id : string;
  t_privacy : float            (* pStr == null ? NaN : parseFloat(pStr) *)
}.

Record Flow := mkFlow {
  f_id : string;
  f_src : string;              (* sourceRef *)
  f_tgt : string;              (* targetRef *)
  f_coupling : option float    (* parseFloat(weightStr); None when the
                                  attribute is absent or empty *)
}.

Record Assoc := mkAssoc {
  a_id : string;
  a_src : string;
  a_tgt : string
}.

Record Group := mkGroup {
  g_id : string;
  g_fragmentId : option string (* the cpl:fragmentId attribute *)
}.

(** Children of the process element. *)
Inductive PNode :=
| PTask (t : Task)
| PFlow (f : Flow)
| PAssoc (a : Assoc)
| PAnnot (id : string) (text : string)
| PGroup (g : Group)
| POther (tag : string) (id : string).

Record Bounds := mkBounds { b_x : float; b_y : float; b_w : float; b_h : float }.

(** Children of the plane. *)
Inductive DINode :=
| DShape (id : string) (bpmnElement : string) (bounds : option Bounds)
| DEdge (id : string) (bpmnElement : string) (waypoints : list (float * float)).

Record Doc := mkDoc {
  d_process : list PNode;
  d_plane : option (list DINode)   (* None: the document has no plane *)
}.

(** ** Selections *)

Definition getTaskList (proc : list PNode) : list Task :=
  omap (fun n => match n with PTask t => Some t | _ => None end) proc.

Definition selectFlows (proc : list PNode) : list Flow :=
  omap (fun n => match n with PFlow f => Some f | _ => None end) proc.

Definition selectAssocs (proc : list PNode) : list Assoc :=
  omap (fun n => match n with PAssoc a => Some a | _ => None end) proc.

Definition selectAnnotIds (proc : list PNode) : list string :=
  omap (fun n => match n with PAnnot i _ => Some i | _ => None end) proc.

(** [ensurePlane]: the plane of the document, created empty when absent. *)
Definition ensurePlane (d : Doc) : list DINode :=
  match d_plane d with
  | Some p => p
  | None => []
  end.

(** ** Cleanup pass *)

(** [/^Fragment_/.test(s)] *)
Definition isFragmentRef (s : string) : bool := String.prefix "Fragment_" s.

(** [a != null] for an attribute read.  The DOM returns [null] for an
    absent attribute; older releases of the XML library return the empty
    string instead, for which the test is always true.  The flag
    [absentIsNull] selects the behaviour. *)
Definition attrNotNull (absentIsNull : bool) (a : option string) : bool :=
  match a with
  | Some _ => true
  | None => negb absentIsNull
  end.

Definition isOldGroup (absentIsNull : bool) (n : PNode) : bool :=
  match n with
  | PGroup g => attrNotNull absentIsNull (g_fragmentId g) || isFragmentRef (g_id g)
  | _ => false
  end.

Definition isFragmentShape (n : DINode) : bool :=
  match n with
  | DShape _ be _ => isFragmentRef be
  | DEdge _ _ _ => false
  end.

Definition isFragmentAssoc (n : PNode) : bool :=
  match n with
  | PAssoc a => isFragmentRef (a_src a)
  | _ => false
  end.

Definition clearOldFragments (absentIsNull : bool) (d : Doc) : Doc :=
  let proc1 := List.filter (fun n => negb (isOldGroup absentIsNull n)) (d_process d) in
  let plane := ensurePlane d in
  let plane1 := List.filter (fun n => negb (isFragmentShape n)) plane in
  let proc2 := List.filter (fun n => negb (isFragmentAssoc n)) proc1 in
  {| d_process := proc2; d_plane := Some plane1 |}.

(** [countAssociationsTouching] *)
Definition touches (elId : string) (a : Assoc) : bool :=
  String.eqb (a_src a) elId || String.eqb (a_tgt a) elId.

Definition countAssociationsTouching (proc : list PNode) (elId : string) : nat :=
  length (List.filter (touches elId) (selectAssocs proc)).

(** ** Log of DOM mutations

    Every [appendChild] and [removeChild] the script performs on the
    process element or on the plane is recorded, oldest first. *)

Inductive Event :=
| EvAppend (n : PNode)
| EvAppendDI (n : DINode)
| EvRemove (n : PNode)
| EvRemoveDI (n : DINode).

Record Dom := mkDom {
  proc : list PNode;
  plane : list DINode;
  log : list Event
}.

Definition appendChild (n : PNode) (s : Dom) : Dom :=
  {| proc := proc s ++ [n]; plane := plane s; log := log s ++ [EvAppend n] |}.

Definition appendDI (n : DINode) (s : Dom) : Dom :=
  {| proc := proc s; plane := plane s ++ [n]; log := log s ++ [EvAppendDI n] |}.

Fixpoint remove_first {A} (p : A -> bool) (l : list A) : list A :=
  match l with
  | [] => []
  | x :: l' => if p x then l' else x :: remove_first p l'
  end.

Definition remove_last {A} (p : A -> bool) (l : list A) : list A :=
  rev (remove_first p (rev l)).

(** Detach the first process child satisfying [p], if there is one. *)
Definition detach (p : PNode -> bool) (s : Dom) : Dom :=
  match List.find p (proc s) with
  | Some n => {| proc := remove_first p (proc s); plane := plane s;
                 log := log s ++ [EvRemove n] |}
  | None => s
  end.

Definition detachLast (p : PNode -> bool) (s : Dom) : Dom :=
  match List.find p (rev (proc s)) with
  | Some n => {| proc := remove_last p (proc s); plane := plane s;
                 log := log s ++ [EvRemove n] |}
  | None => s
  end.

(** Detach every plane child satisfying [p]. *)
Definition removeDI (p : DINode -> bool) (s : Dom) : Dom :=
  {| proc := proc s;
     plane := List.filter (fun n => negb (p n)) (plane s);
     log := log s ++ map EvRemoveDI (List.filter p (plane s)) |}.

Definition isShapeFor (elId : string) (n : DINode) : bool :=
  match n with
  | DShape _ be _ => String.eqb be elId
  | DEdge _ _ _ => false
  end.

Definition isEdgeFor (elId : string) (n : DINode) : bool :=
  match n with
  | DEdge _ be _ => String.eqb be elId
  | DShape _ _ _ => false
  end.

Definition removeDIShapeForElement (elId : string) : Dom -> Dom :=
  removeDI (isShapeFor elId).

Definition removeDIEdgeForElement (elId : string) : Dom -> Dom :=
  removeDI (isEdgeFor elId).

(** ** Orphan cascade *)

Definition isAnnot (taId : string) (n : PNode) : bool :=
  match n with
  | PAnnot i _ => String.eqb i taId
  | _ => false
  end.

Definition maybeRemoveTextAnnotationIfOrphaned (taId : string) (s : Dom) : Dom :=
  if Nat.ltb 0 (countAssociationsTouching (proc s) taId) then s
  else removeDIShapeForElement taId (detach (isAnnot taId) s).

Definition assoc_eqb (a b : Assoc) : bool :=
  String.eqb (a_id a) (a_id b) && String.eqb (a_src a) (a_src b)
  && String.eqb (a_tgt a) (a_tgt b).

Definition isAssocNode (a : Assoc) (n : PNode) : bool :=
  match n with
  | PAssoc b => assoc_eqb a b
  | _ => false
  end.

(** [assocNode] is one of the associations selected by
    [removeAllAssociationsTouchingId], taken in document order; the ones
    before it are already detached, so it is the first child with its
    attributes. *)
Definition removeAssociationCascade (a : Assoc) (s : Dom) : Dom :=
  let src := a_src a in
  let tgt := a_tgt a in
  let s1 := removeDIEdgeForElement (a_id a) s in
  let s2 := detach (isAssocNode a) s1 in
  let srcIsTA := existsb (isAnnot src) (proc s2) in
  let tgtIsTA := existsb (isAnnot tgt) (proc s2) in
  let s3 := if srcIsTA then maybeRemoveTextAnnotationIfOrphaned src s2 else s2 in
  if tgtIsTA then maybeRemoveTextAnnotationIfOrphaned tgt s3 else s3.

Definition removeAllAssociationsTouchingId (elId : string) (s : Dom) : Dom :=
  let touching := List.filter (touches elId) (selectAssocs (proc s)) in
  foldl (fun s a => removeAssociationCascade a s) s touching.

(** ** Boundary search *)

(** Truthiness of a selection result. *)
Definition is_Some_b {A} (o : option A) : bool :=
  match o with
  | Some _ => true
  | None => false
  end.

Definition existingFlow (proc : list PNode) (src tgt : string) : option Flow :=
  List.find (fun f => String.eqb (f_src f) src && String.eqb (f_tgt f) tgt)
            (selectFlows proc).

(** The two adjacency maps built by [maskByPrivacy]: key to the array of
    flows pushed so far. *)
Definition pushFlow (k : string) (f : Flow) (m : gmap string (list Flow))
  : gmap string (list Flow) :=
  <[k := default [] (m !! k) ++ [f]]> m.

Definition indexFlows (key : Flow -> string) (allFlows : list Flow)
  : gmap string (list Flow) :=
  foldl (fun m f => pushFlow (key f) f m) ∅ allFlows.

(** A JS [Set] whose iteration order is observed: insertion order. *)
Definition setAdd (x : string) (l : list string) : list string :=
  if bool_decide (x ∈ l) then l else l ++ [x].

Record Bfs := mkBfs {
  queue : list string;
  seen : gset string;
  found : list string
}.

(** Body of [incoming.forEach] / [outgoing.forEach]; [nbr] reads the far
    end of the flow. *)
Definition bfsVisit (maskedSet : gset string) (nbr : Flow -> string)
    (b : Bfs) (f : Flow) : Bfs :=
  let s := nbr f in
  if bool_decide (s ∈ maskedSet) then
    if bool_decide (s ∈ seen b) then b
    else {| queue := queue b ++ [s]; seen := {[s]} ∪ seen b; found := found b |}
  else {| queue := queue b; seen := seen b; found := setAdd s (found b) |}.

(** The [while (q.length)] loop, run for at most [fuel] iterations. *)
Fixpoint bfsLoop (fuel : nat) (adj : gmap string (list Flow))
    (nbr : Flow -> string) (maskedSet : gset string) (b : Bfs) : Bfs :=
  match fuel with
  | 0 => b
  | S k =>
    match queue b with
    | [] => b
    | cur :: q' =>
      let edges := default [] (adj !! cur) in
      bfsLoop k adj nbr maskedSet
        (foldl (bfsVisit maskedSet nbr)
               {| queue := q'; seen := seen b; found := found b |} edges)
    end
  end.

Definition bfsFrom (mid : string) (adj : gmap string (list Flow))
    (nbr : Flow -> string) (maskedSet : gset string) : Bfs :=
  bfsLoop (S (size maskedSet)) adj nbr maskedSet
    {| queue := [mid]; seen := {[mid]}; found := [] |}.

Definition collectBoundaryNeighbors (mid : string)
    (flowsBySource flowsByTarget : gmap string (list Flow))
    (maskedSet : gset string) : list string * list string :=
  (found (bfsFrom mid flowsByTarget f_src maskedSet),
   found (bfsFrom mid flowsBySource f_tgt maskedSet)).

(** ** Masking run *)

Record MaskSt := mkMaskSt {
  ms_dom : Dom;
  ms_counter : nat;
  ms_removedFlowIds : gset string;
  ms_autoFlowPairs : gset string;
  ms_detached : gset string  (* ids whose task node has been detached:
                                where [node.parentNode] is null *)
}.

Definition withDom (st : MaskSt) (d : Dom) : MaskSt :=
  {| ms_dom := d; ms_counter := ms_counter st;
     ms_removedFlowIds := ms_removedFlowIds st;
     ms_autoFlowPairs := ms_autoFlowPairs st;
     ms_detached := ms_detached st |}.

Definition shouldMask (privacyDir : string) (privacyThreshold p : float) : bool :=
  if PrimFloat.is_finite p then
    if String.eqb privacyDir "above" then PrimFloat.leb privacyThreshold p
    else PrimFloat.ltb p privacyThreshold
  else false.

Definition maskedIdsOf (privacyDir : string) (privacyThreshold : float)
    (tasks : list Task) : list string :=
  map t_id (List.filter (fun t => shouldMask privacyDir privacyThreshold (t_privacy t)) tasks).

Definition pairKey (src tgt : string) : string := src +:+ "→" +:+ tgt.

(** [select('.//bpmndi:BPMNShape[@bpmnElement=...]/dc:Bounds', plane)[0]] *)
Definition boundsFor (pl : list DINode) (elId : string) : option Bounds :=
  head (omap (fun n => match n with
                       | DShape _ be (Some b) =>
                           if String.eqb be elId then Some b else None
                       | _ => None
                       end) pl).

(** [parseFloat(String(x))]: what an attribute written from the number
    [x] reads back as.  [String] prints the shortest decimal that reads
    back as [x], and prints both zeros as the text 0. *)
Definition readBack (x : float) : float :=
  if PrimFloat.is_zero x then PrimFloat.zero else x.

(** The two waypoints of a bypass edge, as the attributes written with
    [String(sx)], [String(sy)], [String(tx)] and [String(ty)] read. *)
Definition bypassWaypoints (sb tb : Bounds) : list (float * float) :=
  [ (readBack (b_x sb + b_w sb), readBack (b_y sb + b_h sb / 2));
    (readBack (b_x tb), readBack (b_y tb + b_h tb / 2)) ].

(** Body of [succs.forEach] inside [preds.forEach]. *)
Definition synthPair (src tgt : string) (st : MaskSt) : MaskSt :=
  if String.eqb src tgt then st
  else if bool_decide (pairKey src tgt ∈ ms_autoFlowPairs st) then st
  else if is_Some_b (existingFlow (proc (ms_dom st)) src tgt) then st
  else
    let counter := S (ms_counter st) in
    let newId := "AutoFlow_" +:+ pretty counter in
    let nf := {| f_id := newId; f_src := src; f_tgt := tgt; f_coupling := None |} in
    let d1 := appendChild (PFlow nf) (ms_dom st) in
    let d2 := match boundsFor (plane d1) src, boundsFor (plane d1) tgt with
              | Some sb, Some tb =>
                  appendDI (DEdge (newId +:+ "_di") newId (bypassWaypoints sb tb)) d1
              | _, _ => d1
              end in
    {| ms_dom := d2; ms_counter := counter;
       ms_removedFlowIds := ms_removedFlowIds st;
       ms_autoFlowPairs := {[pairKey src tgt]} ∪ ms_autoFlowPairs st;
       ms_detached := ms_detached st |}.

Definition synthFor (flowsBySource flowsByTarget : gmap string (list Flow))
    (maskedSet : gset string) (st : MaskSt) (mid : string) : MaskSt :=
  let '(preds, succs) :=
    collectBoundaryNeighbors mid flowsBySource flowsByTarget maskedSet in
  foldl (fun st src => foldl (fun st tgt => synthPair src tgt st) st succs) st preds.

(** The inner [maskedIds.forEach]. *)
Definition synthAll (flowsBySource flowsByTarget : gmap string (list Flow))
    (maskedIds : list string) (st : MaskSt) : MaskSt :=
  foldl (synthFor flowsBySource flowsByTarget (list_to_set maskedIds)) st maskedIds.

(** [f] is a node of [allFlows] that touches the masked task at hand.  It
    is detached only when no flow with its id was detached before, and the
    flows before it in document order with the same attributes are in the
    same array ahead of it: when it is detached, it is the first child
    with its id, source and target. *)
Definition isFlowNode (f : Flow) (n : PNode) : bool :=
  match n with
  | PFlow g => String.eqb (f_id g) (f_id f) && String.eqb (f_src g) (f_src f)
               && String.eqb (f_tgt g) (f_tgt f)
  | _ => false
  end.

(** Body of [toRemove.forEach]. *)
Definition removeFlow (st : MaskSt) (f : Flow) : MaskSt :=
  let fid := f_id f in
  if String.eqb fid "" || bool_decide (fid ∈ ms_removedFlowIds st) then st
  else
    let d1 := removeAllAssociationsTouchingId fid (ms_dom st) in
    let d2 := removeDIEdgeForElement fid d1 in
    let d3 := detach (isFlowNode f) d2 in
    {| ms_dom := d3; ms_counter := ms_counter st;
       ms_removedFlowIds := {[fid]} ∪ ms_removedFlowIds st;
       ms_autoFlowPairs := ms_autoFlowPairs st;
       ms_detached := ms_detached st |}.

Definition isTaskWithId (i : string) (n : PNode) : bool :=
  match n with
  | PTask t => String.eqb (t_id t) i
  | _ => false
  end.

(** [new Map(tasks.map(t => [id, t]))]: a later task wins. *)
Definition indexTasks (tasks : list Task) : gmap string Task :=
  foldl (fun m t => <[t_id t := t]> m) ∅ tasks.

(** Steps 2 to 4 of one outer iteration.  [byId.get(mid)] is the last
    task carrying the id; it is still attached unless an earlier iteration
    handled the same id. *)
Definition exciseNode (byId : gmap string Task)
    (flowsBySource flowsByTarget : gmap string (list Flow))
    (st : MaskSt) (mid : string) : MaskSt :=
  let incoming := default [] (flowsByTarget !! mid) in
  let outgoing := default [] (flowsBySource !! mid) in
  let st1 := foldl removeFlow st (incoming ++ outgoing) in
  let d2 := removeAllAssociationsTouchingId mid (ms_dom st1) in
  let d3 := match byId !! mid with
            | Some _ =>
                if bool_decide (mid ∈ ms_detached st1) then d2
                else detachLast (isTaskWithId mid) d2
            | None => d2
            end in
  let d4 := removeDIShapeForElement mid d3 in
  {| ms_dom := d4; ms_counter := ms_counter st1;
     ms_removedFlowIds := ms_removedFlowIds st1;
     ms_autoFlowPairs := ms_autoFlowPairs st1;
     ms_detached := {[mid]} ∪ ms_detached st1 |}.

(** Body of the outer [maskedIds.forEach]: the whole synthesis pass, then
    the removals for [mid]. *)
Definition maskStep (byId : gmap string Task)
    (flowsBySource flowsByTarget : gmap string (list Flow))
    (maskedIds : list string) (st : MaskSt) (mid : string) : MaskSt :=
  exciseNode byId flowsBySource flowsByTarget
    (synthAll flowsBySource flowsByTarget maskedIds st) mid.

Definition initMask (d : Doc) : MaskSt :=
  {| ms_dom := {| proc := d_process d; plane := ensurePlane d; log := [] |};
     ms_counter := 0; ms_removedFlowIds := ∅; ms_autoFlowPairs := ∅;
     ms_detached := ∅ |}.

Definition maskRun (d : Doc) (privacyThreshold : float) (privacyDir : string)
  : MaskSt :=
  let tasks := getTaskList (d_process d) in
  let byId := indexTasks tasks in
  let maskedIds := maskedIdsOf privacyDir privacyThreshold tasks in
  match maskedIds with
  | [] => initMask d
  | _ =>
    let allFlows := selectFlows (d_process d) in
    let flowsBySource := indexFlows f_src allFlows in
    let flowsByTarget := indexFlows f_tgt allFlows in
    foldl (maskStep byId flowsBySource flowsByTarget maskedIds) (initMask d) maskedIds
  end.

Definition docOf (s : Dom) : Doc :=
  {| d_process := proc s; d_plane := Some (plane s) |}.

(** The document after the run and the count it returns. *)
Definition maskByPrivacy (d : Doc) (privacyThreshold : float) (privacyDir : string)
  : Doc * nat :=
  (docOf (ms_dom (maskRun d privacyThreshold privacyDir)),
   length (maskedIdsOf privacyDir privacyThreshold (getTaskList (d_process d)))).

(** ** Clustering by coupling *)

(** [unionFind(n)]: the parent array, every index its own parent. *)
Definition unionFind (n : nat) : list nat := seq 0 n.

(** [find], with the recursion depth bounded by [fuel]; it returns the
    representative and the parent array after path compression.  An index
    outside the array is never passed in.  On an array with a cycle the
    script's [find] does not return, and what is returned here when the
    fuel runs out has no counterpart in the script; the arrays that
    [unionFind] and [unite] build have no cycle, and the length of the
    array is fuel enough for them. *)
Fixpoint find (fuel : nat) (parent : list nat) (x : nat) : nat * list nat :=
  match fuel with
  | 0 => (x, parent)
  | S k =>
    match parent !! x with
    | Some px =>
        if Nat.eqb px x then (x, parent)
        else let r := find k parent px in (r.1, <[x := r.1]> r.2)
    | None => (x, parent)
    end
  end.

Definition unite (a b : nat) (parent : list nat) : list nat :=
  let ra := find (length parent) parent a in
  let rb := find (length parent) ra.2 b in
  if Nat.eqb ra.1 rb.1 then rb.2 else <[rb.1 := ra.1]> rb.2.

(** [g.get(r).push(i)], creating the entry at the end when [r] is new:
    a JS [Map] keeps its keys in insertion order. *)
Fixpoint pushGroup (r i : nat) (g : list (nat * list nat)) : list (nat * list nat) :=
  match g with
  | [] => [(r, [i])]
  | (k, l) :: g' => if Nat.eqb k r then (k, l ++ [i]) :: g' else (k, l) :: pushGroup r i g'
  end.

Definition groupStep (st : list (nat * list nat) * list nat) (i : nat)
  : list (nat * list nat) * list nat :=
  let r := find (length st.2) st.2 i in
  (pushGroup r.1 i st.1, r.2).

Definition groups (parent : list nat) : list (list nat) :=
  (foldl groupStep ([], parent) (seq 0 (length parent))).1.*2.

(** [new Map(tasks.map((t, i) => [id, i]))]: a later task wins. *)
Definition indexIds (tasks : list Task) : gmap string nat :=
  foldl (fun m it => <[t_id it.2 := it.1]> m) ∅ (imap (fun i t => (i, t)) tasks).

(** The flow passes both guards of the loop body: it has a weight [w],
    and [w >= threshold]. *)
Definition strong (threshold : float) (f : Flow) : bool :=
  match f_coupling f with
  | Some w => PrimFloat.leb threshold w
  | None => false
  end.

(** Body of [flows.forEach] in [fragmentByCoupling]. *)
Definition coupleStep (threshold : float) (idToIdx : gmap string nat)
    (parent : list nat) (f : Flow) : list nat :=
  if strong threshold f then
    match idToIdx !! f_src f, idToIdx !! f_tgt f with
    | Some a, Some b => unite a b parent
    | _, _ => parent
    end
  else parent.

(** The components [fragmentByCoupling] goes on to materialise, as lists
    of task indices. *)
Definition fragmentComps (proc0 : list PNode) (threshold : float)
    (includeSingletons : bool) : list (list nat) :=
  let tasks := getTaskList proc0 in
  let idToIdx := indexIds tasks in
  let flows := selectFlows proc0 in
  let parent := foldl (coupleStep threshold idToIdx) (unionFind (length tasks)) flows in
  let comps := groups parent in
  if includeSingletons then comps
  else List.filter (fun g => Nat.ltb 1 (length g)) comps.

(** ** Diagram geometry *)

Definition isNegZero (x : float) : bool :=
  match PrimFloat.classify x with
  | NZero => true
  | _ => false
  end.

Definition isPosZero (x : float) : bool :=
  match PrimFloat.classify x with
  | PZero => true
  | _ => false
  end.

(** [Math.min(a, b)] and [Math.max(a, b)]: [NaN] as soon as one argument
    is [NaN]; of the two zeros the negative one is the smaller. *)
Definition Math_min (a b : float) : float :=
  if PrimFloat.is_nan a || PrimFloat.is_nan b then nan
  else if PrimFloat.ltb b a then b
  else if isNegZero b && isPosZero a then b
  else a.

Definition Math_max (a b : float) : float :=
  if PrimFloat.is_nan a || PrimFloat.is_nan b then nan
  else if PrimFloat.ltb a b then b
  else if isPosZero b && isNegZero a then b
  else a.

Definition clamp (v a b : float) : float := Math_max a (Math_min b v).

Record Rect := mkRect {
  r_x : float; r_y : float; r_w : float; r_h : float;
  r_cx : float; r_cy : float
}.

Definition rectFromBoundsEl (b : Bounds) : Rect :=
  {| r_x := b_x b; r_y := b_y b; r_w := b_w b; r_h := b_h b;
     r_cx := (b_x b + b_w b / 2)%float; r_cy := (b_y b + b_h b / 2)%float |}.

(** The point of the rectangle's border facing [(tx, ty)]. *)
Definition edgeAnchor (boundsEl : Bounds) (tx ty : float) : float * float :=
  let r := rectFromBoundsEl boundsEl in
  let dx := (tx - r_cx r)%float in
  let dy := (ty - r_cy r)%float in
  if PrimFloat.leb (PrimFloat.abs dy) (PrimFloat.abs dx) then
    if PrimFloat.leb 0 dx then
      ((r_x r + r_w r)%float, clamp ty (r_y r) (r_y r + r_h r)%float)
    else
      (r_x r, clamp ty (r_y r) (r_y r + r_h r)%float)
  else
    if PrimFloat.leb 0 dy then
      (clamp tx (r_x r) (r_x r + r_w r)%float, (r_y r + r_h r)%float)
    else
      (clamp tx (r_x r) (r_x r + r_w r)%float, r_y r).

(** [boundsMap]: element id to the bounds of its shape; a later shape of
    the same element replaces an earlier one. *)
Definition boundsMap (pl : list DINode) : gmap string Bounds :=
  foldl (fun m n => match n with
                    | DShape _ elId (Some b) =>
                        if String.eqb elId "" then m else <[elId := b]> m
                    | _ => m
                    end) ∅ pl.

(** ** Writing the fragments *)

Definition addTextAnnotationForGroup (groupId label : string) (x y : float)
    (s : Dom) : Dom :=
  let taId := groupId +:+ "_TA" in
  let s1 := appendChild (PAnnot taId label) s in
  let s2 := appendChild (PAssoc {| a_id := groupId +:+ "_TA_Assoc";
                                   a_src := taId; a_tgt := groupId |}) s1 in
  let taBounds := {| b_x := readBack x; b_y := readBack y;
                     b_w := 160; b_h := 40 |} in
  let s3 := appendDI (DShape (taId +:+ "_di") taId (Some taBounds)) s2 in
  match boundsFor (plane s3) groupId with
  | Some gBounds =>
      let rA := rectFromBoundsEl taBounds in
      let rG := rectFromBoundsEl gBounds in
      let groupAnchor := edgeAnchor gBounds (r_cx rA) (r_cy rA) in
      let annoAnchor := edgeAnchor taBounds (r_cx rG) (r_cy rG) in
      appendDI (DEdge (groupId +:+ "_TA_Assoc_di") (groupId +:+ "_TA_Assoc")
                      [groupAnchor; annoAnchor]) s3
  | None => s3
  end.

(** [indices.map((i) => tasks[i].getAttribute('id'))]; the indices come
    from [groups] over [tasks.length] entries and are never out of range.
    An absent id reads as the empty string. *)
Definition memberIdsOf (tasks : list Task) (indices : list nat) : list string :=
  (fun i => default "" (t_id <$> tasks !! i)) <$> indices.

Record BBox := mkBBox { minx : float; miny : float; maxx : float; maxy : float }.

(** The bounds assumed for a member without a shape. *)
Definition defaultBounds : Bounds :=
  {| b_x := 100; b_y := 100; b_w := 100; b_h := 80 |}.

(** Body of the first [memberIds.forEach]. *)
Definition bboxStep (bmap : gmap string Bounds) (bb : BBox) (id : string) : BBox :=
  let b := default defaultBounds (bmap !! id) in
  {| minx := Math_min (minx bb) (b_x b);
     miny := Math_min (miny bb) (b_y b);
     maxx := Math_max (maxx bb) (b_x b + b_w b)%float;
     maxy := Math_max (maxy bb) (b_y b + b_h b)%float |}.

Definition bboxOf (bmap : gmap string Bounds) (memberIds : list string) : BBox :=
  foldl (bboxStep bmap)
        {| minx := infinity; miny := infinity;
           maxx := neg_infinity; maxy := neg_infinity |} memberIds.

Definition fragId (idx : nat) : string := "Fragment_" +:+ pretty (idx + 1).

Definition memberAssoc (fid mid : string) : Assoc :=
  {| a_id := fid +:+ "_A_" +:+ mid; a_src := fid; a_tgt := mid |}.

(** Body of [comps.forEach((indices, idx) => ...)].  Of the attributes set
    on the group the model keeps the id and [cpl:fragmentId]; the category
    and its values are children of the definitions element, outside the
    process and the plane. *)
Definition fragmentStep (tasks : list Task) (bmap : gmap string Bounds)
    (s : Dom) (it : nat * list nat) : Dom :=
  let fid := fragId it.1 in
  let s1 := appendChild (PGroup {| g_id := fid; g_fragmentId := Some fid |}) s in
  let memberIds := memberIdsOf tasks it.2 in
  let bb := bboxOf bmap memberIds in
  let pad := 24%float in
  let x0 := (minx bb - pad)%float in
  let y0 := (miny bb - pad)%float in
  let x1 := (maxx bb + pad)%float in
  let y1 := (maxy bb + pad)%float in
  let bounds := {| b_x := readBack x0; b_y := readBack y0;
                   b_w := readBack (x1 - x0); b_h := readBack (y1 - y0) |} in
  let s2 := appendDI (DShape (fid +:+ "_di") fid (Some bounds)) s1 in
  let s3 := foldl (fun s mid => appendChild (PAssoc (memberAssoc fid mid)) s)
                  s2 memberIds in
  let label := fid +:+ String "010"%char ("size=" +:+ pretty (length memberIds)) in
  let noteX := b_x bounds in
  let noteY := (b_y bounds - 48)%float in
  addTextAnnotationForGroup fid label noteX noteY s3.

Definition fragmentRun (d : Doc) (threshold : float) (includeSingletons : bool)
  : Dom :=
  let tasks := getTaskList (d_process d) in
  let comps := fragmentComps (d_process d) threshold includeSingletons in
  let plane0 := ensurePlane d in
  let bmap := boundsMap plane0 in
  foldl (fragmentStep tasks bmap)
        {| proc := d_process d; plane := plane0; log := [] |}
        (imap (fun idx indices => (idx, indices)) comps).

(** The document after the run and the count it returns. *)
Definition fragmentByCoupling (d : Doc) (threshold : float)
    (includeSingletons : bool) : Doc * nat :=
  (docOf (fragmentRun d threshold includeSingletons),
   length (fragmentComps (d_process d) threshold includeSingletons)).

(** ** Command line *)

Record Opts := mkOpts {
  o_input : string;
  o_output : string;
  o_mode : string;
  o_threshold : float;
  o_privacy : float;
  o_privacyDir : string;
  o_includeSingletons : bool;
  o_clearOld : bool
}.

(** [Some rest] when [s] is [p] followed by [rest]. *)
Fixpoint stripPrefix (p s : string) : option string :=
  match p, s with
  | EmptyString, _ => Some s
  | String c p', String c' s' => if Ascii.eqb c c' then stripPrefix p' s' else None
  | String _ _, EmptyString => None
  end.

(** The characters [.] does not match: LF, CR, U+2028 and U+2029, the last
    two as the three bytes of their UTF-8 encoding. *)
Fixpoint hasLineTerminator (s : string) : bool :=
  String.prefix (String "010"%char "") s ||
  String.prefix (String "013"%char "") s ||
  String.prefix (String "226"%char (String "128"%char (String "168"%char ""))) s ||
  String.prefix (String "226"%char (String "128"%char (String "169"%char ""))) s ||
  match s with
  | EmptyString => false
  | String _ s' => hasLineTerminator s'
  end.

(** [a.match(/^name(.+)$/)]: the captured value. *)
Definition optValue (name a : string) : option string :=
  match stripPrefix name a with
  | Some v => if String.eqb v "" || hasLineTerminator v then None else Some v
  | None => None
  end.

(** [a.match(/^--privacy-dir=(above|below)$/)] *)
Definition dirValue (a : string) : option string :=
  match stripPrefix "--privacy-dir=" a with
  | Some v => if String.eqb v "above" || String.eqb v "below" then Some v else None
  | None => None
  end.

Definition defaultOpts (input output : string) : Opts :=
  {| o_input := input; o_output := output; o_mode := "fragment";
     o_threshold := 0x1.6666666666666p-1 (* 0.7 *); o_privacy := 0.5; o_privacyDir := "below";
     o_includeSingletons := true; o_clearOld := false |}.

Section CommandLine.
(** Reading a number off a string is left to the JavaScript engine. *)
Variable parseFloat : string -> float.

(** Body of the loop over the arguments after the two file names. *)
Definition parseArg (opts : Opts) (a : string) : Opts :=
  match optValue "--mode=" a with
  | Some v =>
      {| o_input := o_input opts; o_output := o_output opts; o_mode := v;
         o_threshold := o_threshold opts; o_privacy := o_privacy opts;
         o_privacyDir := o_privacyDir opts;
         o_includeSingletons := o_includeSingletons opts;
         o_clearOld := o_clearOld opts |}
  | None =>
  match optValue "--threshold=" a with
  | Some v =>
      {| o_input := o_input opts; o_output := o_output opts; o_mode := o_mode opts;
         o_threshold := parseFloat v; o_privacy := o_privacy opts;
         o_privacyDir := o_privacyDir opts;
         o_includeSingletons := o_includeSingletons opts;
         o_clearOld := o_clearOld opts |}
  | None =>
  match optValue "--privacy=" a with
  | Some v =>
      {| o_input := o_input opts; o_output := o_output opts; o_mode := o_mode opts;
         o_threshold := o_threshold opts; o_privacy := parseFloat v;
         o_privacyDir := o_privacyDir opts;
         o_includeSingletons := o_includeSingletons opts;
         o_clearOld := o_clearOld opts |}
  | None =>
  match dirValue a with
  | Some v =>
      {| o_input := o_input opts; o_output := o_output opts; o_mode := o_mode opts;
         o_threshold := o_threshold opts; o_privacy := o_privacy opts;
         o_privacyDir := v;
         o_includeSingletons := o_includeSingletons opts;
         o_clearOld := o_clearOld opts |}
  | None =>
      if String.eqb a "--no-singletons" then
        {| o_input := o_input opts; o_output := o_output opts; o_mode := o_mode opts;
           o_threshold := o_threshold opts; o_privacy := o_privacy opts;
           o_privacyDir := o_privacyDir opts;
           o_includeSingletons := false;
           o_clearOld := o_clearOld opts |}
      else if String.eqb a "--clear-old" then
        {| o_input := o_input opts; o_output := o_output opts; o_mode := o_mode opts;
           o_threshold := o_threshold opts; o_privacy := o_privacy opts;
           o_privacyDir := o_privacyDir opts;
           o_includeSingletons := o_includeSingletons opts;
           o_clearOld := true |}
      else opts
  end end end end.

(** [parseArgs]: [None] is the exit with the usage message. *)
Definition parseArgs (args : list string) : option Opts :=
  match args with
  | input :: output :: rest => Some (foldl parseArg (defaultOpts input output) rest)
  | _ => None
  end.

(** [main] on the parsed input document, which has a process (without
    one the script throws before it changes anything): the document
    written to the output file and the count logged.  [None] is the exit
    of [parseArgs]. *)
Definition main (absentIsNull : bool) (args : list string) (d : Doc)
  : option (Doc * nat) :=
  match parseArgs args with
  | None => None
  | Some o =>
      let d1 := if o_clearOld o then clearOldFragments absentIsNull d else d in
      if String.eqb (o_mode o) "mask"
      then Some (maskByPrivacy d1 (o_privacy o) (o_privacyDir o))
      else Some (fragmentByCoupling d1 (o_threshold o) (o_includeSingletons o))
  end.

End CommandLine.

(** ** What the boundary search is to compute

    [interior flows key nbr masked m c]: [c] is [m], or is reached from
    [m] along flows each leading to a masked node.  With [key := f_tgt]
    and [nbr := f_src] flows are followed backward, with [key := f_src]
    and [nbr := f_tgt] forward. *)
Inductive interior (flows : list Flow) (key nbr : Flow -> string)
    (masked : gset string) (m : string) : string -> Prop :=
| interior_start : interior flows key nbr masked m m
| interior_step c f :
    interior flows key nbr masked m c ->
    f ∈ flows -> key f = c -> nbr f ∈ masked ->
    interior flows key nbr masked m (nbr f).

(** [x] is an unmasked node one flow beyond the masked interior of [m]. *)
Definition boundary (flows : list Flow) (key nbr : Flow -> string)
    (masked : gset string) (m x : string) : Prop :=
  exists c f, interior flows key nbr masked m c /\ f ∈ flows /\ key f = c /\
              nbr f = x /\ x ∉ masked.

Definition unmaskedPred (flows : list Flow) (masked : gset string) (m x : string) : Prop :=
  boundary flows f_tgt f_src masked m x.

Definition unmaskedSucc (flows : list Flow) (masked : gset string) (m x : string) : Prop :=
  boundary flows f_src f_tgt masked m x.

(** ** Vocabulary of the statements *)

(** A flow from [s] to [t] is among the children. *)
Definition hasFlow (proc0 : list PNode) (s t : string) : Prop :=
  exists f, PFlow f ∈ proc0 /\ f_src f = s /\ f_tgt f = t.

(** The flows a log records as appended to the process. *)
Definition createdFlows (l : list Event) : list Flow :=
  omap (fun e => match e with EvAppend (PFlow f) => Some f | _ => None end) l.

(** The plane children a log records as appended. *)
Definition createdDI (l : list Event) : list DINode :=
  omap (fun e => match e with EvAppendDI n => Some n | _ => None end) l.

(** The ordered pair a flow joins. *)
Definition endpoints (f : Flow) : string * string := (f_src f, f_tgt f).

(** The event is a [removeChild]. *)
Definition isRemoval (e : Event) : bool :=
  match e with
  | EvRemove _ | EvRemoveDI _ => true
  | _ => false
  end.

(** The event is an [appendChild]. *)
Definition isCreation (e : Event) : bool := negb (isRemoval e).

(** The masked ids of a run, in the order [maskedIds] holds them. *)
Definition maskedOf (d : Doc) (privacyThreshold : float) (privacyDir : string)
  : list string :=
  maskedIdsOf privacyDir privacyThreshold (getTaskList (d_process d)).

(** The DOM mutations of a run, oldest first. *)
Definition runLog (d : Doc) (privacyThreshold : float) (privacyDir : string)
  : list Event :=
  log (ms_dom (maskRun d privacyThreshold privacyDir)).

(** The bypass flows the run synthesized, oldest first. *)
Definition bypassFlows (d : Doc) (privacyThreshold : float) (privacyDir : string)
  : list Flow :=
  createdFlows (runLog d privacyThreshold privacyDir).

(** The children of the process, and of the plane, when the run ends. *)
Definition finalProc (d : Doc) (privacyThreshold : float) (privacyDir : string)
  : list PNode :=
  d_process (maskByPrivacy d privacyThreshold privacyDir).1.

Definition finalPlane (d : Doc) (thr : float) (dir : string) : list DINode :=
  plane (ms_dom (maskRun d thr dir)).

(** The synthesis phase, then the excise phase, over the whole masked set. *)
Definition synthPhase (d : Doc) (thr : float) (dir : string) : MaskSt :=
  let flows := selectFlows (d_process d) in
  synthAll (indexFlows f_src flows) (indexFlows f_tgt flows) (maskedOf d thr dir)
           (initMask d).

Definition excisePhase (d : Doc) (thr : float) (dir : string) (st : MaskSt) : MaskSt :=
  let flows := selectFlows (d_process d) in
  foldl (exciseNode (indexTasks (getTaskList (d_process d)))
                    (indexFlows f_src flows) (indexFlows f_tgt flows))
        st (maskedOf d thr dir).

(** [maskedRun flows M c b]: [c] is masked and a path of flows leads from
    [c] to [b] whose nodes before [b] are all masked. *)
Inductive maskedRun (flows : list Flow) (M : list string) : string -> string -> Prop :=
| run_exit c f :
    f ∈ flows -> f_src f = c -> c ∈ M -> maskedRun flows M c (f_tgt f)
| run_step c f b :
    f ∈ flows -> f_src f = c -> c ∈ M -> maskedRun flows M (f_tgt f) b ->
    maskedRun flows M c b.

(** A path from [a] to [b] with at least one intermediate node, all of
    whose intermediate nodes are masked. *)
Definition pathThroughMasked (proc0 : list PNode) (M : list string) (a b : string) : Prop :=
  exists f, PFlow f ∈ proc0 /\ f_src f = a /\ maskedRun (selectFlows proc0) M (f_tgt f) b.

(** The id contains the separator of [pairKey]. *)
Fixpoint hasArrow (s : string) : bool :=
  String.prefix "→" s ||
  match s with
  | EmptyString => false
  | String _ s' => hasArrow s'
  end.

(** The flow goes from [a] to [b]. *)
Definition joins (a b : string) (f : Flow) : bool :=
  String.eqb (f_src f) a && String.eqb (f_tgt f) b.

(** The flow carries a weight, and the weight is at least [t]. *)
Definition weightAtLeast (t : float) (f : Flow) : Prop :=
  exists w, f_coupling f = Some w /\ PrimFloat.leb t w = true.

(** The reference [a] names the activity at position [i] of [tasks]: that
    activity carries the id [a] and no later one does. *)
Definition names (tasks : list Task) (a : string) (i : nat) : Prop :=
  (exists t, tasks !! i = Some t /\ t_id t = a) /\
  forall k t, i < k -> tasks !! k = Some t -> t_id t <> a.

(** Two activities, given by their positions in the process, lie in one
    connected component of the graph whose edges are the flows that weigh
    at least [thr] and join two activities; the direction of a flow does
    not matter. *)
Inductive component (tasks : list Task) (flows : list Flow) (thr : float)
  : nat -> nat -> Prop :=
| component_refl i : component tasks flows thr i i
| component_flow f i j :
    f ∈ flows -> weightAtLeast thr f ->
    names tasks (f_src f) i -> names tasks (f_tgt f) j ->
    component tasks flows thr i j
| component_sym i j : component tasks flows thr i j -> component tasks flows thr j i
| component_trans i j k :
    component tasks flows thr i j -> component tasks flows thr j k ->
    component tasks flows thr i k.

(** The equivalence generated by a list of index pairs. *)
Inductive conn (E : list (nat * nat)) : nat -> nat -> Prop :=
| conn_refl x : conn E x x
| conn_edge a b : (a, b) ∈ E -> conn E a b
| conn_sym x y : conn E x y -> conn E y x
| conn_trans x y z : conn E x y -> conn E y z -> conn E x z.

(** The parent array after the unions [ops], in order, on [n] singletons. *)
Definition uniteAll (n : nat) (ops : list (nat * nat)) : list nat :=
  foldl (fun p ab => unite ab.1 ab.2 p) (unionFind n) ops.

(** Every union is between two of the [n] indices. *)
Definition inRange (n : nat) (ops : list (nat * nat)) : Prop :=
  forall ab, ab ∈ ops -> ab.1 < n /\ ab.2 < n.

(** The bounds of [n] when it is a shape of the element [elId]. *)
Definition shapeBounds (elId : string) (n : DINode) : option Bounds :=
  match n with
  | DShape _ be (Some b) => if String.eqb be elId then Some b else None
  | _ => None
  end.

(** No shape with bounds of the list [pl] names the element [elId]. *)
Definition noShapeFor (elId : string) (pl : list DINode) : Prop :=
  forall i b, DShape i elId (Some b) ∉ pl.

(** The bounds the box is computed from: those of the member's shape, or
    the default ones. *)
Definition memberBounds (bmap : gmap string Bounds) (id : string) : Bounds :=
  default defaultBounds (bmap !! id).

(** A member whose corners are all numbers. *)
Definition numericBounds (b : Bounds) : Prop :=
  PrimFloat.is_nan (b_x b) = false /\ PrimFloat.is_nan (b_y b) = false /\
  PrimFloat.is_nan (b_x b + b_w b) = false /\ PrimFloat.is_nan (b_y b + b_h b) = false.

(** The groups among the children, in document order. *)
Definition selectGroups (proc0 : list PNode) : list Group :=
  omap (fun n => match n with PGroup g => Some g | _ => None end) proc0.

(** The annotation written for the fragment at index [k] with [size]
    members. *)
Definition annotOf (k size : nat) : PNode :=
  PAnnot (fragId k +:+ "_TA") (fragId k +:+ String "010"%char ("size=" +:+ pretty size)).


(** The id given to the [i]-th bypass flow of a run. *)
Definition autoFlowId (i : nat) : string := "AutoFlow_" +:+ pretty i.

(** The id of the [k]-th fragment group, counted from 1. *)
Definition fragmentName (k : nat) : string := "Fragment_" +:+ pretty k.

(** The middle of the right side and of the left side of a rectangle. *)
Definition rightMiddle (b : Bounds) : float * float :=
  ((b_x b + b_w b)%float, (b_y b + b_h b / 2)%float).

Definition leftMiddle (b : Bounds) : float * float :=
  (b_x b, (b_y b + b_h b / 2)%float).

(** The point as a reader of the document finds it: a coordinate is the
    number computed, except that the text of a zero carries no sign. *)
Definition unsignedZero (x : float) : float :=
  if PrimFloat.is_zero x then PrimFloat.zero else x.

Definition asWritten (p : float * float) : float * float :=
  (unsignedZero p.1, unsignedZero p.2).

(** The edge expected for the bypass flow [f] over the shapes of the
    plane [pl]: none unless both ends have a shape with bounds; else the
    edge named after the flow, from the middle of the right side of the
    source to the middle of the left side of the target. *)
Definition edgeFor (pl : list DINode) (f : Flow) : option DINode :=
  match boundsFor pl (f_src f), boundsFor pl (f_tgt f) with
  | Some sb, Some tb =>
      Some (DEdge (f_id f +:+ "_di") (f_id f)
                  [asWritten (rightMiddle sb); asWritten (leftMiddle tb)])
  | _, _ => None
  end.

(** * Proofs *)

(** ** Theorems on the cleanup pass *)

Lemma filter_negb_idem {A} (p : A -> bool) (l : list A) :
  List.filter (fun x => negb (p x)) (List.filter (fun x => negb (p x)) l)
  = List.filter (fun x => negb (p x)) l.
Proof.
  induction l as [|x l IH]; simpl; [reflexivity|].
  destruct (p x) eqn:E; simpl; [exact IH|].
  rewrite E. simpl. f_equal. exact IH.
Qed.

Lemma filter_comm {A} (p q : A -> bool) (l : list A) :
  List.filter p (List.filter q l) = List.filter q (List.filter p l).
Proof.
  induction l as [|x l IH]; simpl; [reflexivity|].
  destruct (p x) eqn:Ep, (q x) eqn:Eq; simpl; rewrite ?Ep, ?Eq; congruence.
Qed.

(** C7. The cleanup pass is idempotent: on every document, running it a
    second time returns the document the first run produced (whichever
    way the XML library reports an absent attribute). *)
Theorem clearOldFragments_idempotent (absentIsNull : bool) (d : Doc) :
  clearOldFragments absentIsNull (clearOldFragments absentIsNull d)
  = clearOldFragments absentIsNull d.
Proof.
  unfold clearOldFragments, ensurePlane. simpl. f_equal.
  - rewrite (filter_comm (fun n => negb (isOldGroup absentIsNull n))
               (fun n => negb (isFragmentAssoc n))
               (List.filter _ (d_process d))).
    rewrite !filter_negb_idem. reflexivity.
  - f_equal. apply filter_negb_idem.
Qed.


(** ** The adjacency maps *)

Lemma pushFlow_lookup k f (m : gmap string (list Flow)) k' :
  default [] (pushFlow k f m !! k')
  = default [] (m !! k') ++ (if String.eqb k k' then [f] else []).
Proof.
  unfold pushFlow. destruct (String.eqb_spec k k') as [->|Hne].
  - rewrite lookup_insert_eq. reflexivity.
  - rewrite lookup_insert_ne by done. rewrite app_nil_r. reflexivity.
Qed.

Lemma indexFlows_from key (l : list Flow) (m : gmap string (list Flow)) k :
  default [] (foldl (fun m f => pushFlow (key f) f m) m l !! k)
  = default [] (m !! k) ++ List.filter (fun f => String.eqb (key f) k) l.
Proof.
  revert m. induction l as [|f l IH]; intros m; simpl.
  - rewrite app_nil_r. reflexivity.
  - rewrite IH, pushFlow_lookup. rewrite <- app_assoc. f_equal.
    destruct (String.eqb (key f) k); reflexivity.
Qed.

Lemma indexFlows_lookup key (l : list Flow) k :
  default [] (indexFlows key l !! k)
  = List.filter (fun f => String.eqb (key f) k) l.
Proof. unfold indexFlows. rewrite indexFlows_from, lookup_empty. reflexivity. Qed.

Lemma elem_of_indexFlows key (l : list Flow) k f :
  f ∈ default [] (indexFlows key l !! k) <-> f ∈ l /\ key f = k.
Proof.
  rewrite indexFlows_lookup, !list_elem_of_In, filter_In.
  destruct (String.eqb_spec (key f) k); intuition congruence.
Qed.

(** ** Correctness of the boundary search *)

Section BoundarySearch.
Variable flows : list Flow.
Variables key nbr : Flow -> string.
Variable masked : gset string.
Variable m : string.

Let adj := indexFlows key flows.

Definition weight (b : Bfs) : nat := length (queue b) + size (masked ∖ seen b).

(** What holds of the search state between two iterations. *)
Record bfsInv (b : Bfs) : Prop := {
  inv_start : m ∈ seen b;
  inv_seen : forall x, x ∈ seen b -> interior flows key nbr masked m x;
  inv_queue : forall x, x ∈ queue b -> x ∈ seen b;
  inv_found : forall x, x ∈ found b -> boundary flows key nbr masked m x;
  inv_nodup : NoDup (found b);
  inv_closed : forall c f, c ∈ seen b -> c ∉ queue b -> f ∈ flows -> key f = c ->
               if bool_decide (nbr f ∈ masked) then nbr f ∈ seen b
               else nbr f ∈ found b
}.

Lemma elem_of_setAdd x y l : x ∈ setAdd y l <-> x ∈ l \/ x = y.
Proof.
  unfold setAdd. case_bool_decide.
  - split; [auto|]. intros [?| ->]; done.
  - rewrite elem_of_app, list_elem_of_singleton. tauto.
Qed.

Lemma NoDup_setAdd y l : NoDup l -> NoDup (setAdd y l).
Proof.
  intros Hl. unfold setAdd. case_bool_decide; [done|].
  apply NoDup_app. split_and!; [done| |apply NoDup_singleton].
  intros x Hx ->%list_elem_of_singleton. done.
Qed.

Lemma size_unseen_step (s : gset string) (x : string) :
  x ∈ masked -> x ∉ s -> size (masked ∖ s) = S (size (masked ∖ ({[x]} ∪ s))).
Proof.
  intros Hx Hs.
  assert (masked ∖ s = {[x]} ∪ masked ∖ ({[x]} ∪ s)) as Heq.
  { apply set_eq. intros y. destruct (decide (y = x)) as [->|]; set_solver. }
  rewrite Heq at 1.
  rewrite (size_union {[x]} (masked ∖ ({[x]} ∪ s))) by set_solver.
  rewrite size_singleton. reflexivity.
Qed.

Lemma weight_visit b f : weight (bfsVisit masked nbr b f) = weight b.
Proof.
  unfold bfsVisit, weight. repeat case_bool_decide; cbn [queue seen found]; try done.
  rewrite length_app. cbn [length].
  rewrite (size_unseen_step (seen b) (nbr f)) by done. lia.
Qed.

Lemma weight_visits edges b : weight (foldl (bfsVisit masked nbr) b edges) = weight b.
Proof.
  revert b. induction edges as [|f edges IH]; intros b; simpl; [done|].
  rewrite IH. apply weight_visit.
Qed.

(** The far end of [f] has been recorded: in [seen] when masked, in
    [found] otherwise. *)
Definition settled (b : Bfs) (f : Flow) : Prop :=
  if bool_decide (nbr f ∈ masked) then nbr f ∈ seen b else nbr f ∈ found b.

(** How a run of visits over [edges] changes the search state. *)
Record grows (edges : list Flow) (b0 b1 : Bfs) : Prop := {
  gr_seen : forall x, x ∈ seen b0 -> x ∈ seen b1;
  gr_queue : forall x, x ∈ queue b0 -> x ∈ queue b1;
  gr_found : forall x, x ∈ found b0 -> x ∈ found b1;
  gr_seen_new : forall x, x ∈ seen b1 ->
      x ∈ seen b0 \/ (x ∈ queue b1 /\ x ∈ masked /\ exists f, f ∈ edges /\ nbr f = x);
  gr_queue_new : forall x, x ∈ queue b1 -> x ∈ queue b0 \/ x ∈ seen b1;
  gr_found_new : forall x, x ∈ found b1 ->
      x ∈ found b0 \/ (x ∉ masked /\ exists f, f ∈ edges /\ nbr f = x);
  gr_nodup : NoDup (found b0) -> NoDup (found b1);
  gr_settled : forall f, f ∈ edges -> settled b1 f
}.

Lemma grows_visit b f : grows [f] b (bfsVisit masked nbr b f).
Proof.
  unfold bfsVisit.
  destruct (bool_decide (nbr f ∈ masked)) eqn:Hm;
    [destruct (bool_decide (nbr f ∈ seen b)) eqn:Hs|].
  - apply bool_decide_eq_true in Hm, Hs.
    split; auto.
    intros g ->%list_elem_of_singleton. unfold settled.
    rewrite bool_decide_eq_true_2 by done. done.
  - apply bool_decide_eq_true in Hm. apply bool_decide_eq_false in Hs.
    split; cbn [queue seen found]; auto.
    + intros x Hx. set_solver.
    + intros x Hx. apply elem_of_app. auto.
    + intros x [->%elem_of_singleton|Hx]%elem_of_union; [right|by left].
      split_and!; [apply elem_of_app; right; apply list_elem_of_singleton; done|done|].
      exists f. split; [apply list_elem_of_singleton|]; done.
    + intros x [Hx| ->%list_elem_of_singleton]%elem_of_app; [by left|right].
      set_solver.
    + intros g ->%list_elem_of_singleton. unfold settled.
      rewrite bool_decide_eq_true_2 by done. cbn [seen]. set_solver.
  - apply bool_decide_eq_false in Hm.
    split; cbn [queue seen found]; auto.
    + intros x Hx. apply elem_of_setAdd. auto.
    + intros x [Hx| ->]%elem_of_setAdd; [by left|right].
      split; [done|]. exists f. split; [apply list_elem_of_singleton|]; done.
    + apply NoDup_setAdd.
    + intros g ->%list_elem_of_singleton. unfold settled.
      rewrite bool_decide_eq_false_2 by done. cbn [found].
      apply elem_of_setAdd. auto.
Qed.

Lemma settled_mono E b0 b1 f : grows E b0 b1 -> settled b0 f -> settled b1 f.
Proof.
  intros Hg. unfold settled. case_bool_decide; [apply (gr_seen _ _ _ Hg)|apply (gr_found _ _ _ Hg)].
Qed.

Lemma grows_cons f E b0 b1 b2 :
  grows [f] b0 b1 -> grows E b1 b2 -> grows (f :: E) b0 b2.
Proof.
  intros H1 H2. split.
  - intros x Hx. apply (gr_seen _ _ _ H2), (gr_seen _ _ _ H1), Hx.
  - intros x Hx. apply (gr_queue _ _ _ H2), (gr_queue _ _ _ H1), Hx.
  - intros x Hx. apply (gr_found _ _ _ H2), (gr_found _ _ _ H1), Hx.
  - intros x Hx. destruct (gr_seen_new _ _ _ H2 x Hx) as [Hx1|(Hq & Hmk & g & Hg & Hn)].
    + destruct (gr_seen_new _ _ _ H1 x Hx1) as [?|(Hq & Hmk & g & Hg & Hn)]; [by left|right].
      split_and!; [apply (gr_queue _ _ _ H2), Hq|done|].
      exists g. apply list_elem_of_singleton in Hg as ->. split; [left|done].
    + right. split_and!; [done..|]. exists g. split; [by right|done].
  - intros x Hx. destruct (gr_queue_new _ _ _ H2 x Hx) as [Hx1|?]; [|by right].
    destruct (gr_queue_new _ _ _ H1 x Hx1) as [?|?]; [by left|right].
    by apply (gr_seen _ _ _ H2).
  - intros x Hx. destruct (gr_found_new _ _ _ H2 x Hx) as [Hx1|(Hmk & g & Hg & Hn)].
    + destruct (gr_found_new _ _ _ H1 x Hx1) as [?|(Hmk & g & Hg & Hn)]; [by left|right].
      split; [done|]. exists g. apply list_elem_of_singleton in Hg as ->. split; [left|done].
    + right. split; [done|]. exists g. split; [by right|done].
  - intros Hn. apply (gr_nodup _ _ _ H2), (gr_nodup _ _ _ H1), Hn.
  - intros g [->|Hg]%elem_of_cons.
    + apply (settled_mono _ _ _ _ H2), (gr_settled _ _ _ H1). left.
    + by apply (gr_settled _ _ _ H2).
Qed.

Lemma grows_visits edges b : grows edges b (foldl (bfsVisit masked nbr) b edges).
Proof.
  revert b. induction edges as [|f edges IH]; intros b; cbn [foldl].
  - split; auto. intros f Hf. by apply elem_of_nil in Hf.
  - eapply grows_cons; [apply grows_visit|apply IH].
Qed.

(** One iteration of the [while] loop keeps the invariant. *)
Lemma bfsInv_iter b cur q' :
  bfsInv b -> queue b = cur :: q' ->
  bfsInv (foldl (bfsVisit masked nbr)
            {| queue := q'; seen := seen b; found := found b |}
            (default [] (adj !! cur))).
Proof.
  intros Hb Hq.
  set (b0 := {| queue := q'; seen := seen b; found := found b |}).
  pose proof (grows_visits (default [] (adj !! cur)) b0) as Hg.
  set (b1 := foldl _ _ _) in *.
  assert (Hcur : interior flows key nbr masked m cur).
  { apply (inv_seen _ Hb), (inv_queue _ Hb). rewrite Hq. left. }
  split.
  - apply (gr_seen _ _ _ Hg). exact (inv_start _ Hb).
  - intros x Hx. destruct (gr_seen_new _ _ _ Hg x Hx) as [Hx0|(_ & Hmk & f & Hf & <-)].
    + by apply (inv_seen _ Hb).
    + apply elem_of_indexFlows in Hf as [Hf Hk].
      by apply (interior_step _ _ _ _ _ cur f).
  - intros x Hx. destruct (gr_queue_new _ _ _ Hg x Hx) as [Hx0|?]; [|done].
    apply (gr_seen _ _ _ Hg). apply (inv_queue _ Hb). rewrite Hq. by right.
  - intros x Hx. destruct (gr_found_new _ _ _ Hg x Hx) as [Hx0|(Hmk & f & Hf & <-)].
    + by apply (inv_found _ Hb).
    + apply elem_of_indexFlows in Hf as [Hf Hk].
      exists cur, f. done.
  - apply (gr_nodup _ _ _ Hg). exact (inv_nodup _ Hb).
  - intros c f Hc Hcq Hf Hk. fold (settled b1 f).
    destruct (decide (c = cur)) as [->|Hne].
    + apply (gr_settled _ _ _ Hg). by apply elem_of_indexFlows.
    + destruct (gr_seen_new _ _ _ Hg c Hc) as [Hc0|(Hcq' & _)]; [|done].
      apply (settled_mono _ _ _ _ Hg). unfold settled.
      apply (inv_closed _ Hb c f); [done| |done..].
      rewrite Hq. intros [?|Hin]%elem_of_cons; [done|].
      apply Hcq, (gr_queue _ _ _ Hg). exact Hin.
Qed.

Lemma bfsLoop_inv fuel b :
  bfsInv b -> weight b <= fuel ->
  bfsInv (bfsLoop fuel adj nbr masked b) /\ queue (bfsLoop fuel adj nbr masked b) = [].
Proof.
  revert b. induction fuel as [|fuel IH]; intros b Hb Hw.
  - cbn [bfsLoop]. split; [done|]. unfold weight in Hw.
    destruct (queue b); [done|]. cbn [length] in Hw. lia.
  - cbn [bfsLoop]. destruct (queue b) as [|cur q'] eqn:Hq; [done|].
    apply IH.
    + by apply bfsInv_iter.
    + rewrite weight_visits. unfold weight in *. rewrite Hq in Hw.
      cbn [queue seen length] in *. lia.
Qed.

Lemma bfsInv_init : bfsInv {| queue := [m]; seen := {[m]}; found := [] |}.
Proof.
  split; cbn [queue seen found].
  - set_solver.
  - intros x ->%elem_of_singleton. constructor.
  - intros x ->%list_elem_of_singleton. set_solver.
  - intros x Hx. by apply elem_of_nil in Hx.
  - constructor.
  - intros c f ->%elem_of_singleton Hc. exfalso. apply Hc. left.
Qed.

Lemma weight_init :
  weight {| queue := [m]; seen := {[m]}; found := [] |} <= S (size masked).
Proof.
  unfold weight. cbn [queue seen length].
  pose proof (subseteq_size (masked ∖ {[m]}) masked) as Hs.
  assert (masked ∖ {[m]} ⊆ masked) as Hsub by set_solver.
  specialize (Hs Hsub). lia.
Qed.

Lemma interior_seen b x :
  bfsInv b -> queue b = [] -> interior flows key nbr masked m x -> x ∈ seen b.
Proof.
  intros Hb Hq. induction 1 as [|c f Hc IH Hf Hk Hmk].
  - exact (inv_start _ Hb).
  - pose proof (inv_closed _ Hb c f IH) as Hcl.
    rewrite Hq in Hcl. specialize (Hcl (not_elem_of_nil _) Hf Hk).
    by rewrite bool_decide_eq_true_2 in Hcl.
Qed.

(** The search from [m] stops with an empty queue, and what it found is
    the boundary of [m], each node once. *)
Lemma bfsFrom_spec :
  queue (bfsFrom m adj nbr masked) = [] /\
  NoDup (found (bfsFrom m adj nbr masked)) /\
  forall x, x ∈ found (bfsFrom m adj nbr masked) <-> boundary flows key nbr masked m x.
Proof.
  destruct (bfsLoop_inv (S (size masked)) _ bfsInv_init weight_init) as [Hb Hq].
  fold (bfsFrom m adj nbr masked) in Hb, Hq.
  split_and!; [done|exact (inv_nodup _ Hb)|].
  intros x. split; [apply (inv_found _ Hb)|].
  intros (c & f & Hc & Hf & Hk & <- & Hmk).
  pose proof (inv_closed _ Hb c f (interior_seen _ _ Hb Hq Hc)) as Hcl.
  rewrite Hq in Hcl. specialize (Hcl (not_elem_of_nil _) Hf Hk).
  by rewrite bool_decide_eq_false_2 in Hcl.
Qed.

End BoundarySearch.

(** What [collectBoundaryNeighbors] returns on the adjacency maps of [flows]. *)
Lemma collect_found (flows : list Flow) (maskedSet : gset string) (mid : string) :
  let r := collectBoundaryNeighbors mid (indexFlows f_src flows) (indexFlows f_tgt flows)
             maskedSet in
  (forall s, s ∈ r.1 <-> unmaskedPred flows maskedSet mid s) /\
  (forall t, t ∈ r.2 <-> unmaskedSucc flows maskedSet mid t).
Proof.
  cbv zeta. unfold collectBoundaryNeighbors, unmaskedPred, unmaskedSucc. cbn [fst snd].
  destruct (bfsFrom_spec flows f_tgt f_src maskedSet mid) as (_ & _ & Hp).
  destruct (bfsFrom_spec flows f_src f_tgt maskedSet mid) as (_ & _ & Hs).
  done.
Qed.

(** C5. For every node [mid] (masked or not) the boundary search over the
    adjacency maps of [flows] stops, and returns as [preds] exactly the
    unmasked nodes that send a flow into the masked interior reached
    backward from [mid] (the search never continues through an unmasked
    node), and as [succs] the symmetric set over outgoing flows, each node
    listed once; when no such node exists on a side, that side is empty. *)
Theorem collectBoundaryNeighbors_spec (flows : list Flow) (maskedSet : gset string)
    (mid : string) :
  let flowsBySource := indexFlows f_src flows in
  let flowsByTarget := indexFlows f_tgt flows in
  let preds := (collectBoundaryNeighbors mid flowsBySource flowsByTarget maskedSet).1 in
  let succs := (collectBoundaryNeighbors mid flowsBySource flowsByTarget maskedSet).2 in
  (forall s, s ∈ preds <-> unmaskedPred flows maskedSet mid s) /\
  (forall t, t ∈ succs <-> unmaskedSucc flows maskedSet mid t) /\
  NoDup preds /\ NoDup succs /\
  ((forall s, ~ unmaskedPred flows maskedSet mid s) -> preds = []) /\
  ((forall t, ~ unmaskedSucc flows maskedSet mid t) -> succs = []) /\
  queue (bfsFrom mid flowsByTarget f_src maskedSet) = [] /\
  queue (bfsFrom mid flowsBySource f_tgt maskedSet) = [].
Proof.
  cbv zeta. unfold collectBoundaryNeighbors, unmaskedPred, unmaskedSucc. cbn [fst snd].
  destruct (bfsFrom_spec flows f_tgt f_src maskedSet mid) as (Hq1 & Hn1 & Hp).
  destruct (bfsFrom_spec flows f_src f_tgt maskedSet mid) as (Hq2 & Hn2 & Hs).
  split_and!; try done.
  - intros Hno. destruct (found _) as [|x l] eqn:E; [done|].
    exfalso. apply (Hno x), Hp. left.
  - intros Hno. destruct (found (bfsFrom mid (indexFlows f_src flows) _ _)) as [|x l] eqn:E; [done|].
    exfalso. apply (Hno x), Hs. left.
Qed.

(** ** Lists with one element removed *)

Lemma elem_of_remove_first {A} (p : A -> bool) (l : list A) x :
  x ∈ remove_first p l -> x ∈ l.
Proof.
  induction l as [|y l IH]; cbn [remove_first]; [done|].
  destruct (p y); [by right|].
  intros [->|Hx]%elem_of_cons; [left|right; auto].
Qed.

Lemma remove_first_keep {A} (p : A -> bool) (l : list A) x :
  x ∈ l -> p x = false -> x ∈ remove_first p l.
Proof.
  intros Hx Hp. induction l as [|y l IH]; cbn [remove_first]; [done|].
  apply elem_of_cons in Hx as [->|Hx].
  - rewrite Hp. left.
  - destruct (p y); [done|]. right. auto.
Qed.

Lemma remove_first_sublist {A} (p : A -> bool) (l : list A) :
  remove_first p l `sublist_of` l.
Proof.
  induction l as [|y l IH]; cbn [remove_first]; [done|].
  destruct (p y); [by apply sublist_cons|by apply sublist_skip].
Qed.

Lemma elem_of_remove_last {A} (p : A -> bool) (l : list A) x :
  x ∈ remove_last p l -> x ∈ l.
Proof.
  unfold remove_last. rewrite !list_elem_of_In, <- in_rev, <- !list_elem_of_In.
  intros H%elem_of_remove_first. by rewrite list_elem_of_In, in_rev, <- list_elem_of_In.
Qed.

Lemma remove_last_keep {A} (p : A -> bool) (l : list A) x :
  x ∈ l -> p x = false -> x ∈ remove_last p l.
Proof.
  intros Hx Hp. unfold remove_last. rewrite list_elem_of_In, <- in_rev, <- list_elem_of_In.
  apply remove_first_keep; [|done]. by rewrite list_elem_of_In, <- in_rev, <- list_elem_of_In.
Qed.

(** ** Removals only shrink the document *)

(** [shrinksTo K s s']: [s'] is [s] after some removals, none of which
    hit a process child in the protected class [K]. *)
Record shrinksTo (K : PNode -> Prop) (s s' : Dom) : Prop := {
  sh_proc : forall x, x ∈ proc s' -> x ∈ proc s;
  sh_plane : forall y, y ∈ plane s' -> y ∈ plane s;
  sh_keep : forall x, K x -> x ∈ proc s -> x ∈ proc s';
  sh_log : exists l, log s' = log s ++ l /\ forallb isRemoval l = true
}.

Lemma shrinksTo_refl K s : shrinksTo K s s.
Proof. split; auto. exists []. by rewrite app_nil_r. Qed.

Lemma shrinksTo_trans K s1 s2 s3 :
  shrinksTo K s1 s2 -> shrinksTo K s2 s3 -> shrinksTo K s1 s3.
Proof.
  intros H1 H2. split.
  - intros x Hx. apply (sh_proc _ _ _ H1), (sh_proc _ _ _ H2), Hx.
  - intros x Hx. apply (sh_plane _ _ _ H1), (sh_plane _ _ _ H2), Hx.
  - intros x Hk Hx. apply (sh_keep _ _ _ H2), (sh_keep _ _ _ H1); done.
  - destruct (sh_log _ _ _ H1) as (l1 & E1 & F1), (sh_log _ _ _ H2) as (l2 & E2 & F2).
    exists (l1 ++ l2). rewrite E2, E1, app_assoc. split; [done|].
    rewrite forallb_app, F1, F2. done.
Qed.

Lemma shrinksTo_foldl {A} K (op : Dom -> A -> Dom) (l : list A) s :
  (forall s a, a ∈ l -> shrinksTo K s (op s a)) -> shrinksTo K s (foldl op s l).
Proof.
  revert s. induction l as [|a l IH]; intros s H; cbn [foldl].
  - apply shrinksTo_refl.
  - eapply shrinksTo_trans; [apply H; left|]. apply IH. intros. apply H. by right.
Qed.

Lemma removeDI_shrinks K p s : shrinksTo K s (removeDI p s).
Proof.
  split; cbn [removeDI proc plane log]; auto.
  - intros y Hy%list_elem_of_In%filter_In. apply list_elem_of_In. tauto.
  - eexists. split; [done|]. induction (List.filter p (plane s)); cbn; auto.
Qed.

Lemma detach_shrinks (K : PNode -> Prop) p s :
  (forall x, K x -> p x = false) -> shrinksTo K s (detach p s).
Proof.
  intros Hk. unfold detach. destruct (List.find p (proc s)); [|apply shrinksTo_refl].
  split; cbn [proc plane log]; auto.
  - apply elem_of_remove_first.
  - intros x Hx Hin. apply remove_first_keep; auto.
  - exists [EvRemove p0]. done.
Qed.

Lemma detachLast_shrinks (K : PNode -> Prop) p s :
  (forall x, K x -> p x = false) -> shrinksTo K s (detachLast p s).
Proof.
  intros Hk. unfold detachLast. destruct (List.find p (rev (proc s))); [|apply shrinksTo_refl].
  split; cbn [proc plane log]; auto.
  - apply elem_of_remove_last.
  - intros x Hx Hin. apply remove_last_keep; auto.
  - exists [EvRemove p0]. done.
Qed.

(** Nodes the orphan cascade never detaches. *)
Definition notCascaded (x : PNode) : Prop :=
  match x with
  | PAssoc _ | PAnnot _ _ => False
  | _ => True
  end.

Lemma maybeRemove_shrinks K taId s :
  (forall x, K x -> notCascaded x) ->
  shrinksTo K s (maybeRemoveTextAnnotationIfOrphaned taId s).
Proof.
  intros Hk. unfold maybeRemoveTextAnnotationIfOrphaned.
  destruct (Nat.ltb _ _); [apply shrinksTo_refl|].
  eapply shrinksTo_trans; [apply detach_shrinks|apply removeDI_shrinks].
  intros x Hx%Hk. by destruct x.
Qed.

Lemma cascade_shrinks K a s :
  (forall x, K x -> notCascaded x) -> shrinksTo K s (removeAssociationCascade a s).
Proof.
  intros Hk. unfold removeAssociationCascade.
  set (s1 := removeDIEdgeForElement (a_id a) s).
  set (s2 := detach (isAssocNode a) s1).
  assert (H2 : shrinksTo K s s2).
  { eapply shrinksTo_trans; [apply removeDI_shrinks|apply detach_shrinks].
    intros x Hx%Hk. by destruct x. }
  destruct (existsb (isAnnot (a_src a)) (proc s2)), (existsb (isAnnot (a_tgt a)) (proc s2));
    repeat (first [exact H2 | eapply shrinksTo_trans; [|by apply maybeRemove_shrinks]]).
Qed.

Lemma removeAll_shrinks K elId s :
  (forall x, K x -> notCascaded x) ->
  shrinksTo K s (removeAllAssociationsTouchingId elId s).
Proof.
  intros Hk. unfold removeAllAssociationsTouchingId.
  apply shrinksTo_foldl. intros. by apply cascade_shrinks.
Qed.

(** ** Selections as membership *)

Lemma elem_of_selectFlows proc0 f : f ∈ selectFlows proc0 <-> PFlow f ∈ proc0.
Proof.
  unfold selectFlows. rewrite list_elem_of_omap. split.
  - intros (x & Hx & Hf). destruct x; try done. by inversion Hf; subst.
  - intros Hf. by exists (PFlow f).
Qed.

Lemma elem_of_selectAssocs proc0 a : a ∈ selectAssocs proc0 <-> PAssoc a ∈ proc0.
Proof.
  unfold selectAssocs. rewrite list_elem_of_omap. split.
  - intros (x & Hx & Hf). destruct x; try done. by inversion Hf; subst.
  - intros Hf. by exists (PAssoc a).
Qed.

Lemma elem_of_getTaskList proc0 t : t ∈ getTaskList proc0 <-> PTask t ∈ proc0.
Proof.
  unfold getTaskList. rewrite list_elem_of_omap. split.
  - intros (x & Hx & Hf). destruct x; try done. by inversion Hf; subst.
  - intros Hf. by exists (PTask t).
Qed.

Lemma existingFlow_hasFlow proc0 s t :
  is_Some_b (existingFlow proc0 s t) = true <-> hasFlow proc0 s t.
Proof.
  unfold existingFlow, hasFlow. split.
  - destruct (List.find _ _) as [f|] eqn:E; [intros _|done].
    apply find_some in E as [Hin Hb]. exists f.
    apply andb_true_iff in Hb as [?%String.eqb_eq ?%String.eqb_eq].
    split; [|done]. by apply elem_of_selectFlows, list_elem_of_In.
  - intros (f & Hin & <- & <-).
    destruct (List.find _ _) as [g|] eqn:E; [done|].
    apply elem_of_selectFlows, list_elem_of_In in Hin.
    pose proof (find_none _ _ E f Hin) as Hb. cbn in Hb.
    by rewrite !String.eqb_refl in Hb.
Qed.

Lemma createdFlows_app l1 l2 : createdFlows (l1 ++ l2) = createdFlows l1 ++ createdFlows l2.
Proof. apply omap_app. Qed.

Lemma createdFlows_removals l : forallb isRemoval l = true -> createdFlows l = [].
Proof.
  induction l as [|e l IH]; [done|]. cbn [forallb]. intros [He Hl]%andb_true_iff.
  destruct e; try done; cbn; auto.
Qed.

Lemma shrinksTo_created K s s' :
  shrinksTo K s s' -> createdFlows (log s') = createdFlows (log s).
Proof.
  intros H. destruct (sh_log _ _ _ H) as (l & -> & Hl).
  by rewrite createdFlows_app, (createdFlows_removals l), app_nil_r.
Qed.

(** ** One synthesis attempt *)

(** The pair needs no new flow. *)
Definition covered (st : MaskSt) (s t : string) : Prop :=
  s = t \/ pairKey s t ∈ ms_autoFlowPairs st \/ hasFlow (proc (ms_dom st)) s t.

Definition isEdgeAppend (e : Event) : bool :=
  match e with
  | EvAppendDI (DEdge _ _ _) => true
  | _ => false
  end.

(** [st'] is [st] after a bypass flow from [s] to [t] was created. *)
Definition synthesized (s t : string) (st st' : MaskSt) : Prop :=
  s <> t /\ (pairKey s t ∉ ms_autoFlowPairs st) /\ (~ hasFlow (proc (ms_dom st)) s t) /\
  exists nf extra,
    f_src nf = s /\ f_tgt nf = t /\
    proc (ms_dom st') = proc (ms_dom st) ++ [PFlow nf] /\
    plane (ms_dom st') = plane (ms_dom st) ++ createdDI extra /\
    log (ms_dom st') = log (ms_dom st) ++ EvAppend (PFlow nf) :: extra /\
    forallb isEdgeAppend extra = true /\
    ms_autoFlowPairs st' = {[pairKey s t]} ∪ ms_autoFlowPairs st /\
    ms_removedFlowIds st' = ms_removedFlowIds st /\
    ms_detached st' = ms_detached st.

Lemma synthPair_cases s t st :
  (covered st s t /\ synthPair s t st = st) \/ synthesized s t st (synthPair s t st).
Proof.
  unfold synthPair, covered.
  destruct (String.eqb_spec s t) as [->|Hne]; [left; auto|].
  case_bool_decide as Hk; [left; auto|].
  destruct (is_Some_b _) eqn:He.
  { apply existingFlow_hasFlow in He. left; auto. }
  right. split_and!; [done..| |].
  { intros Hf%existingFlow_hasFlow. congruence. }
  set (nf := {| f_id := _ |}).
  destruct (boundsFor (plane (appendChild (PFlow nf) (ms_dom st))) s) as [sb|],
           (boundsFor (plane (appendChild (PFlow nf) (ms_dom st))) t) as [tb|];
    [exists nf, [EvAppendDI (DEdge (f_id nf +:+ "_di") (f_id nf) (bypassWaypoints sb tb))]
    |exists nf, [] ..];
    cbn [ms_dom ms_autoFlowPairs ms_removedFlowIds ms_detached appendDI appendChild
         proc plane log createdDI omap];
    rewrite ?app_nil_r, <- ?app_assoc; split_and!; done.
Qed.

Lemma covered_synthPair s t st : covered (synthPair s t st) s t.
Proof.
  destruct (synthPair_cases s t st) as [[Hc ->]|(_ & _ & _ & nf & ex & _ & _ & _ & _ & _ & _ & Hp & _)];
    [done|].
  right; left. rewrite Hp. set_solver.
Qed.

Lemma hasFlow_app proc0 l s t : hasFlow proc0 s t -> hasFlow (proc0 ++ l) s t.
Proof. intros (f & Hf & ?). exists f. split; [|done]. apply elem_of_app. auto. Qed.

Lemma covered_mono_synthPair s t st s' t' :
  covered st s' t' -> covered (synthPair s t st) s' t'.
Proof.
  intros Hc.
  destruct (synthPair_cases s t st) as [[_ ->]|(_ & _ & _ & nf & ex & _ & _ & Hpr & _ & _ & _ & Hp & _)];
    [done|].
  destruct Hc as [?|[?|?]]; [by left|right; left|right; right].
  - rewrite Hp. set_solver.
  - rewrite Hpr. by apply hasFlow_app.
Qed.

Lemma synthPairs_covered (l : list (string * string)) st p :
  p ∈ l ->
  covered (foldl (fun st p => synthPair p.1 p.2 st) st l) p.1 p.2.
Proof.
  revert st. induction l as [|q l IH]; intros st; [by intros ?%elem_of_nil|].
  intros [->|Hp]%elem_of_cons; cbn [foldl]; [|by apply IH].
  generalize (covered_synthPair q.1 q.2 st). generalize (synthPair q.1 q.2 st).
  clear IH. induction l as [|r l IH]; intros st' Hc; cbn [foldl]; [done|].
  apply IH. by apply covered_mono_synthPair.
Qed.

Lemma synthPairs_idle (l : list (string * string)) st :
  (forall p, p ∈ l -> covered st p.1 p.2) ->
  foldl (fun st p => synthPair p.1 p.2 st) st l = st.
Proof.
  induction l as [|q l IH]; intros Hc; cbn [foldl]; [done|].
  destruct (synthPair_cases q.1 q.2 st) as [[_ ->]|(Hne & Hk & Hf & _)].
  - apply IH. intros. apply Hc. by right.
  - destruct (Hc q) as [?|[?|?]]; [left|done..].
Qed.

(** The candidate pairs of one synthesis pass, in the order the nested
    loops meet them. *)
Definition pairsOf (flowsBySource flowsByTarget : gmap string (list Flow))
    (maskedSet : gset string) (mid : string) : list (string * string) :=
  let r := collectBoundaryNeighbors mid flowsBySource flowsByTarget maskedSet in
  r.1 ≫= (fun s => (fun t => (s, t)) <$> r.2).

Definition allPairs (flowsBySource flowsByTarget : gmap string (list Flow))
    (maskedIds : list string) : list (string * string) :=
  maskedIds ≫= pairsOf flowsBySource flowsByTarget (list_to_set maskedIds).

Lemma foldl_nested {S A B} (g : A -> B -> S -> S) (ss : list A) (ts : list B) (st : S) :
  foldl (fun st s => foldl (fun st t => g s t st) st ts) st ss
  = foldl (fun st (p : A * B) => g p.1 p.2 st) st (ss ≫= (fun s => (fun t => (s, t)) <$> ts)).
Proof.
  revert st. induction ss as [|s ss IH]; intros st; [done|].
  cbn [foldl]. rewrite bind_cons, foldl_app, <- IH. f_equal.
  clear IH. generalize st. induction ts as [|t ts IHt]; intros st0; [done|].
  cbn [foldl fmap list_fmap]. apply IHt.
Qed.

Lemma synthFor_pairs fbs fbt maskedSet st mid :
  synthFor fbs fbt maskedSet st mid
  = foldl (fun st p => synthPair p.1 p.2 st) st (pairsOf fbs fbt maskedSet mid).
Proof.
  unfold synthFor, pairsOf.
  destruct (collectBoundaryNeighbors _ _ _ _) as [preds succs]. cbn [fst snd].
  apply (foldl_nested synthPair).
Qed.

Lemma synthAll_pairs fbs fbt maskedIds st :
  synthAll fbs fbt maskedIds st
  = foldl (fun st p => synthPair p.1 p.2 st) st (allPairs fbs fbt maskedIds).
Proof.
  unfold synthAll, allPairs. generalize (list_to_set maskedIds : gset string) as M.
  intros M. revert st. induction maskedIds as [|mid l IH]; intros st; [done|].
  cbn [foldl]. rewrite bind_cons, foldl_app, IH, synthFor_pairs. done.
Qed.

(** ** Invariant of the masking run *)

Section MaskRun.
Variable orig : list PNode.          (* children of the process before the run *)
Variable maskedIds : list string.
Variable byId : gmap string Task.

Let M : gset string := list_to_set maskedIds.
Let flows := selectFlows orig.
Let fbs := indexFlows f_src flows.
Let fbt := indexFlows f_tgt flows.

(** Flows between two unmasked nodes. *)
Definition outside (x : PNode) : Prop :=
  exists e, x = PFlow e /\ f_src e ∉ M /\ f_tgt e ∉ M.

Record runInv (st : MaskSt) : Prop := {
  ri_orig : forall x, outside x -> x ∈ orig -> x ∈ proc (ms_dom st);
  ri_created : forall f, f ∈ createdFlows (log (ms_dom st)) ->
      f_src f ∉ M /\ f_tgt f ∉ M /\ f_src f <> f_tgt f /\
      PFlow f ∈ proc (ms_dom st) /\
      pairKey (f_src f) (f_tgt f) ∈ ms_autoFlowPairs st /\
      ~ hasFlow orig (f_src f) (f_tgt f);
  ri_nodup : NoDup (endpoints <$> createdFlows (log (ms_dom st)));
  ri_source : forall x, x ∈ proc (ms_dom st) ->
      x ∈ orig \/ exists f, x = PFlow f /\ f ∈ createdFlows (log (ms_dom st));
  ri_pairs : forall k, k ∈ ms_autoFlowPairs st ->
      exists f, f ∈ createdFlows (log (ms_dom st)) /\ pairKey (f_src f) (f_tgt f) = k
}.

Lemma createdFlows_edges extra :
  forallb isEdgeAppend extra = true -> createdFlows extra = [].
Proof.
  induction extra as [|e l IH]; [done|]. cbn [forallb]. intros [He Hl]%andb_true_iff.
  destruct e; try done; cbn; auto.
Qed.

Lemma runInv_synthPair s t st :
  s ∉ M -> t ∉ M -> runInv st -> runInv (synthPair s t st).
Proof.
  intros Hs Ht Hst.
  destruct (synthPair_cases s t st) as [[_ ->]|Hsy]; [done|].
  destruct Hsy as (Hne & Hk & Hno & nf & ex & Hsrc & Htgt & Hpr & Hpl & Hlog & Hex & Hp & _).
  assert (Hcr : createdFlows (log (ms_dom (synthPair s t st)))
                = createdFlows (log (ms_dom st)) ++ [nf]).
  { rewrite Hlog, createdFlows_app.
    change (createdFlows (EvAppend (PFlow nf) :: ex)) with (nf :: createdFlows ex).
    by rewrite (createdFlows_edges ex). }
  split.
  - intros x Hx Hin. rewrite Hpr. apply elem_of_app. left. by apply (ri_orig _ Hst).
  - intros f. rewrite Hcr, Hpr, Hp.
    intros [Hf| ->%list_elem_of_singleton]%elem_of_app.
    + destruct (ri_created _ Hst f Hf) as (? & ? & ? & ? & ? & ?).
      split_and!; [done..| | |done]; [apply elem_of_app; by left|set_solver].
    + rewrite Hsrc, Htgt. split_and!; [done..| | |].
      * apply elem_of_app. right. by apply list_elem_of_singleton.
      * set_solver.
      * intros (e & He & Hes & Het). apply Hno. exists e. split; [|done].
        apply (ri_orig _ Hst); [|done]. exists e. by rewrite Hes, Het.
  - rewrite Hcr, fmap_app. apply NoDup_app. split_and!;
      [exact (ri_nodup _ Hst)| |apply NoDup_singleton].
    intros p Hp1 ->%list_elem_of_singleton.
    apply list_elem_of_fmap in Hp1 as (f & Hpf & Hf).
    destruct (ri_created _ Hst f Hf) as (_ & _ & _ & _ & Hkf & _).
    unfold endpoints in Hpf. rewrite Hsrc, Htgt in Hpf. inversion Hpf as [[H1 H2]].
    apply Hk. by rewrite H1, H2.
  - intros x. rewrite Hpr, Hcr. intros [Hx| ->%list_elem_of_singleton]%elem_of_app.
    + destruct (ri_source _ Hst x Hx) as [?|(f & -> & Hf)]; [by left|right].
      exists f. split; [done|]. apply elem_of_app. by left.
    + right. exists nf. split; [done|]. apply elem_of_app. right.
      by apply list_elem_of_singleton.
  - intros k. rewrite Hp, Hcr. intros [->%elem_of_singleton|Hk']%elem_of_union.
    + exists nf. rewrite Hsrc, Htgt. split; [|done]. apply elem_of_app. right.
      by apply list_elem_of_singleton.
    + destruct (ri_pairs _ Hst k Hk') as (f & Hf & Hkf). exists f. split; [|done].
      apply elem_of_app. by left.
Qed.

Lemma runInv_synthPairs (l : list (string * string)) st :
  (forall p, p ∈ l -> p.1 ∉ M /\ p.2 ∉ M) -> runInv st ->
  runInv (foldl (fun st p => synthPair p.1 p.2 st) st l).
Proof.
  revert st. induction l as [|p l IH]; intros st Hl Hst; cbn [foldl]; [done|].
  apply IH; [intros; apply Hl; by right|].
  destruct (Hl p) as [? ?]; [left|]. by apply runInv_synthPair.
Qed.

Lemma pairsOf_unmasked mid p :
  p ∈ pairsOf fbs fbt M mid ->
  unmaskedPred flows M mid p.1 /\ unmaskedSucc flows M mid p.2.
Proof.
  unfold pairsOf. intros (s & Hp & Hs)%list_elem_of_bind.
  apply list_elem_of_fmap in Hp as (t & -> & Ht). cbn [fst snd].
  destruct (collect_found flows M mid) as (Hpre & Hsuc).
  split; [by apply Hpre|by apply Hsuc].
Qed.

Lemma allPairs_unmasked p :
  p ∈ allPairs fbs fbt maskedIds -> p.1 ∉ M /\ p.2 ∉ M.
Proof.
  unfold allPairs. intros (mid & Hp & Hmid)%list_elem_of_bind.
  apply pairsOf_unmasked in Hp as [(? & ? & _ & _ & _ & _ & ?) (? & ? & _ & _ & _ & _ & ?)].
  done.
Qed.

Lemma runInv_synthAll st : runInv st -> runInv (synthAll fbs fbt maskedIds st).
Proof.
  intros Hst. rewrite synthAll_pairs. apply runInv_synthPairs; [|done].
  apply allPairs_unmasked.
Qed.

(** *** The removals of one outer iteration *)

(** [st'] is [st] after removals that spare the flows between unmasked
    nodes and leave the synthesis bookkeeping alone. *)
Definition excised (st st' : MaskSt) : Prop :=
  shrinksTo outside (ms_dom st) (ms_dom st') /\
  ms_autoFlowPairs st' = ms_autoFlowPairs st /\
  ms_counter st' = ms_counter st.

Lemma excised_refl st : excised st st.
Proof. split_and!; [apply shrinksTo_refl|done..]. Qed.

Lemma excised_trans st1 st2 st3 : excised st1 st2 -> excised st2 st3 -> excised st1 st3.
Proof.
  intros (H1 & E1 & C1) (H2 & E2 & C2).
  split_and!; [by eapply shrinksTo_trans|congruence..].
Qed.

Lemma excised_foldl {A} (op : MaskSt -> A -> MaskSt) (l : list A) st :
  (forall st a, a ∈ l -> excised st (op st a)) -> excised st (foldl op st l).
Proof.
  revert st. induction l as [|a l IH]; intros st H; cbn [foldl].
  - apply excised_refl.
  - eapply excised_trans; [apply H; left|]. apply IH. intros. apply H. by right.
Qed.

Lemma outside_notCascaded x : outside x -> notCascaded x.
Proof. by intros (e & -> & _). Qed.

Lemma removeFlow_excised st f :
  f_src f ∈ M \/ f_tgt f ∈ M -> excised st (removeFlow st f).
Proof.
  intros Hf. unfold removeFlow.
  destruct (_ || _); [apply excised_refl|].
  split_and!; [|done..]. cbn [ms_dom].
  eapply shrinksTo_trans; [apply removeAll_shrinks, outside_notCascaded|].
  eapply shrinksTo_trans; [apply removeDI_shrinks|].
  apply detach_shrinks. intros x (e & -> & Hs & Ht). cbn [isFlowNode].
  destruct (String.eqb_spec (f_src e) (f_src f)) as [Es|];
    [|by rewrite andb_false_r].
  destruct (String.eqb_spec (f_tgt e) (f_tgt f)) as [Et|];
    [|by rewrite andb_false_r].
  rewrite Es in Hs. rewrite Et in Ht. tauto.
Qed.

Lemma exciseNode_excised st mid :
  mid ∈ M -> excised st (exciseNode byId fbs fbt st mid).
Proof.
  intros Hmid. unfold exciseNode.
  set (st1 := foldl removeFlow st _).
  assert (H1 : excised st st1).
  { apply excised_foldl. intros st0 f Hf. apply removeFlow_excised.
    apply elem_of_app in Hf as [Hf|Hf]; apply elem_of_indexFlows in Hf as [_ ->]; auto. }
  eapply excised_trans; [exact H1|].
  split_and!; [|done..]. cbn [ms_dom].
  eapply shrinksTo_trans; [apply removeAll_shrinks, outside_notCascaded|].
  eapply shrinksTo_trans; [|apply removeDI_shrinks].
  destruct (byId !! mid); [|apply shrinksTo_refl].
  case_bool_decide; [apply shrinksTo_refl|].
  apply detachLast_shrinks. by intros x (e & -> & _).
Qed.

Lemma hasFlow_excised st st' s t :
  excised st st' -> s ∉ M -> t ∉ M ->
  hasFlow (proc (ms_dom st)) s t -> hasFlow (proc (ms_dom st')) s t.
Proof.
  intros (Hsh & _) Hs Ht (e & He & <- & <-). exists e. split; [|done].
  apply (sh_keep _ _ _ Hsh); [|done]. by exists e.
Qed.

Lemma runInv_excised st st' : excised st st' -> runInv st -> runInv st'.
Proof.
  intros Hex Hst. pose proof Hex as (Hsh & Hp & _).
  pose proof (shrinksTo_created _ _ _ Hsh) as Hcr.
  split.
  - intros x Hx Hin. apply (sh_keep _ _ _ Hsh); [done|]. by apply (ri_orig _ Hst).
  - intros f. rewrite Hcr, Hp. intros Hf.
    destruct (ri_created _ Hst f Hf) as (? & ? & ? & ? & ? & ?).
    split_and!; [done..| |done|done].
    apply (sh_keep _ _ _ Hsh); [|done]. by exists f.
  - rewrite Hcr. exact (ri_nodup _ Hst).
  - intros x Hx%(sh_proc _ _ _ Hsh). rewrite Hcr. by apply (ri_source _ Hst).
  - intros k. rewrite Hcr, Hp. apply (ri_pairs _ Hst).
Qed.

(** *** The synthesis pass runs once *)

(** Every candidate pair is covered: a further synthesis pass finds
    nothing to create. *)
Definition idle (st : MaskSt) : Prop :=
  forall p, p ∈ allPairs fbs fbt maskedIds -> covered st p.1 p.2.

Lemma idle_synthAll st : idle (synthAll fbs fbt maskedIds st).
Proof. intros p Hp. rewrite synthAll_pairs. by apply synthPairs_covered. Qed.

Lemma synthAll_idle st : idle st -> synthAll fbs fbt maskedIds st = st.
Proof. intros Hi. rewrite synthAll_pairs. by apply synthPairs_idle. Qed.

Lemma idle_excised st st' : excised st st' -> idle st -> idle st'.
Proof.
  intros Hex Hi p Hp. destruct (allPairs_unmasked p Hp) as [Hs Ht].
  destruct (Hi p Hp) as [?|[?|?]]; [by left|right; left|right; right].
  - destruct Hex as (_ & -> & _). done.
  - by eapply hasFlow_excised.
Qed.

Lemma maskSteps_idle (mids : list string) st :
  (forall mid, mid ∈ mids -> mid ∈ M) -> idle st ->
  foldl (maskStep byId fbs fbt maskedIds) st mids
  = foldl (exciseNode byId fbs fbt) st mids.
Proof.
  revert st. induction mids as [|mid mids IH]; intros st Hm Hi; cbn [foldl]; [done|].
  unfold maskStep at 2. rewrite (synthAll_idle st Hi).
  apply IH; [intros; apply Hm; by right|].
  eapply idle_excised; [|done]. apply exciseNode_excised, Hm. left.
Qed.

(** The nested loops amount to two phases: one synthesis pass over all
    masked ids, then the removals for each masked id in turn. *)
Lemma maskSteps_two_phase st :
  foldl (maskStep byId fbs fbt maskedIds) st maskedIds
  = foldl (exciseNode byId fbs fbt) (synthAll fbs fbt maskedIds st) maskedIds.
Proof.
  assert (Hm : forall mid, mid ∈ maskedIds -> mid ∈ M).
  { intros mid Hmid. by apply elem_of_list_to_set. }
  assert (Hkey : forall mids, (forall mid, mid ∈ mids -> mid ∈ M) -> mids <> [] ->
            foldl (maskStep byId fbs fbt maskedIds) st mids
            = foldl (exciseNode byId fbs fbt) (synthAll fbs fbt maskedIds st) mids).
  { intros [|mid mids] Hmids Hne; [done|]. cbn [foldl]. unfold maskStep at 2.
    apply maskSteps_idle; [intros; apply Hmids; by right|].
    eapply idle_excised; [apply exciseNode_excised, Hmids; left|apply idle_synthAll]. }
  destruct (decide (maskedIds = [])) as [E|E]; [|by apply Hkey].
  assert (Hi : idle st).
  { intros p (mid & _ & Hmid)%list_elem_of_bind. rewrite E in Hmid.
    by apply elem_of_nil in Hmid. }
  rewrite (synthAll_idle st Hi). by apply maskSteps_idle.
Qed.

Lemma excised_all st :
  excised st (foldl (exciseNode byId fbs fbt) st maskedIds).
Proof.
  apply excised_foldl. intros st0 mid Hmid. apply exciseNode_excised.
  by apply elem_of_list_to_set.
Qed.

End MaskRun.

(** ** The run as a whole *)

Lemma maskRun_two_phase d thr dir :
  maskRun d thr dir = excisePhase d thr dir (synthPhase d thr dir).
Proof.
  unfold excisePhase, synthPhase. rewrite <- maskSteps_two_phase.
  unfold maskRun, maskedOf. by destruct (maskedIdsOf _ _ _).
Qed.

Lemma runInv_init d mids : runInv (d_process d) mids (initMask d).
Proof.
  split; cbn [initMask ms_dom proc log ms_autoFlowPairs createdFlows omap].
  - auto.
  - by intros f ?%elem_of_nil.
  - constructor.
  - auto.
  - intros k Hk. by apply not_elem_of_empty in Hk.
Qed.

Lemma runInv_synthPhase d thr dir :
  runInv (d_process d) (maskedOf d thr dir) (synthPhase d thr dir).
Proof. apply runInv_synthAll, runInv_init. Qed.

Lemma excisePhase_excised d thr dir st :
  excised (maskedOf d thr dir) st (excisePhase d thr dir st).
Proof. apply excised_all. Qed.

Lemma runInv_final d thr dir :
  runInv (d_process d) (maskedOf d thr dir) (maskRun d thr dir).
Proof.
  rewrite maskRun_two_phase.
  eapply runInv_excised; [apply excisePhase_excised|apply runInv_synthPhase].
Qed.

Lemma synthPairs_log (l : list (string * string)) st :
  forallb isCreation (log (ms_dom st)) = true ->
  forallb isCreation (log (ms_dom (foldl (fun st p => synthPair p.1 p.2 st) st l))) = true.
Proof.
  revert st. induction l as [|p l IH]; intros st Hst; cbn [foldl]; [done|].
  apply IH.
  destruct (synthPair_cases p.1 p.2 st)
    as [[_ ->]|(_ & _ & _ & nf & ex & _ & _ & _ & _ & -> & Hex & _)]; [done|].
  rewrite forallb_app, Hst. cbn [forallb isCreation isRemoval negb andb].
  clear -Hex. induction ex as [|e ex IHex]; [done|].
  cbn [forallb] in *. apply andb_true_iff in Hex as [He Hex].
  rewrite IHex by done. by destruct e.
Qed.

Lemma elem_of_maskedOf d thr dir i :
  i ∈ (list_to_set (maskedOf d thr dir) : gset string) <-> i ∈ maskedOf d thr dir.
Proof. apply elem_of_list_to_set. Qed.

(** C10. Every bypass flow synthesized during a masking run has its source
    and its target outside the masked set, and is still a child of the
    process when the run ends: the removals of the same run never detach
    it. *)
Theorem bypass_outside_masked_and_kept (d : Doc) (thr : float) (dir : string) (f : Flow) :
  f ∈ bypassFlows d thr dir ->
  f_src f ∉ maskedOf d thr dir /\ f_tgt f ∉ maskedOf d thr dir /\
  PFlow f ∈ finalProc d thr dir.
Proof.
  intros Hf.
  destruct (ri_created _ _ _ (runInv_final d thr dir) f Hf) as (Hs & Ht & _ & Hin & _).
  rewrite elem_of_maskedOf in Hs, Ht. done.
Qed.

(** C3. In one masking run no synthesized bypass flow joins a node to
    itself, no two synthesized flows share their ordered pair of source and
    target (so none repeats a flow synthesized earlier in the run), and none
    joins a pair that a flow of the document joined before the run. *)
Theorem bypass_no_self_loop_no_duplicate (d : Doc) (thr : float) (dir : string) :
  (forall f, f ∈ bypassFlows d thr dir -> f_src f <> f_tgt f) /\
  NoDup (endpoints <$> bypassFlows d thr dir) /\
  (forall f, f ∈ bypassFlows d thr dir -> ~ hasFlow (d_process d) (f_src f) (f_tgt f)).
Proof.
  pose proof (runInv_final d thr dir) as Hinv.
  split_and!.
  - intros f Hf. by destruct (ri_created _ _ _ Hinv f Hf) as (_ & _ & ? & _).
  - exact (ri_nodup _ _ _ Hinv).
  - intros f Hf. by destruct (ri_created _ _ _ Hinv f Hf) as (_ & _ & _ & _ & _ & ?).
Qed.

(** C4. The run is the synthesis pass over the whole masked set followed
    by the removals: its log of DOM mutations is the creations of the
    synthesis pass followed by removals only, so nothing is detached before
    the last bypass flow has been appended. *)
Theorem synthesis_precedes_removal (d : Doc) (thr : float) (dir : string) :
  maskRun d thr dir = excisePhase d thr dir (synthPhase d thr dir) /\
  exists removals,
    runLog d thr dir = log (ms_dom (synthPhase d thr dir)) ++ removals /\
    forallb isCreation (log (ms_dom (synthPhase d thr dir))) = true /\
    forallb isRemoval removals = true.
Proof.
  split; [apply maskRun_two_phase|].
  unfold runLog. rewrite maskRun_two_phase.
  destruct (excisePhase_excised d thr dir (synthPhase d thr dir)) as (Hsh & _).
  destruct (sh_log _ _ _ Hsh) as (l & Hl & Hrem).
  exists l. split_and!; [done| |done].
  unfold synthPhase. rewrite synthAll_pairs. by apply synthPairs_log.
Qed.

(** ** Reachability across masked nodes *)

Lemma append_cons c u x : String c u +:+ x = String c (u +:+ x).
Proof. reflexivity. Qed.

Lemma append_nil x : "" +:+ x = x.
Proof. reflexivity. Qed.

Lemma hasArrow_app u v : hasArrow (u +:+ "→" +:+ v) = true.
Proof.
  induction u as [|c u IH].
  - rewrite append_nil. by destruct v.
  - rewrite append_cons. cbn [hasArrow]. rewrite IH. apply orb_true_r.
Qed.

Lemma hasArrow_cons c u : hasArrow (String c u) = false -> hasArrow u = false.
Proof. cbn [hasArrow]. by intros [_ ?]%orb_false_iff. Qed.

(** The key of a pair of arrow-free ids determines the pair. *)
Lemma pairKey_inj a b s t :
  hasArrow a = false -> hasArrow b = false ->
  pairKey s t = pairKey a b -> s = a /\ t = b.
Proof.
  unfold pairKey. revert s. induction a as [|ca a IH]; intros s Ha Hb.
  - rewrite append_nil. destruct s as [|c1 [|c2 [|c3 s]]];
      rewrite ?append_cons, ?append_nil; intros E; try by inversion E.
    inversion E as [[E1 E2 E3 E4]].
    assert (hasArrow b = true) by (rewrite <- E4; exact (hasArrow_app s t)).
    congruence.
  - destruct s as [|cs s]; rewrite ?append_cons, ?append_nil.
    + destruct a as [|c2 [|c3 a]]; rewrite ?append_cons, ?append_nil;
        intros E; try by inversion E.
      inversion E as [[E1 E2 E3 E4]]. subst. by destruct a.
    + intros E. inversion E as [[E1 E2]]. subst.
      destruct (IH s (hasArrow_cons _ _ Ha) Hb E2) as [-> ->]. done.
Qed.

(** Without the condition two pairs can share a key; [docArrow] below
    shows what the run makes of it. *)
Example pairKey_collision : pairKey "a→b" "c" = pairKey "a" "b→c".
Proof. reflexivity. Qed.

Lemma maskedRun_masked flows M c b : maskedRun flows M c b -> c ∈ M.
Proof. by destruct 1. Qed.

Lemma maskedRun_boundary flows (M : list string) m c b :
  maskedRun flows M c b ->
  interior flows f_src f_tgt (list_to_set M) m c ->
  b ∉ M -> boundary flows f_src f_tgt (list_to_set M) m b.
Proof.
  intros Hrun. revert m. induction Hrun as [c f Hf Hs Hc|c f b Hf Hs Hc Hrun IH];
    intros m Hint Hb.
  - exists c, f. split_and!; [done..|]. by rewrite elem_of_list_to_set.
  - apply IH; [|done]. apply (interior_step _ _ _ _ _ c f); [done..|].
    apply elem_of_list_to_set. by eapply maskedRun_masked.
Qed.

Lemma count_joins_le (l : list Flow) a b :
  NoDup (endpoints <$> l) -> length (List.filter (joins a b) l) <= 1.
Proof.
  induction l as [|f l IH]; [cbn; lia|].
  rewrite fmap_cons. intros [Hnin Hnd]%NoDup_cons. cbn [List.filter].
  destruct (joins a b f) eqn:Hj; [|by apply IH].
  cbn [length]. enough (List.filter (joins a b) l = []) as -> by (cbn; lia).
  destruct (List.filter (joins a b) l) as [|g r] eqn:E; [done|]. exfalso.
  assert (Hg : In g (List.filter (joins a b) l)) by (rewrite E; left; done).
  apply filter_In in Hg as [Hg Hjg]. apply Hnin.
  apply list_elem_of_fmap. exists g. split; [|by apply list_elem_of_In].
  unfold joins, endpoints in *.
  apply andb_true_iff in Hj as [->%String.eqb_eq ->%String.eqb_eq].
  apply andb_true_iff in Hjg as [->%String.eqb_eq ->%String.eqb_eq]. done.
Qed.

Lemma count_joins_ge (l : list Flow) a b f :
  f ∈ l -> f_src f = a -> f_tgt f = b -> 1 <= length (List.filter (joins a b) l).
Proof.
  intros Hf Hs Ht.
  assert (Hin : In f (List.filter (joins a b) l)).
  { apply filter_In. split; [by apply list_elem_of_In|].
    unfold joins. by rewrite Hs, Ht, !String.eqb_refl. }
  destruct (List.filter _ _); [done|cbn; lia].
Qed.

Lemma path_candidate (d : Doc) (thr : float) (dir : string) (a b : string) :
  a ∉ maskedOf d thr dir -> b ∉ maskedOf d thr dir ->
  pathThroughMasked (d_process d) (maskedOf d thr dir) a b ->
  (a, b) ∈ allPairs (indexFlows f_src (selectFlows (d_process d)))
                    (indexFlows f_tgt (selectFlows (d_process d)))
                    (maskedOf d thr dir).
Proof.
  intros Ha Hb (f0 & Hf0 & Hsrc & Hrun).
  set (flows := selectFlows (d_process d)) in *.
  set (M := maskedOf d thr dir) in *.
  pose proof (maskedRun_masked _ _ _ _ Hrun) as Hc.
  unfold allPairs. apply list_elem_of_bind. exists (f_tgt f0). split; [|done].
  unfold pairsOf. apply list_elem_of_bind. exists a.
  destruct (collect_found flows (list_to_set M) (f_tgt f0)) as (Hpre & Hsuc).
  split.
  - apply list_elem_of_fmap. exists b. split; [done|]. apply Hsuc.
    apply (maskedRun_boundary _ _ _ (f_tgt f0)); [done|constructor|done].
  - apply Hpre. exists (f_tgt f0), f0. split_and!; [constructor| |done|done|].
    + by apply elem_of_selectFlows.
    + by rewrite elem_of_list_to_set.
Qed.

(** Where the pair key tells the pairs apart, the run bridges every path
    through masked nodes.  Let [a] and [b] be two distinct unmasked nodes
    whose ids do not contain the separator of the pair key, joined in the
    document by a path whose intermediate nodes (at least one) are all
    masked.  After the masking run the process holds a flow from [a] to
    [b]; and the run synthesized exactly one bypass flow for the pair,
    however many such paths there are, unless a flow from [a] to [b] was
    already there, in which case it synthesized none. *)
Theorem bypass_preserves_reachability (d : Doc) (thr : float) (dir : string)
    (a b : string) :
  a ∉ maskedOf d thr dir -> b ∉ maskedOf d thr dir -> a <> b ->
  hasArrow a = false -> hasArrow b = false ->
  pathThroughMasked (d_process d) (maskedOf d thr dir) a b ->
  hasFlow (finalProc d thr dir) a b /\
  length (List.filter (joins a b) (bypassFlows d thr dir))
  = if is_Some_b (existingFlow (d_process d) a b) then 0 else 1.
Proof.
  intros Ha Hb Hne Haa Hab Hpath.
  pose proof (path_candidate d thr dir a b Ha Hb Hpath) as Hcand.
  pose proof (runInv_final d thr dir) as Hfin.
  pose proof (runInv_synthPhase d thr dir) as Hsyn.
  pose proof (excisePhase_excised d thr dir (synthPhase d thr dir)) as Hex.
  rewrite <- maskRun_two_phase in Hex.
  pose proof Hex as (Hsh & _).
  pose proof (shrinksTo_created _ _ _ Hsh) as Hcr.
  fold (runLog d thr dir) in Hcr. fold (bypassFlows d thr dir) in Hcr.
  rewrite <- elem_of_maskedOf in Ha, Hb.
  (* after the synthesis pass the pair is covered *)
  assert (Hcov : covered (synthPhase d thr dir) a b).
  { apply (idle_synthAll _ _ (initMask d) (a, b) Hcand). }
  (* so a flow joins it: an original one or a synthesized one *)
  assert (Hflow : hasFlow (d_process d) a b \/
                  exists f, f ∈ bypassFlows d thr dir /\ f_src f = a /\ f_tgt f = b).
  { destruct Hcov as [?|[Hk|(e & He & Hes & Het)]]; [done| |].
    - right. destruct (ri_pairs _ _ _ Hsyn _ Hk) as (f & Hf & Hkf).
      apply pairKey_inj in Hkf as [? ?]; [|done..].
      exists f. by rewrite Hcr.
    - destruct (ri_source _ _ _ Hsyn _ He) as [Ho|(f & Hef & Hf)].
      + left. by exists e.
      + right. inversion Hef; subst. exists f. by rewrite Hcr. }
  split.
  - destruct Hflow as [(e & He & Hes & Het)|(f & Hf & Hfs & Hft)].
    + exists e. split; [|done]. apply (ri_orig _ _ _ Hfin); [|done].
      exists e. by rewrite Hes, Het.
    + exists f. split; [|done].
      by destruct (ri_created _ _ _ Hfin f Hf) as (_ & _ & _ & ? & _).
  - destruct (is_Some_b _) eqn:Hexi.
    + apply existingFlow_hasFlow in Hexi.
      destruct (List.filter _ _) as [|g r] eqn:E; [done|]. exfalso.
      assert (Hg : In g (List.filter (joins a b) (bypassFlows d thr dir)))
        by (rewrite E; left; done).
      apply filter_In in Hg as [Hg Hj]. apply list_elem_of_In in Hg.
      apply andb_true_iff in Hj as [Hs%String.eqb_eq Ht%String.eqb_eq].
      destruct (ri_created _ _ _ Hfin g Hg) as (_ & _ & _ & _ & _ & Hno).
      apply Hno. by rewrite Hs, Ht.
    + destruct Hflow as [Ho|(f & Hf & Hfs & Hft)].
      { apply existingFlow_hasFlow in Ho. congruence. }
      pose proof (count_joins_le (bypassFlows d thr dir) a b (ri_nodup _ _ _ Hfin)).
      pose proof (count_joins_ge _ a b f Hf Hfs Hft). lia.
Qed.

(** ** The masked set *)

Lemma elem_of_maskedIdsOf dir thr tasks i :
  i ∈ maskedIdsOf dir thr tasks <->
  exists t, t ∈ tasks /\ t_id t = i /\ shouldMask dir thr (t_privacy t) = true.
Proof.
  unfold maskedIdsOf. rewrite list_elem_of_fmap. split.
  - intros (t & -> & Ht%list_elem_of_In%filter_In). exists t.
    rewrite list_elem_of_In. tauto.
  - intros (t & Ht & <- & Hm). exists t. split; [done|].
    apply list_elem_of_In, filter_In. by rewrite <- list_elem_of_In.
Qed.

Lemma shouldMask_above thr p :
  shouldMask "above" thr p = true <->
  PrimFloat.is_finite p = true /\ PrimFloat.leb thr p = true.
Proof.
  unfold shouldMask. cbn [String.eqb Ascii.eqb Bool.eqb].
  destruct (PrimFloat.is_finite p); [tauto|]. split; [done|]. by intros [? _].
Qed.

Lemma shouldMask_below thr p :
  shouldMask "below" thr p = true <->
  PrimFloat.is_finite p = true /\ PrimFloat.ltb p thr = true.
Proof.
  unfold shouldMask. cbn [String.eqb Ascii.eqb Bool.eqb].
  destruct (PrimFloat.is_finite p); [tauto|]. split; [done|]. by intros [? _].
Qed.

(** C8, as the code has it.  With direction "above" an id is masked
    exactly when a task carries it whose privacy is a finite number [p]
    with [p >= threshold]; with direction "below", one with
    [p < threshold]; a task without a numeric privacy never qualifies.
    When the masked set is empty the run reports zero, performs no DOM
    mutation on the process or the plane, and leaves the process children
    and an existing plane as they were; a document without a plane comes
    out with the empty plane [ensurePlane] created. *)
Theorem masked_set_and_empty_run (d : Doc) (thr : float) (dir : string) :
  (forall i, i ∈ maskedOf d thr "above" <->
     exists t, t ∈ getTaskList (d_process d) /\ t_id t = i /\
               PrimFloat.is_finite (t_privacy t) = true /\
               PrimFloat.leb thr (t_privacy t) = true) /\
  (forall i, i ∈ maskedOf d thr "below" <->
     exists t, t ∈ getTaskList (d_process d) /\ t_id t = i /\
               PrimFloat.is_finite (t_privacy t) = true /\
               PrimFloat.ltb (t_privacy t) thr = true) /\
  (forall t, t ∈ getTaskList (d_process d) ->
     PrimFloat.is_finite (t_privacy t) = false ->
     shouldMask dir thr (t_privacy t) = false) /\
  (maskedOf d thr dir = [] ->
     maskByPrivacy d thr dir
     = ({| d_process := d_process d; d_plane := Some (ensurePlane d) |}, 0) /\
     runLog d thr dir = []).
Proof.
  split_and!.
  - intros i. unfold maskedOf. rewrite elem_of_maskedIdsOf.
    by setoid_rewrite shouldMask_above.
  - intros i. unfold maskedOf. rewrite elem_of_maskedIdsOf.
    by setoid_rewrite shouldMask_below.
  - intros t _ Hp. unfold shouldMask. by rewrite Hp.
  - unfold maskedOf, runLog, maskByPrivacy, maskRun. by intros ->.
Qed.

Definition docWithoutPlane : Doc :=
  {| d_process := [PTask (mkTask "A" nan)]; d_plane := None |}.

(** C8 fails as stated: on a document without a plane and with nothing to
    mask, the run does change the document. *)
Lemma empty_run_creates_plane :
  maskedOf docWithoutPlane 0.5%float "above" = [] /\
  (maskByPrivacy docWithoutPlane 0.5%float "above").1 <> docWithoutPlane.
Proof. split; [reflexivity|]. vm_compute. discriminate. Qed.

(** ** What the removals leave behind *)

Lemma remove_first_none {A} (p : A -> bool) (l : list A) :
  (forall x, In x l -> p x = false) -> remove_first p l = l.
Proof.
  induction l as [|y l IH]; intros H; cbn [remove_first]; [done|].
  rewrite (H y) by (by left). f_equal. apply IH. intros. apply H. by right.
Qed.

Lemma detach_proc p s : proc (detach p s) = remove_first p (proc s).
Proof.
  unfold detach. destruct (List.find p (proc s)) eqn:E; [done|].
  symmetry. apply remove_first_none. intros x Hx. by apply (find_none _ _ E).
Qed.

Lemma detach_plane p s : plane (detach p s) = plane s.
Proof. unfold detach. by destruct (List.find p (proc s)). Qed.

Lemma detachLast_proc p s : proc (detachLast p s) = remove_last p (proc s).
Proof.
  unfold detachLast, remove_last. destruct (List.find p (rev (proc s))) eqn:E; [done|].
  rewrite remove_first_none, rev_involutive; [done|].
  intros x Hx. by apply (find_none _ _ E).
Qed.

Lemma omap_cons' {A B} (sel : A -> option B) (y : A) (l : list A) :
  omap sel (y :: l) = match sel y with Some b => b :: omap sel l | None => omap sel l end.
Proof. reflexivity. Qed.

Lemma omap_remove_first_other {A B} (sel : A -> option B) (p : A -> bool) (l : list A) :
  (forall x, p x = true -> sel x = None) ->
  omap sel (remove_first p l) = omap sel l.
Proof.
  intros H. induction l as [|y l IH]; cbn [remove_first]; [done|].
  destruct (p y) eqn:E; rewrite !omap_cons'.
  - by rewrite (H y E).
  - by rewrite IH.
Qed.

Lemma omap_remove_first_same {A B} (sel : A -> option B) (p : A -> bool)
    (q : B -> bool) (l : list A) :
  (forall x, match sel x with Some b => p x = q b | None => p x = false end) ->
  omap sel (remove_first p l) = remove_first q (omap sel l).
Proof.
  intros H. induction l as [|y l IH]; cbn [remove_first]; [done|].
  specialize (H y). rewrite omap_cons'.
  destruct (sel y) as [b|] eqn:Es.
  - cbn [remove_first]. rewrite <- H. destruct (p y); [reflexivity|].
    by rewrite omap_cons', Es, IH.
  - by rewrite H, omap_cons', Es, IH.
Qed.

Lemma omap_rev {A B} (sel : A -> option B) (l : list A) :
  omap sel (rev l) = rev (omap sel l).
Proof.
  induction l as [|y l IH]; [done|]. cbn [rev]. rewrite omap_app, IH, !omap_cons'.
  destruct (sel y); cbn [rev]; [done|]. by rewrite app_nil_r.
Qed.

Lemma omap_remove_last_other {A B} (sel : A -> option B) (p : A -> bool) (l : list A) :
  (forall x, p x = true -> sel x = None) ->
  omap sel (remove_last p l) = omap sel l.
Proof.
  intros H. unfold remove_last.
  by rewrite omap_rev, omap_remove_first_other, omap_rev, rev_involutive.
Qed.

Definition flow_eqb (f g : Flow) : bool :=
  String.eqb (f_id g) (f_id f) && String.eqb (f_src g) (f_src f)
  && String.eqb (f_tgt g) (f_tgt f).

Lemma selectFlows_detach_flow f s :
  selectFlows (proc (detach (isFlowNode f) s))
  = remove_first (flow_eqb f) (selectFlows (proc s)).
Proof.
  rewrite detach_proc. apply omap_remove_first_same. by intros [].
Qed.

Lemma selectAssocs_detach_assoc a s :
  selectAssocs (proc (detach (isAssocNode a) s))
  = remove_first (assoc_eqb a) (selectAssocs (proc s)).
Proof.
  rewrite detach_proc. apply omap_remove_first_same. by intros [].
Qed.

Lemma maybeRemove_selectAssocs ta s :
  selectAssocs (proc (maybeRemoveTextAnnotationIfOrphaned ta s)) = selectAssocs (proc s).
Proof.
  unfold maybeRemoveTextAnnotationIfOrphaned. destruct (Nat.ltb _ _); [done|].
  cbn [removeDIShapeForElement removeDI proc]. rewrite detach_proc.
  apply omap_remove_first_other. by intros [].
Qed.

Lemma maybeRemove_selectFlows ta s :
  selectFlows (proc (maybeRemoveTextAnnotationIfOrphaned ta s)) = selectFlows (proc s).
Proof.
  unfold maybeRemoveTextAnnotationIfOrphaned. destruct (Nat.ltb _ _); [done|].
  cbn [removeDIShapeForElement removeDI proc]. rewrite detach_proc.
  apply omap_remove_first_other. by intros [].
Qed.

Lemma cascade_selectAssocs a s :
  selectAssocs (proc (removeAssociationCascade a s))
  = remove_first (assoc_eqb a) (selectAssocs (proc s)).
Proof.
  unfold removeAssociationCascade.
  set (s2 := detach (isAssocNode a) _).
  assert (H2 : selectAssocs (proc s2) = remove_first (assoc_eqb a) (selectAssocs (proc s))).
  { unfold s2. by rewrite selectAssocs_detach_assoc. }
  destruct (existsb _ _), (existsb _ _); by rewrite ?maybeRemove_selectAssocs.
Qed.

Lemma cascade_selectFlows a s :
  selectFlows (proc (removeAssociationCascade a s)) = selectFlows (proc s).
Proof.
  unfold removeAssociationCascade.
  set (s2 := detach (isAssocNode a) _).
  assert (H2 : selectFlows (proc s2) = selectFlows (proc s)).
  { unfold s2. rewrite detach_proc. cbn [removeDIEdgeForElement removeDI proc].
    apply omap_remove_first_other. by intros []. }
  destruct (existsb _ _), (existsb _ _); by rewrite ?maybeRemove_selectFlows.
Qed.

Lemma removeAll_selectFlows elId s :
  selectFlows (proc (removeAllAssociationsTouchingId elId s)) = selectFlows (proc s).
Proof.
  unfold removeAllAssociationsTouchingId.
  generalize (List.filter (touches elId) (selectAssocs (proc s))) as T.
  intros T. revert s. induction T as [|a T IH]; intros s; cbn [foldl]; [done|].
  by rewrite IH, cascade_selectFlows.
Qed.

Lemma foldl_remove_first_skip {A} (eqb : A -> A -> bool) (T L : list A) x :
  (forall a, In a T -> eqb a x = false) ->
  foldl (fun L a => remove_first (eqb a) L) (x :: L) T
  = x :: foldl (fun L a => remove_first (eqb a) L) L T.
Proof.
  revert L. induction T as [|a T IH]; intros L H; cbn [foldl]; [done|].
  cbn [remove_first]. rewrite (H a) by (by left). apply IH. intros. apply H. by right.
Qed.

(** Removing, one after the other, the first copy of every element that
    satisfies [q] removes them all. *)
Lemma foldl_remove_first_filter {A} (eqb : A -> A -> bool) (q : A -> bool) (L : list A) :
  (forall a, eqb a a = true) ->
  (forall a b, eqb a b = true -> q a = q b) ->
  foldl (fun L a => remove_first (eqb a) L) L (List.filter q L)
  = List.filter (fun a => negb (q a)) L.
Proof.
  intros Hrefl Hq. induction L as [|x L IH]; [done|].
  cbn [List.filter]. destruct (q x) eqn:Ex; cbn [negb foldl remove_first].
  - by rewrite Hrefl.
  - rewrite foldl_remove_first_skip; [by rewrite IH|].
    intros a [_ Ha]%filter_In. destruct (eqb a x) eqn:E; [|done].
    apply Hq in E. congruence.
Qed.

Lemma assoc_eqb_eq a b : assoc_eqb a b = true -> a = b.
Proof.
  unfold assoc_eqb. destruct a, b. cbn.
  intros [[?%String.eqb_eq ?%String.eqb_eq]%andb_true_iff ?%String.eqb_eq]%andb_true_iff.
  by subst.
Qed.

Lemma removeAll_selectAssocs elId s :
  selectAssocs (proc (removeAllAssociationsTouchingId elId s))
  = List.filter (fun a => negb (touches elId a)) (selectAssocs (proc s)).
Proof.
  unfold removeAllAssociationsTouchingId.
  rewrite <- (foldl_remove_first_filter assoc_eqb (touches elId)).
  - generalize (List.filter (touches elId) (selectAssocs (proc s))) as T.
    intros T. revert s. induction T as [|a T IH]; intros s; cbn [foldl]; [done|].
    by rewrite IH, cascade_selectAssocs.
  - intros a. unfold assoc_eqb. by rewrite !String.eqb_refl.
  - by intros a b ->%assoc_eqb_eq.
Qed.

Lemma removeAll_clears elId s a :
  PAssoc a ∈ proc (removeAllAssociationsTouchingId elId s) -> touches elId a = false.
Proof.
  intros Ha%elem_of_selectAssocs. rewrite removeAll_selectAssocs in Ha.
  apply list_elem_of_In, filter_In in Ha as [_ Ha]. by apply negb_true_iff.
Qed.

Lemma NoDup_filter_remove_first {A} (p q : A -> bool) (l : list A) :
  NoDup (List.filter q l) -> NoDup (List.filter q (remove_first p l)).
Proof.
  induction l as [|y l IH]; cbn [remove_first List.filter]; [done|].
  destruct (p y).
  - destruct (q y); [by intros [_ ?]%NoDup_cons|done].
  - cbn [List.filter]. destruct (q y); [|done].
    intros [Hy Hl]%NoDup_cons. apply NoDup_cons. split; [|auto].
    intros Hin%list_elem_of_In%filter_In. apply Hy, list_elem_of_In, filter_In.
    split; [|tauto]. apply list_elem_of_In, (elem_of_remove_first p), list_elem_of_In. tauto.
Qed.

(** When the only elements matching [p] are copies of [x] and [x] occurs
    once, removing the first match removes [x]. *)
Lemma remove_first_gone {A} (p q : A -> bool) (l : list A) x :
  NoDup (List.filter q l) -> q x = true ->
  (forall y, y ∈ l -> p y = true -> y = x) ->
  p x = true -> x ∉ remove_first p l.
Proof.
  intros Hnd Hq Hp Hpx. induction l as [|y l IH]; cbn [remove_first]; [apply not_elem_of_nil|].
  destruct (p y) eqn:E.
  - rewrite (Hp y) in Hnd by (done || left). cbn [List.filter] in Hnd. rewrite Hq in Hnd.
    apply NoDup_cons in Hnd as [Hx _]. intros Hin. apply Hx, list_elem_of_In, filter_In.
    by rewrite <- list_elem_of_In.
  - intros [->|Hin]%elem_of_cons; [congruence|]. revert Hin. apply IH.
    + cbn [List.filter] in Hnd. destruct (q y); [by apply NoDup_cons in Hnd as [_ ?]|done].
    + intros z Hz. apply Hp. by right.
Qed.

Lemma NoDup_fmap_eq {A B} (g : A -> B) (l : list A) x y :
  NoDup (g <$> l) -> x ∈ l -> y ∈ l -> g x = g y -> x = y.
Proof.
  induction l as [|z l IH]; [by intros _ ?%elem_of_nil|].
  rewrite fmap_cons. intros [Hz Hl]%NoDup_cons.
  intros [->|Hx]%elem_of_cons [->|Hy]%elem_of_cons Hg; [done| | |by apply IH].
  - exfalso. apply Hz. rewrite Hg. by apply list_elem_of_fmap_2.
  - exfalso. apply Hz. rewrite <- Hg. by apply list_elem_of_fmap_2.
Qed.

(** ** The excise phase under well-identified flows *)

Section Excise.
Variable orig : list PNode.
Variable maskedIds : list string.
Variable byId : gmap string Task.

Let M : gset string := list_to_set maskedIds.
Let flows := selectFlows orig.
Let fbs := indexFlows f_src flows.
Let fbt := indexFlows f_tgt flows.

Definition touchesMasked (f : Flow) : bool :=
  bool_decide (f_src f ∈ maskedIds) || bool_decide (f_tgt f ∈ maskedIds).

(** The flows of the document with a masked end. *)
Definition touching : list Flow := List.filter touchesMasked flows.

(** [st'] has no more flows, associations and plane children than [st],
    and no fewer removed flow ids. *)
Record later (st st' : MaskSt) : Prop := {
  lt_flows : forall g, g ∈ selectFlows (proc (ms_dom st')) ->
             g ∈ selectFlows (proc (ms_dom st));
  lt_proc : forall x, x ∈ proc (ms_dom st') -> x ∈ proc (ms_dom st);
  lt_plane : forall y, y ∈ plane (ms_dom st') -> y ∈ plane (ms_dom st);
  lt_removed : forall i, i ∈ ms_removedFlowIds st -> i ∈ ms_removedFlowIds st'
}.

Lemma later_refl st : later st st.
Proof. by split. Qed.

Lemma later_trans st1 st2 st3 : later st1 st2 -> later st2 st3 -> later st1 st3.
Proof.
  intros H1 H2. split.
  - intros g Hg. apply (lt_flows _ _ H1), (lt_flows _ _ H2), Hg.
  - intros g Hg. apply (lt_proc _ _ H1), (lt_proc _ _ H2), Hg.
  - intros g Hg. apply (lt_plane _ _ H1), (lt_plane _ _ H2), Hg.
  - intros g Hg. apply (lt_removed _ _ H2), (lt_removed _ _ H1), Hg.
Qed.

Lemma later_of_shrinks K st st' :
  shrinksTo K (ms_dom st) (ms_dom st') ->
  (forall i, i ∈ ms_removedFlowIds st -> i ∈ ms_removedFlowIds st') ->
  later st st'.
Proof.
  intros Hsh Hr. split; [|exact (sh_proc _ _ _ Hsh)|exact (sh_plane _ _ _ Hsh)|done].
  intros g Hg%elem_of_selectFlows. apply elem_of_selectFlows. by apply (sh_proc _ _ _ Hsh).
Qed.

Lemma touching_spec f : f ∈ touching <-> f ∈ flows /\ touchesMasked f = true.
Proof. unfold touching. by rewrite list_elem_of_In, filter_In, <- list_elem_of_In. Qed.

Lemma removeFlow_shrinks0 st f :
  shrinksTo (fun _ => False) (ms_dom st) (ms_dom (removeFlow st f)).
Proof.
  unfold removeFlow. destruct (_ || _); [apply shrinksTo_refl|]. cbn [ms_dom].
  eapply shrinksTo_trans; [by apply removeAll_shrinks|].
  eapply shrinksTo_trans; [apply removeDI_shrinks|]. by apply detach_shrinks.
Qed.

Lemma removeFlow_later st f : later st (removeFlow st f).
Proof.
  eapply later_of_shrinks; [apply removeFlow_shrinks0|].
  intros i Hi. unfold removeFlow. destruct (_ || _); [done|].
  cbn [ms_removedFlowIds]. set_solver.
Qed.

Lemma flow_eqb_spec f g :
  flow_eqb f g = true <-> f_id g = f_id f /\ f_src g = f_src f /\ f_tgt g = f_tgt f.
Proof.
  unfold flow_eqb. rewrite !andb_true_iff, !String.eqb_eq. tauto.
Qed.

(** No association and no shape refers to [mid] any more. *)
Definition cleared (st : MaskSt) (mid : string) : Prop :=
  (forall a, PAssoc a ∈ proc (ms_dom st) -> touches mid a = false) /\
  (forall y, y ∈ plane (ms_dom st) -> isShapeFor mid y = false).

(** No flow starts or ends at [mid] any more, and the ids of the flows
    of the document that did are recorded as removed. *)
Definition cut (st : MaskSt) (mid : string) : Prop :=
  (forall g, g ∈ selectFlows (proc (ms_dom st)) -> f_src g <> mid /\ f_tgt g <> mid) /\
  (forall f, f ∈ flows -> f_src f = mid \/ f_tgt f = mid ->
             f_id f ∈ ms_removedFlowIds st).

Lemma cleared_later st st' mid : later st st' -> cleared st mid -> cleared st' mid.
Proof.
  intros Hl [Ha Hy]. split.
  - intros a Hin. apply Ha. by apply (lt_proc _ _ Hl).
  - intros y Hin. apply Hy. by apply (lt_plane _ _ Hl).
Qed.

Lemma cut_later st st' mid : later st st' -> cut st mid -> cut st' mid.
Proof.
  intros Hl [Hg Hf]. split.
  - intros g Hin. apply Hg. by apply (lt_flows _ _ Hl).
  - intros f Hin Hm. apply (lt_removed _ _ Hl). by apply Hf.
Qed.

(** The part of [exciseNode] after the flows, as a function of the DOM. *)
Definition exciseRest (det : gset string) (mid : string) (d : Dom) : Dom :=
  let d2 := removeAllAssociationsTouchingId mid d in
  let d3 := match byId !! mid with
            | Some _ => if bool_decide (mid ∈ det) then d2
                        else detachLast (isTaskWithId mid) d2
            | None => d2
            end in
  removeDIShapeForElement mid d3.

Lemma exciseRest_shrinks det mid d :
  shrinksTo (fun _ => False) d (exciseRest det mid d).
Proof.
  unfold exciseRest.
  eapply shrinksTo_trans; [by apply removeAll_shrinks|].
  eapply shrinksTo_trans; [|apply removeDI_shrinks].
  destruct (byId !! mid); [|apply shrinksTo_refl].
  case_bool_decide; [apply shrinksTo_refl|]. by apply detachLast_shrinks.
Qed.

Lemma exciseRest_selectFlows det mid d :
  selectFlows (proc (exciseRest det mid d)) = selectFlows (proc d).
Proof.
  unfold exciseRest. cbn [removeDIShapeForElement removeDI proc].
  destruct (byId !! mid); [|apply removeAll_selectFlows].
  case_bool_decide; [apply removeAll_selectFlows|].
  rewrite detachLast_proc. unfold selectFlows at 1.
  rewrite omap_remove_last_other by (by intros []). apply removeAll_selectFlows.
Qed.

Lemma exciseRest_clears det mid d :
  (forall a, PAssoc a ∈ proc (exciseRest det mid d) -> touches mid a = false) /\
  (forall y, y ∈ plane (exciseRest det mid d) -> isShapeFor mid y = false).
Proof.
  unfold exciseRest. split.
  - cbn [removeDIShapeForElement removeDI proc]. intros a Ha.
    apply (removeAll_clears mid d).
    destruct (byId !! mid); [|done]. case_bool_decide; [done|].
    rewrite detachLast_proc in Ha. by apply elem_of_remove_last in Ha.
  - cbn [removeDIShapeForElement removeDI plane].
    intros y [_ Hy]%list_elem_of_In%filter_In. by apply negb_true_iff.
Qed.

Lemma exciseNode_unfold st mid :
  exciseNode byId fbs fbt st mid
  = let st1 := foldl removeFlow st (default [] (fbt !! mid) ++ default [] (fbs !! mid)) in
    {| ms_dom := exciseRest (ms_detached st1) mid (ms_dom st1);
       ms_counter := ms_counter st1;
       ms_removedFlowIds := ms_removedFlowIds st1;
       ms_autoFlowPairs := ms_autoFlowPairs st1;
       ms_detached := {[mid]} ∪ ms_detached st1 |}.
Proof. reflexivity. Qed.

Lemma removeFlows_later (T : list Flow) st : later st (foldl removeFlow st T).
Proof.
  revert st. induction T as [|f T IH]; intros st; cbn [foldl]; [apply later_refl|].
  eapply later_trans; [apply removeFlow_later|apply IH].
Qed.

Lemma exciseNode_later st mid : later st (exciseNode byId fbs fbt st mid).
Proof.
  rewrite exciseNode_unfold. cbv zeta.
  eapply later_trans; [apply removeFlows_later|].
  eapply later_of_shrinks; [apply exciseRest_shrinks|done].
Qed.

Lemma exciseNode_cleared st mid : cleared (exciseNode byId fbs fbt st mid) mid.
Proof. rewrite exciseNode_unfold. apply exciseRest_clears. Qed.

Lemma touchesMasked_at f mid :
  mid ∈ maskedIds -> f_src f = mid \/ f_tgt f = mid -> touchesMasked f = true.
Proof.
  intros Hmid Hm. unfold touchesMasked. apply orb_true_iff.
  destruct Hm as [E|E]; [left|right]; apply bool_decide_eq_true_2; by rewrite E.
Qed.

Lemma excise_all_later (mids : list string) st :
  later st (foldl (exciseNode byId fbs fbt) st mids).
Proof.
  revert st. induction mids as [|m1 mids IH]; intros st; cbn [foldl]; [apply later_refl|].
  eapply later_trans; [apply exciseNode_later|apply IH].
Qed.

Lemma excise_all_cleared (mids : list string) st mid :
  mid ∈ mids -> cleared (foldl (exciseNode byId fbs fbt) st mids) mid.
Proof.
  revert st. induction mids as [|m0 mids IH]; intros st; [by intros ?%elem_of_nil|].
  cbn [foldl]. intros [->|Hin]%elem_of_cons; [|by apply IH].
  eapply cleared_later; [apply excise_all_later|apply exciseNode_cleared].
Qed.

(** Each of them has an id, and no two share one. *)
Hypothesis ids_unique : NoDup (f_id <$> touching).
Hypothesis ids_present : forall f, f ∈ touching -> f_id f <> "".

Record exInv (st : MaskSt) : Prop := {
  ex_in : forall g, g ∈ selectFlows (proc (ms_dom st)) -> touchesMasked g = true ->
          g ∈ touching;
  ex_nodup : NoDup (List.filter touchesMasked (selectFlows (proc (ms_dom st))));
  ex_ids : forall g, g ∈ selectFlows (proc (ms_dom st)) -> touchesMasked g = true ->
           f_id g ∉ ms_removedFlowIds st;
  ex_clean : forall i, i ∈ ms_removedFlowIds st ->
           (forall a, PAssoc a ∈ proc (ms_dom st) -> touches i a = false) /\
           (forall y, y ∈ plane (ms_dom st) -> isEdgeFor i y = false)
}.

Lemma removeFlow_selectFlows st f :
  f_id f <> "" -> f_id f ∉ ms_removedFlowIds st ->
  selectFlows (proc (ms_dom (removeFlow st f)))
  = remove_first (flow_eqb f) (selectFlows (proc (ms_dom st))).
Proof.
  intros Hid Hnr. unfold removeFlow.
  rewrite (proj2 (String.eqb_neq _ _) Hid), bool_decide_eq_false_2 by done.
  cbn [orb ms_dom]. rewrite selectFlows_detach_flow.
  cbn [removeDIEdgeForElement removeDI proc]. by rewrite removeAll_selectFlows.
Qed.

Lemma removeFlow_exInv st f :
  exInv st -> f ∈ touching ->
  exInv (removeFlow st f) /\
  f ∉ selectFlows (proc (ms_dom (removeFlow st f))) /\
  f_id f ∈ ms_removedFlowIds (removeFlow st f).
Proof.
  intros Hst Hf. pose proof (ids_present f Hf) as Hid.
  pose proof (proj1 (touching_spec f) Hf) as [Hfl Htm].
  destruct (decide (f_id f ∈ ms_removedFlowIds st)) as [Hr|Hr].
  { unfold removeFlow. rewrite (bool_decide_eq_true_2 _ Hr), orb_true_r.
    split_and!; [done| |done]. intros Hin. by apply (ex_ids _ Hst f Hin Htm). }
  pose proof (removeFlow_selectFlows st f Hid Hr) as Hsel.
  pose proof (removeFlow_later st f) as Hlat.
  assert (Hgone : f ∉ selectFlows (proc (ms_dom (removeFlow st f)))).
  { rewrite Hsel. apply (remove_first_gone _ touchesMasked);
      [exact (ex_nodup _ Hst)|done| |by apply flow_eqb_spec].
    intros y Hy (Ei & Es & Et)%flow_eqb_spec.
    assert (Hty : touchesMasked y = true).
    { unfold touchesMasked in *. by rewrite Es, Et. }
    apply (NoDup_fmap_eq f_id touching); [done|by apply (ex_in _ Hst)|done..]. }
  assert (Hrem : ms_removedFlowIds (removeFlow st f) = {[f_id f]} ∪ ms_removedFlowIds st).
  { unfold removeFlow.
    by rewrite (proj2 (String.eqb_neq _ _) Hid), bool_decide_eq_false_2 by done. }
  split_and!; [|done|rewrite Hrem; set_solver].
  split.
  - intros g Hg. apply (ex_in _ Hst). by apply (lt_flows _ _ Hlat).
  - rewrite Hsel. apply NoDup_filter_remove_first, (ex_nodup _ Hst).
  - intros g Hg Htg. rewrite Hrem.
    intros [Hgi%elem_of_singleton|Hgr]%elem_of_union.
    + assert (g = f) as ->; [|done].
      apply (NoDup_fmap_eq f_id touching); [done| |done..].
      apply (ex_in _ Hst); [|done]. by apply (lt_flows _ _ Hlat).
    + revert Hgr. apply (ex_ids _ Hst); [|done]. by apply (lt_flows _ _ Hlat).
  - intros i. rewrite Hrem. intros [->%elem_of_singleton|Hi]%elem_of_union.
    + unfold removeFlow.
      rewrite (proj2 (String.eqb_neq _ _) Hid), bool_decide_eq_false_2 by done.
      cbn [orb ms_dom]. split.
      * intros a. rewrite detach_proc. intros Ha%elem_of_remove_first.
        cbn [removeDIEdgeForElement removeDI proc] in Ha. by apply removeAll_clears in Ha.
      * intros y. rewrite detach_plane. cbn [removeDIEdgeForElement removeDI plane].
        intros [_ Hy]%list_elem_of_In%filter_In. by apply negb_true_iff.
    + destruct (ex_clean _ Hst i Hi) as [Ha Hy]. split.
      * intros a Hin. apply Ha. by apply (lt_proc _ _ Hlat).
      * intros y Hin. apply Hy. by apply (lt_plane _ _ Hlat).
Qed.

Lemma removeFlows_exInv (T : list Flow) st :
  exInv st -> (forall f, f ∈ T -> f ∈ touching) ->
  exInv (foldl removeFlow st T) /\ later st (foldl removeFlow st T) /\
  forall f, f ∈ T ->
    f ∉ selectFlows (proc (ms_dom (foldl removeFlow st T))) /\
    f_id f ∈ ms_removedFlowIds (foldl removeFlow st T).
Proof.
  revert st. induction T as [|f T IH]; intros st Hst HT; cbn [foldl].
  - split_and!; [done|apply later_refl|]. by intros f ?%elem_of_nil.
  - destruct (removeFlow_exInv st f Hst) as (H1 & Hg & Hr); [apply HT; left|].
    destruct (IH _ H1) as (H2 & Hl & HT'); [intros; apply HT; by right|].
    split_and!; [done|eapply later_trans; [apply removeFlow_later|done]|].
    intros g [->|Hin]%elem_of_cons; [|by apply HT'].
    split; [|by apply (lt_removed _ _ Hl)].
    intros Hin. apply Hg. by apply (lt_flows _ _ Hl).
Qed.

(** The steps of [exciseNode] after the flows: they leave flows and
    removed ids alone. *)
Lemma exInv_rest st d' :
  exInv st -> selectFlows (proc d') = selectFlows (proc (ms_dom st)) ->
  shrinksTo (fun _ => False) (ms_dom st) d' ->
  forall det, exInv {| ms_dom := d'; ms_counter := ms_counter st;
                       ms_removedFlowIds := ms_removedFlowIds st;
                       ms_autoFlowPairs := ms_autoFlowPairs st;
                       ms_detached := det |}.
Proof.
  intros Hst Hsel Hsh det. split; cbn [ms_dom ms_removedFlowIds]; rewrite ?Hsel.
  - apply (ex_in _ Hst).
  - apply (ex_nodup _ Hst).
  - apply (ex_ids _ Hst).
  - intros i Hi. destruct (ex_clean _ Hst i Hi) as [Ha Hy]. split.
    + intros a Hin. apply Ha. by apply (sh_proc _ _ _ Hsh).
    + intros y Hin. apply Hy. by apply (sh_plane _ _ _ Hsh).
Qed.

Lemma exciseNode_exInv st mid :
  exInv st -> mid ∈ maskedIds ->
  exInv (exciseNode byId fbs fbt st mid) /\ cut (exciseNode byId fbs fbt st mid) mid.
Proof.
  intros Hst Hmid. rewrite exciseNode_unfold. cbv zeta.
  set (T := default [] (fbt !! mid) ++ default [] (fbs !! mid)).
  assert (HT : forall f, f ∈ T <-> f ∈ flows /\ (f_src f = mid \/ f_tgt f = mid)).
  { intros f. unfold T, fbt, fbs. rewrite elem_of_app, !elem_of_indexFlows. tauto. }
  destruct (removeFlows_exInv T st Hst) as (H1 & Hl & Hgone).
  { intros f [Hf Hm]%HT. apply touching_spec. split; [done|].
    by apply touchesMasked_at with mid. }
  set (st1 := foldl removeFlow st T) in *.
  pose proof (exInv_rest st1 _ H1 (exciseRest_selectFlows (ms_detached st1) mid (ms_dom st1))
                (exciseRest_shrinks (ms_detached st1) mid (ms_dom st1))
                ({[mid]} ∪ ms_detached st1)) as H2.
  split; [exact H2|]. split; cbn [ms_dom ms_removedFlowIds].
  - rewrite exciseRest_selectFlows. intros g Hg.
    destruct (decide (f_src g = mid \/ f_tgt g = mid)) as [Hm|Hm]; [|tauto].
    exfalso. assert (Hgt : g ∈ touching).
    { apply (ex_in _ H1 g Hg). by apply touchesMasked_at with mid. }
    apply touching_spec in Hgt as [Hgf _].
    by destruct (Hgone g (proj2 (HT g) (conj Hgf Hm))) as [Hn _].
  - intros f Hf Hm. by destruct (Hgone f (proj2 (HT f) (conj Hf Hm))) as [_ ?].
Qed.

Lemma excise_all_exInv (mids : list string) st :
  exInv st -> (forall m0, m0 ∈ mids -> m0 ∈ maskedIds) ->
  exInv (foldl (exciseNode byId fbs fbt) st mids).
Proof.
  revert st. induction mids as [|m1 mids IH]; intros st Hst Hm; cbn [foldl]; [done|].
  apply IH; [|intros; apply Hm; by right].
  apply exciseNode_exInv; [done|]. apply Hm. left.
Qed.

Lemma excise_all_cut (mids : list string) st mid :
  exInv st -> (forall m0, m0 ∈ mids -> m0 ∈ maskedIds) -> mid ∈ mids ->
  cut (foldl (exciseNode byId fbs fbt) st mids) mid.
Proof.
  revert st. induction mids as [|m0 mids IH]; intros st Hst Hm; [by intros ?%elem_of_nil|].
  cbn [foldl]. destruct (exciseNode_exInv st m0 Hst) as [H1 Hc]; [apply Hm; left|].
  intros [->|Hin]%elem_of_cons.
  - eapply cut_later; [apply excise_all_later|done].
  - apply IH; [done|intros; apply Hm; by right|done].
Qed.

End Excise.

(** ** The synthesis phase only appends *)

Definition appended (orig : list PNode) (st : MaskSt) : Prop :=
  proc (ms_dom st) = orig ++ (PFlow <$> createdFlows (log (ms_dom st))) /\
  ms_removedFlowIds st = ∅.

Lemma appended_synthPairs orig (l : list (string * string)) st :
  appended orig st -> appended orig (foldl (fun st p => synthPair p.1 p.2 st) st l).
Proof.
  revert st. induction l as [|p l IH]; intros st Hst; cbn [foldl]; [done|].
  apply IH. destruct Hst as [Hpr Hrm].
  destruct (synthPair_cases p.1 p.2 st)
    as [[_ ->]|(_ & _ & _ & nf & ex & _ & _ & Hp & _ & Hl & Hex & _ & Hr & _)]; [done|].
  unfold appended. rewrite Hp, Hl, Hr. split; [|done]. rewrite createdFlows_app.
  change (createdFlows (EvAppend (PFlow nf) :: ex)) with (nf :: createdFlows ex).
  rewrite (createdFlows_edges ex Hex), fmap_app, Hpr, <- app_assoc. done.
Qed.

Lemma appended_synthPhase d thr dir : appended (d_process d) (synthPhase d thr dir).
Proof.
  unfold synthPhase. rewrite synthAll_pairs. apply appended_synthPairs.
  split; [|done]. cbn. by rewrite app_nil_r.
Qed.

Lemma selectFlows_app l1 l2 : selectFlows (l1 ++ l2) = selectFlows l1 ++ selectFlows l2.
Proof. apply omap_app. Qed.

Lemma selectFlows_PFlow (cr : list Flow) : selectFlows (PFlow <$> cr) = cr.
Proof. induction cr as [|f cr IH]; [done|]. cbn. f_equal. exact IH. Qed.

(** Every flow with a masked end carries an id, shared by no other. *)
Definition wellIdentified (d : Doc) (thr : float) (dir : string) : Prop :=
  NoDup (f_id <$> touching (d_process d) (maskedOf d thr dir)) /\
  forall f, f ∈ touching (d_process d) (maskedOf d thr dir) -> f_id f <> "".

Lemma exInv_synthPhase d thr dir :
  wellIdentified d thr dir ->
  exInv (d_process d) (maskedOf d thr dir) (synthPhase d thr dir).
Proof.
  intros [Hnd Hid].
  destruct (appended_synthPhase d thr dir) as [Hpr Hrm].
  pose proof (runInv_synthPhase d thr dir) as Hinv.
  set (cr := createdFlows (log (ms_dom (synthPhase d thr dir)))) in *.
  assert (Hsel : selectFlows (proc (ms_dom (synthPhase d thr dir)))
                 = selectFlows (d_process d) ++ cr).
  { by rewrite Hpr, selectFlows_app, selectFlows_PFlow. }
  assert (Hout : forall f, f ∈ cr -> touchesMasked (maskedOf d thr dir) f = false).
  { intros f Hf. destruct (ri_created _ _ _ Hinv f Hf) as (Hs & Ht & _).
    rewrite elem_of_list_to_set in Hs, Ht. unfold touchesMasked.
    by rewrite !bool_decide_eq_false_2. }
  split; rewrite ?Hsel, ?Hrm.
  - intros g [Hg|Hg]%elem_of_app Htm; [|by rewrite (Hout g Hg) in Htm].
    by apply touching_spec.
  - rewrite List.filter_app.
    assert (List.filter (touchesMasked (maskedOf d thr dir)) cr = []) as ->.
    { clear -Hout. induction cr as [|f cr IH]; [done|]. cbn [List.filter].
      rewrite (Hout f) by left. apply IH. intros. apply Hout. by right. }
    rewrite app_nil_r. by apply NoDup_fmap_1 in Hnd.
  - intros. apply not_elem_of_empty.
  - by intros i ?%not_elem_of_empty.
Qed.

Lemma touches_false elId a : touches elId a = false <-> a_src a <> elId /\ a_tgt a <> elId.
Proof. unfold touches. by rewrite orb_false_iff, !String.eqb_neq. Qed.

(** No association and no shape left by the run refers to a masked id. *)
Lemma no_dangling_assoc_shape (d : Doc) (thr : float) (dir : string) :
  (forall a, PAssoc a ∈ finalProc d thr dir ->
     a_src a ∉ maskedOf d thr dir /\ a_tgt a ∉ maskedOf d thr dir) /\
  (forall i be b, DShape i be b ∈ finalPlane d thr dir -> be ∉ maskedOf d thr dir).
Proof.
  unfold finalProc, finalPlane, maskByPrivacy. cbn [fst docOf d_process].
  rewrite maskRun_two_phase. unfold excisePhase. cbv zeta. split.
  - intros a Ha.
    assert (H : forall mid, mid ∈ maskedOf d thr dir -> a_src a <> mid /\ a_tgt a <> mid).
    { intros mid Hmid.
      destruct (excise_all_cleared (d_process d) (indexTasks (getTaskList (d_process d)))
                  (maskedOf d thr dir) (synthPhase d thr dir) mid Hmid) as [Hc _].
      by apply touches_false, Hc. }
    split; intros Hin; by destruct (H _ Hin).
  - intros i be b Hy Hin.
    destruct (excise_all_cleared (d_process d) (indexTasks (getTaskList (d_process d)))
                (maskedOf d thr dir) (synthPhase d thr dir) be Hin) as [_ Hsh].
    specialize (Hsh _ Hy). cbn [isShapeFor] in Hsh. by rewrite String.eqb_refl in Hsh.
Qed.

(** Where the removal loop skips nothing.  Provided every flow of the
    document with a masked source or target carries a non-empty id that
    no other such flow shares: after the masking run no flow, association
    or shape refers to a masked id; every flow that had a masked source
    or target is gone, no association refers to its id and no diagram
    edge is left for it. *)
Theorem no_dangling_references (d : Doc) (thr : float) (dir : string) :
  wellIdentified d thr dir ->
  (forall f, PFlow f ∈ finalProc d thr dir ->
     f_src f ∉ maskedOf d thr dir /\ f_tgt f ∉ maskedOf d thr dir) /\
  (forall a, PAssoc a ∈ finalProc d thr dir ->
     a_src a ∉ maskedOf d thr dir /\ a_tgt a ∉ maskedOf d thr dir) /\
  (forall i be b, DShape i be b ∈ finalPlane d thr dir -> be ∉ maskedOf d thr dir) /\
  (forall f, PFlow f ∈ d_process d ->
     f_src f ∈ maskedOf d thr dir \/ f_tgt f ∈ maskedOf d thr dir ->
     PFlow f ∉ finalProc d thr dir /\
     (forall a, PAssoc a ∈ finalProc d thr dir -> a_src a <> f_id f /\ a_tgt a <> f_id f) /\
     (forall i be w, DEdge i be w ∈ finalPlane d thr dir -> be <> f_id f)).
Proof.
  intros Hwf. pose proof Hwf as [Hnd Hid].
  pose proof (exInv_synthPhase d thr dir Hwf) as H0.
  destruct (no_dangling_assoc_shape d thr dir) as [Hassoc Hshape].
  set (byId := indexTasks (getTaskList (d_process d))).
  assert (Hfin : exInv (d_process d) (maskedOf d thr dir) (maskRun d thr dir)).
  { rewrite maskRun_two_phase. by apply (excise_all_exInv _ _ _ Hnd Hid). }
  assert (Hcut : forall mid, mid ∈ maskedOf d thr dir ->
            cut (d_process d) (maskRun d thr dir) mid).
  { intros mid Hmid. rewrite maskRun_two_phase. by apply (excise_all_cut _ _ _ Hnd Hid). }
  assert (Hflows : forall f, PFlow f ∈ finalProc d thr dir ->
            f_src f ∉ maskedOf d thr dir /\ f_tgt f ∉ maskedOf d thr dir).
  { intros f Hf%elem_of_selectFlows.
    split; intros Hin; destruct (Hcut _ Hin) as [Hg _]; by destruct (Hg f Hf). }
  split_and!; [done..|].
  intros f Hf Hm. split.
  { intros Hin. destruct (Hflows f Hin). tauto. }
  assert (Hrem : f_id f ∈ ms_removedFlowIds (maskRun d thr dir)).
  { apply elem_of_selectFlows in Hf.
    destruct Hm as [Hm|Hm]; destruct (Hcut _ Hm) as [_ Hr]; apply Hr; auto. }
  destruct (ex_clean _ _ _ Hfin _ Hrem) as [Ha Hy]. split.
  - intros a Hin. apply touches_false. by apply Ha.
  - intros i be w Hin. specialize (Hy _ Hin). cbn [isEdgeFor] in Hy.
    by apply String.eqb_neq in Hy.
Qed.

Definition docFlowWithoutId : Doc :=
  {| d_process := [PTask (mkTask "A" nan); PTask (mkTask "M" 0.75%float);
                   PFlow (mkFlow "" "A" "M" None)];
     d_plane := Some [] |}.

(** A flow without an id that ends at a masked task is skipped by the
    guard of the removal loop and still refers to the deleted task. *)
Lemma flow_without_id_dangles :
  "M" ∈ maskedOf docFlowWithoutId 0.5%float "above" /\
  PTask (mkTask "M" 0.75%float) ∉ finalProc docFlowWithoutId 0.5%float "above" /\
  exists f, PFlow f ∈ finalProc docFlowWithoutId 0.5%float "above" /\ f_tgt f = "M".
Proof.
  split_and!.
  - vm_compute. left.
  - vm_compute. intros H. repeat (apply elem_of_cons in H as [H|H]; [discriminate H|]).
    by apply elem_of_nil in H.
  - exists (mkFlow "" "A" "M" None). split; [|done]. vm_compute. right. left.
Qed.

(** ** The masked tasks are deleted *)

Lemma rev_Permutation {A} (l : list A) : rev l ≡ₚ l.
Proof. symmetry. apply Permutation_rev. Qed.

Lemma remove_first_key {A} (key : A -> string) (k : string) (l : list A) x :
  NoDup (key <$> l) -> x ∈ remove_first (fun y => String.eqb (key y) k) l -> key x <> k.
Proof.
  induction l as [|y l IH]; cbn [remove_first]; [by intros _ ?%elem_of_nil|].
  rewrite fmap_cons. intros [Hy Hl]%NoDup_cons.
  destruct (String.eqb_spec (key y) k) as [<-|Hne].
  - intros Hx E. apply Hy. rewrite <- E. by apply list_elem_of_fmap_2.
  - intros [->|Hx]%elem_of_cons; [done|by apply IH].
Qed.

Lemma remove_last_key {A} (key : A -> string) (k : string) (l : list A) x :
  NoDup (key <$> l) -> x ∈ remove_last (fun y => String.eqb (key y) k) l -> key x <> k.
Proof.
  intros Hnd. unfold remove_last. rewrite rev_Permutation.
  apply remove_first_key. by rewrite rev_Permutation.
Qed.

Lemma remove_last_NoDup {A} (key : A -> string) (p : A -> bool) (l : list A) :
  NoDup (key <$> l) -> NoDup (key <$> remove_last p l).
Proof.
  intros Hnd. unfold remove_last. rewrite rev_Permutation.
  eapply sublist_NoDup; [|apply fmap_sublist, remove_first_sublist].
  by rewrite rev_Permutation.
Qed.

Lemma omap_remove_last_same {A B} (sel : A -> option B) (p : A -> bool)
    (q : B -> bool) (l : list A) :
  (forall x, match sel x with Some b => p x = q b | None => p x = false end) ->
  omap sel (remove_last p l) = remove_last q (omap sel l).
Proof.
  intros H. unfold remove_last.
  by rewrite omap_rev, (omap_remove_first_same sel p q), omap_rev.
Qed.

Lemma indexTasks_snoc l t : indexTasks (l ++ [t]) = <[t_id t := t]> (indexTasks l).
Proof. unfold indexTasks. by rewrite foldl_app. Qed.

Lemma indexTasks_is_Some l k : k ∈ t_id <$> l -> is_Some (indexTasks l !! k).
Proof.
  induction l as [|t l IH] using rev_ind; [by intros ?%elem_of_nil|].
  rewrite indexTasks_snoc, fmap_app, elem_of_app. cbn. rewrite list_elem_of_singleton.
  destruct (decide (t_id t = k)) as [<-|Hne].
  - rewrite lookup_insert_eq. by eexists.
  - rewrite lookup_insert_ne by done. intros [?|?]; [auto|congruence].
Qed.

Lemma maybeRemove_getTaskList ta s :
  getTaskList (proc (maybeRemoveTextAnnotationIfOrphaned ta s)) = getTaskList (proc s).
Proof.
  unfold maybeRemoveTextAnnotationIfOrphaned. destruct (Nat.ltb _ _); [done|].
  cbn [removeDIShapeForElement removeDI proc]. rewrite detach_proc.
  apply omap_remove_first_other. by intros [].
Qed.

Lemma cascade_getTaskList a s :
  getTaskList (proc (removeAssociationCascade a s)) = getTaskList (proc s).
Proof.
  unfold removeAssociationCascade.
  set (s2 := detach (isAssocNode a) _).
  assert (H2 : getTaskList (proc s2) = getTaskList (proc s)).
  { unfold s2. rewrite detach_proc. cbn [removeDIEdgeForElement removeDI proc].
    apply omap_remove_first_other. by intros []. }
  destruct (existsb _ _), (existsb _ _); by rewrite ?maybeRemove_getTaskList.
Qed.

Lemma removeAll_getTaskList elId s :
  getTaskList (proc (removeAllAssociationsTouchingId elId s)) = getTaskList (proc s).
Proof.
  unfold removeAllAssociationsTouchingId.
  generalize (List.filter (touches elId) (selectAssocs (proc s))) as T.
  intros T. revert s. induction T as [|a T IH]; intros s; cbn [foldl]; [done|].
  by rewrite IH, cascade_getTaskList.
Qed.

Lemma removeFlow_getTaskList st f :
  getTaskList (proc (ms_dom (removeFlow st f))) = getTaskList (proc (ms_dom st)) /\
  ms_detached (removeFlow st f) = ms_detached st.
Proof.
  unfold removeFlow. destruct (_ || _); [done|]. cbn [ms_dom ms_detached].
  split; [|done]. rewrite detach_proc. unfold getTaskList at 1.
  rewrite omap_remove_first_other by (by intros []).
  cbn [removeDIEdgeForElement removeDI proc]. apply removeAll_getTaskList.
Qed.

Lemma removeFlows_getTaskList (T : list Flow) st :
  getTaskList (proc (ms_dom (foldl removeFlow st T))) = getTaskList (proc (ms_dom st)) /\
  ms_detached (foldl removeFlow st T) = ms_detached st.
Proof.
  revert st. induction T as [|f T IH]; intros st; cbn [foldl]; [done|].
  destruct (IH (removeFlow st f)) as [-> ->]. apply removeFlow_getTaskList.
Qed.

(** The tasks still attached are tasks of the document with distinct ids,
    and none carries an id already handled by the outer loop. *)
Definition tasksInv (tasks0 : list Task) (st : MaskSt) : Prop :=
  NoDup (t_id <$> getTaskList (proc (ms_dom st))) /\
  (forall t, t ∈ getTaskList (proc (ms_dom st)) -> t ∈ tasks0) /\
  (forall m t, m ∈ ms_detached st -> t ∈ getTaskList (proc (ms_dom st)) -> t_id t <> m).

Lemma exciseNode_rest byId fbs fbt st mid :
  exciseNode byId fbs fbt st mid
  = let st1 := foldl removeFlow st (default [] (fbt !! mid) ++ default [] (fbs !! mid)) in
    {| ms_dom := exciseRest byId (ms_detached st1) mid (ms_dom st1);
       ms_counter := ms_counter st1;
       ms_removedFlowIds := ms_removedFlowIds st1;
       ms_autoFlowPairs := ms_autoFlowPairs st1;
       ms_detached := {[mid]} ∪ ms_detached st1 |}.
Proof. reflexivity. Qed.

Lemma exciseRest_tasks byId det mid d :
  getTaskList (proc (exciseRest byId det mid d))
  = match byId !! mid with
    | Some _ => if bool_decide (mid ∈ det) then getTaskList (proc d)
                else remove_last (fun t => String.eqb (t_id t) mid) (getTaskList (proc d))
    | None => getTaskList (proc d)
    end.
Proof.
  unfold exciseRest. cbn [removeDIShapeForElement removeDI proc].
  destruct (byId !! mid); [|apply removeAll_getTaskList].
  case_bool_decide; [apply removeAll_getTaskList|].
  rewrite detachLast_proc. unfold getTaskList at 1.
  rewrite (omap_remove_last_same _ _ (fun t => String.eqb (t_id t) mid)) by (by intros []).
  fold (getTaskList (proc (removeAllAssociationsTouchingId mid d))).
  by rewrite removeAll_getTaskList.
Qed.

Lemma exciseNode_tasksInv tasks0 fbs fbt st mid :
  tasksInv tasks0 st ->
  tasksInv tasks0 (exciseNode (indexTasks tasks0) fbs fbt st mid) /\
  forall m, m ∈ ms_detached st \/ m = mid ->
            m ∈ ms_detached (exciseNode (indexTasks tasks0) fbs fbt st mid).
Proof.
  intros (Hnd & Hsub & Hdet). rewrite exciseNode_rest. cbv zeta.
  destruct (removeFlows_getTaskList (default [] (fbt !! mid) ++ default [] (fbs !! mid)) st)
    as [Ht1 Hd1].
  unfold tasksInv. cbn [ms_dom ms_detached]. rewrite exciseRest_tasks, Ht1, Hd1.
  split; [|set_solver].
  set (cur := getTaskList (proc (ms_dom st))) in *.
  assert (Hkeep : (forall t, t ∈ cur -> t_id t <> mid) ->
            NoDup (t_id <$> cur) /\ (forall t, t ∈ cur -> t ∈ tasks0) /\
            forall m t, m ∈ {[mid]} ∪ ms_detached st -> t ∈ cur -> t_id t <> m).
  { intros Hno. split_and!; [done..|].
    intros m t [->%elem_of_singleton|Hm]%elem_of_union Ht; [by apply Hno|by apply Hdet]. }
  destruct (indexTasks tasks0 !! mid) as [t0|] eqn:Eb.
  - case_bool_decide as Hin.
    + apply Hkeep. intros t Ht. by apply Hdet.
    + split_and!.
      * by apply remove_last_NoDup.
      * intros t Ht%elem_of_remove_last. by apply Hsub.
      * intros m t [->%elem_of_singleton|Hm]%elem_of_union Ht.
        -- by apply (remove_last_key t_id _ cur).
        -- apply Hdet; [done|]. by apply elem_of_remove_last in Ht.
  - apply Hkeep. intros t Ht%Hsub E.
    destruct (indexTasks_is_Some tasks0 mid) as [? ?]; [|congruence].
    rewrite <- E. by apply list_elem_of_fmap_2.
Qed.

Lemma excise_all_tasksInv tasks0 fbs fbt (mids : list string) st :
  tasksInv tasks0 st ->
  tasksInv tasks0 (foldl (exciseNode (indexTasks tasks0) fbs fbt) st mids) /\
  forall m, m ∈ mids -> m ∈ ms_detached (foldl (exciseNode (indexTasks tasks0) fbs fbt) st mids).
Proof.
  intros Hst.
  enough (tasksInv tasks0 (foldl (exciseNode (indexTasks tasks0) fbs fbt) st mids) /\
          forall m, m ∈ ms_detached st \/ m ∈ mids ->
            m ∈ ms_detached (foldl (exciseNode (indexTasks tasks0) fbs fbt) st mids))
    as [? ?] by (split; auto).
  revert st Hst. induction mids as [|mid mids IH]; intros st Hst; cbn [foldl].
  - split; [done|]. intros m [?|?%elem_of_nil]; done.
  - destruct (exciseNode_tasksInv tasks0 fbs fbt st mid Hst) as [H1 Hd].
    destruct (IH _ H1) as [H2 Hd2]. split; [done|].
    intros m [Hm|[->|Hm]%elem_of_cons]; apply Hd2; auto.
Qed.

(** When the activities have distinct ids, every activity holding a
    masked id is gone from the process when the run ends. *)
Theorem masked_tasks_deleted (d : Doc) (thr : float) (dir : string) (t : Task) :
  NoDup (t_id <$> getTaskList (d_process d)) ->
  PTask t ∈ finalProc d thr dir -> t_id t ∉ maskedOf d thr dir.
Proof.
  intros Hnd Ht Hin. unfold finalProc, maskByPrivacy in Ht. cbn [fst docOf d_process] in Ht.
  rewrite maskRun_two_phase in Ht. unfold excisePhase in Ht. cbv zeta in Ht.
  destruct (appended_synthPhase d thr dir) as [Hpr _].
  assert (H0 : tasksInv (getTaskList (d_process d)) (synthPhase d thr dir)).
  { assert (E : getTaskList (proc (ms_dom (synthPhase d thr dir)))
                = getTaskList (d_process d)).
    { rewrite Hpr. unfold getTaskList. rewrite omap_app.
      generalize (createdFlows (log (ms_dom (synthPhase d thr dir)))) as cr.
      intros cr. induction cr as [|f cr IH]; [by rewrite app_nil_r|exact IH]. }
    unfold tasksInv. rewrite E. split_and!; [done..|].
    intros m t' Hm. exfalso. revert Hm. unfold synthPhase. rewrite synthAll_pairs.
    generalize (allPairs (indexFlows f_src (selectFlows (d_process d)))
                  (indexFlows f_tgt (selectFlows (d_process d))) (maskedOf d thr dir)).
    intros l. assert (Hd0 : ms_detached (initMask d) = ∅) by done.
    revert Hd0. generalize (initMask d). induction l as [|p l IH]; intros st Hd0; cbn [foldl].
    - rewrite Hd0. apply not_elem_of_empty.
    - apply IH. destruct (synthPair_cases p.1 p.2 st)
        as [[_ ->]|(_ & _ & _ & nf & ex & _ & _ & _ & _ & _ & _ & _ & _ & ->)]; done. }
  destruct (excise_all_tasksInv _ (indexFlows f_src (selectFlows (d_process d)))
              (indexFlows f_tgt (selectFlows (d_process d))) (maskedOf d thr dir) _ H0)
    as [(_ & _ & Hdet) Hall].
  apply (Hdet (t_id t) t); [by apply Hall|by apply elem_of_getTaskList|done].
Qed.

(** ** Union-find: representatives *)

(** [rootAt p d x r]: following parents from [x] reaches the root [r]
    after [d] steps. *)
Inductive rootAt (p : list nat) : nat -> nat -> nat -> Prop :=
| rootAt_O x : p !! x = Some x -> rootAt p 0 x x
| rootAt_S d x y r : p !! x = Some y -> y <> x -> rootAt p d y r -> rootAt p (S d) x r.

Definition rep (p : list nat) (x r : nat) : Prop := exists d, rootAt p d x r.

(** Every index of the array leads to a root: the parent links form a
    forest. *)
Definition forest (p : list nat) : Prop :=
  forall x, x < length p -> exists r, rep p x r.

Lemma rootAt_fun p d1 d2 x r1 r2 :
  rootAt p d1 x r1 -> rootAt p d2 x r2 -> d1 = d2 /\ r1 = r2.
Proof.
  intros H1. revert d2 r2. induction H1 as [x Hx|d x y r Hx Hne H1 IH]; intros d2 r2 H2.
  - inversion H2; subst; [done|congruence].
  - inversion H2 as [|d' x' y' r' Hx' Hne' H2']; subst; [congruence|].
    assert (y' = y) as -> by congruence.
    destruct (IH _ _ H2') as [-> ->]. done.
Qed.

Lemma rep_fun p x r1 r2 : rep p x r1 -> rep p x r2 -> r1 = r2.
Proof. intros [d1 H1] [d2 H2]. by destruct (rootAt_fun _ _ _ _ _ _ H1 H2). Qed.

Lemma rootAt_root p d x r : rootAt p d x r -> p !! r = Some r.
Proof. induction 1; done. Qed.

Lemma rootAt_lt p d x r : rootAt p d x r -> x < length p.
Proof. destruct 1; by eapply lookup_lt_Some. Qed.

Lemma rep_root p x r : rep p x r -> rep p r r.
Proof. intros [d H]. exists 0. constructor. by eapply rootAt_root. Qed.

(** The nodes on the way to the root are pairwise distinct. *)
Lemma rootAt_chain p d x r :
  rootAt p d x r ->
  exists l, length l = S d /\ NoDup l /\
    forall y, y ∈ l -> exists d' r', d' <= d /\ rootAt p d' y r'.
Proof.
  induction 1 as [x Hx|d x y r Hx Hne H IH].
  - exists [x]. split_and!; [done|apply NoDup_singleton|].
    intros y ->%list_elem_of_singleton. exists 0, x. split; [lia|by constructor].
  - destruct IH as (l & Hlen & Hnd & Hl). exists (x :: l). split_and!.
    + cbn. by rewrite Hlen.
    + apply NoDup_cons. split; [|done]. intros (d' & r' & Hd & Hx')%Hl.
      assert (Hx2 : rootAt p (S d) x r) by (by econstructor).
      destruct (rootAt_fun _ _ _ _ _ _ Hx' Hx2). lia.
    + intros z [->|Hz]%elem_of_cons.
      * exists (S d), r. split; [lia|by econstructor].
      * destruct (Hl z Hz) as (d' & r' & ? & ?). exists d', r'. split; [lia|done].
Qed.

(** So the depth of a node is below the size of the array. *)
Lemma rootAt_depth p d x r : rootAt p d x r -> d < length p.
Proof.
  intros (l & Hlen & Hnd & Hl)%rootAt_chain.
  assert (length l <= length (seq 0 (length p))); [|rewrite length_seq in *; lia].
  apply NoDup_incl_length; [by apply NoDup_ListNoDup|].
  intros y Hy%list_elem_of_In. apply in_seq.
  destruct (Hl y Hy) as (d' & r' & _ & H'%rootAt_lt). lia.
Qed.

(** Redirecting a node to its own root changes no representative. *)
Lemma compress_one p x r y dy ry :
  rep p x r -> rootAt p dy y ry -> rep (<[x := r]> p) y ry.
Proof.
  intros Hx Hy. induction Hy as [y Hy|dy y z ry Hy Hne Hz IH].
  - exists 0. constructor. destruct (decide (y = x)) as [->|Hyx].
    + assert (r = x) as -> by (eapply rep_fun; [done|exists 0; by constructor]).
      apply list_lookup_insert_eq. by eapply lookup_lt_Some.
    + by rewrite list_lookup_insert_ne.
  - destruct (decide (y = x)) as [->|Hyx].
    + assert (r = ry) as -> by (eapply rep_fun; [done|exists (S dy); by econstructor]).
      pose proof (rootAt_root _ _ _ _ Hz) as Hr.
      assert (ry <> x) by (intros ->; congruence).
      exists 1. apply (rootAt_S _ 0 x ry ry); [|done|].
      * apply list_lookup_insert_eq. by eapply lookup_lt_Some.
      * constructor. by rewrite list_lookup_insert_ne.
    + destruct IH as [d' IH]. exists (S d'). apply (rootAt_S _ d' y z ry); [|done..].
      by rewrite list_lookup_insert_ne.
Qed.

Lemma find_spec p fuel d x r :
  rootAt p d x r -> d < fuel ->
  (find fuel p x).1 = r /\ length (find fuel p x).2 = length p /\
  forall y ry, rep p y ry -> rep (find fuel p x).2 y ry.
Proof.
  intros H. revert fuel. induction H as [x Hx|d x y r Hx Hne H IH]; intros fuel Hf.
  - destruct fuel as [|k]; [lia|]. cbn [find]. rewrite Hx, Nat.eqb_refl. done.
  - destruct fuel as [|k]; [lia|]. cbn [find]. rewrite Hx.
    rewrite (proj2 (Nat.eqb_neq y x) Hne). cbn [fst snd].
    destruct (IH k) as (Hr & Hlen & Hpres); [lia|].
    rewrite Hr. split_and!; [done|by rewrite length_insert|].
    intros z rz Hz. destruct (Hpres z rz Hz) as [dz Hz'].
    apply (compress_one _ _ _ _ dz); [|done].
    apply Hpres. exists (S d). by econstructor.
Qed.

(** [find] with the length of the array as fuel. *)
Lemma find_rep p x r :
  rep p x r ->
  (find (length p) p x).1 = r /\ length (find (length p) p x).2 = length p /\
  forall y ry, rep p y ry -> rep (find (length p) p x).2 y ry.
Proof. intros [d H]. apply (find_spec p _ d); [done|by eapply rootAt_depth]. Qed.

Lemma rep_lt p x r : rep p x r -> x < length p /\ r < length p.
Proof.
  intros [d H]. split; [by eapply rootAt_lt|].
  eapply lookup_lt_Some, rootAt_root, H.
Qed.

(** Two arrays of the same size with the same representatives. *)
Definition sameReps (p q : list nat) : Prop :=
  length q = length p /\ forall y ry, rep p y ry -> rep q y ry.

Lemma sameReps_forest p q : sameReps p q -> forest p -> forest q.
Proof.
  intros [Hlen H] Hp x Hx. rewrite Hlen in Hx. destruct (Hp x Hx) as [r Hr].
  exists r. by apply H.
Qed.

Lemma sameReps_back p q y ry : sameReps p q -> forest p -> rep q y ry -> rep p y ry.
Proof.
  intros [Hlen H] Hp Hq. destruct (rep_lt _ _ _ Hq) as [Hy _]. rewrite Hlen in Hy.
  destruct (Hp y Hy) as [r Hr]. by rewrite (rep_fun _ _ _ _ Hq (H _ _ Hr)).
Qed.

Lemma sameReps_refl p : sameReps p p.
Proof. by split. Qed.

Lemma sameReps_trans p q s : sameReps p q -> sameReps q s -> sameReps p s.
Proof. intros [L1 H1] [L2 H2]. split; [congruence|auto]. Qed.

Lemma find_sameReps p x : forest p -> x < length p -> sameReps p (find (length p) p x).2.
Proof.
  intros Hp Hx. destruct (Hp x Hx) as [r Hr].
  destruct (find_rep p x r Hr) as (_ & ? & ?). by split.
Qed.

(** Hanging the root [rb] below the root [ra] moves the class of [rb]
    under [ra] and leaves the other representatives alone. *)
Lemma link_spec p ra rb y dy ry :
  p !! ra = Some ra -> p !! rb = Some rb -> ra <> rb ->
  rootAt p dy y ry ->
  rep (<[rb := ra]> p) y (if decide (ry = rb) then ra else ry).
Proof.
  intros Hra Hrb Hne Hy.
  assert (Hra' : rep (<[rb := ra]> p) ra ra).
  { exists 0. constructor. by rewrite list_lookup_insert_ne. }
  induction Hy as [y Hy|dy y z ry Hy Hyz Hz IH].
  - case_decide as E.
    + subst y. exists 1. apply (rootAt_S _ 0 rb ra ra); [|done|].
      * apply list_lookup_insert_eq. by eapply lookup_lt_Some.
      * constructor. by rewrite list_lookup_insert_ne.
    + exists 0. constructor. by rewrite list_lookup_insert_ne.
  - assert (y <> rb) by (intros ->; congruence).
    destruct IH as [d' IH]. exists (S d'). apply (rootAt_S _ d' y z); [|done..].
    by rewrite list_lookup_insert_ne.
Qed.

Lemma unite_spec p a b ra rb :
  forest p -> rep p a ra -> rep p b rb ->
  length (unite a b p) = length p /\
  forall y ry, rep p y ry -> rep (unite a b p) y (if decide (ry = rb) then ra else ry).
Proof.
  intros Hp Ha Hb. unfold unite.
  destruct (find_rep p a ra Ha) as (E1 & L1 & P1).
  set (p1 := (find (length p) p a).2) in *.
  assert (Hb1 : rep p1 b rb) by by apply P1.
  destruct (find_rep p1 b rb Hb1) as (E2 & L2 & P2).
  rewrite L1 in E2, L2, P2.
  set (p2 := (find (length p) p1 b).2) in *.
  rewrite E1, E2. destruct (Nat.eqb_spec ra rb) as [->|Hne].
  - split; [congruence|]. intros y ry Hy. case_decide; subst; by apply P2, P1.
  - split; [rewrite length_insert; congruence|].
    intros y ry Hy. destruct (P2 _ _ (P1 _ _ Hy)) as [dy Hy2].
    apply (link_spec _ _ _ _ dy); [| |done..].
    + destruct (P2 _ _ (P1 _ _ (rep_root _ _ _ Ha))) as [d H]. by eapply rootAt_root.
    + destruct (P2 _ _ Hb1) as [d H]. by eapply rootAt_root.
Qed.

(** ** Union-find: equivalence classes *)

Definition sameRep (p : list nat) (i j : nat) : Prop :=
  exists r, rep p i r /\ rep p j r.

(** The array [p] of size [n] represents the equivalence generated by [E]. *)
Record ufInv (n : nat) (E : list (nat * nat)) (p : list nat) : Prop := {
  uf_len : length p = n;
  uf_forest : forest p;
  uf_range : forall a b, (a, b) ∈ E -> a < n /\ b < n;
  uf_conn : forall i j, i < n -> j < n -> sameRep p i j <-> conn E i j
}.

Lemma conn_mono E E' i j : (forall e, e ∈ E -> e ∈ E') -> conn E i j -> conn E' i j.
Proof.
  intros HE. induction 1; [apply conn_refl|apply conn_edge; auto|
                           by apply conn_sym|by eapply conn_trans].
Qed.

Lemma conn_nil i j : conn [] i j -> i = j.
Proof. induction 1 as [|a b H| |]; [done|by apply elem_of_nil in H|done|congruence]. Qed.

Lemma ufInv_init n : ufInv n [] (unionFind n).
Proof.
  assert (Hself : forall x, x < n -> rep (unionFind n) x x).
  { intros x Hx. exists 0. constructor. unfold unionFind. by rewrite lookup_seq_lt. }
  split.
  - apply length_seq.
  - intros x Hx. unfold unionFind in Hx. rewrite length_seq in Hx. exists x. auto.
  - by intros a b ?%elem_of_nil.
  - intros i j Hi Hj. split.
    + intros (r & Hri & Hrj).
      rewrite (rep_fun _ _ _ _ (Hself i Hi) Hri), (rep_fun _ _ _ _ (Hself j Hj) Hrj).
      apply conn_refl.
    + intros ->%conn_nil. exists j. auto.
Qed.

Lemma ufInv_unite n E p a b :
  ufInv n E p -> a < n -> b < n -> ufInv n (E ++ [(a, b)]) (unite a b p).
Proof.
  intros [Hlen Hf Hrg Hc] Ha Hb.
  destruct (Hf a) as [ra Hra]; [lia|]. destruct (Hf b) as [rb Hrb]; [lia|].
  destruct (unite_spec p a b ra rb Hf Hra Hrb) as [Hlen' Hnew].
  assert (Hf' : forest (unite a b p)).
  { intros x Hx. rewrite Hlen' in Hx. destruct (Hf x Hx) as [r Hr]. eexists. by apply Hnew. }
  assert (Hold : forall i j, conn E i j -> conn (E ++ [(a, b)]) i j).
  { intros i j. apply conn_mono. intros e He. apply elem_of_app. by left. }
  assert (Hab : conn (E ++ [(a, b)]) a b).
  { apply conn_edge, elem_of_app. right. by apply list_elem_of_singleton. }
  split; [congruence|done| |].
  { intros x y [Hxy|Hxy%list_elem_of_singleton]%elem_of_app; [by apply Hrg|].
    by inversion Hxy; subst. }
  intros i j Hi Hj.
  destruct (Hf i) as [ri Hri]; [lia|]. destruct (Hf j) as [rj Hrj]; [lia|].
  pose proof (Hnew _ _ Hri) as Hi'. pose proof (Hnew _ _ Hrj) as Hj'.
  assert (Hia : ri = ra -> conn E i a) by (intros ->; apply Hc; [done..|by exists ra]).
  assert (Hib : ri = rb -> conn E i b) by (intros ->; apply Hc; [done..|by exists rb]).
  assert (Hja : rj = ra -> conn E j a) by (intros ->; apply Hc; [done..|by exists ra]).
  assert (Hjb : rj = rb -> conn E j b) by (intros ->; apply Hc; [done..|by exists rb]).
  split.
  - intros (r & Hr1 & Hr2).
    pose proof (rep_fun _ _ _ _ Hr1 Hi') as E1. pose proof (rep_fun _ _ _ _ Hr2 Hj') as E2.
    subst r. repeat case_decide.
    + eapply conn_trans; [apply Hold, Hib; done|]. apply conn_sym, Hold, Hjb. done.
    + eapply conn_trans; [apply Hold, Hib; done|].
      eapply conn_trans; [apply conn_sym, Hab|]. apply conn_sym, Hold, Hja. done.
    + eapply conn_trans; [apply Hold, Hia; done|].
      eapply conn_trans; [apply Hab|]. apply conn_sym, Hold, Hjb. done.
    + apply Hold, Hc; [done..|]. exists ri. split; [done|]. by rewrite E2.
  - assert (Hequiv : forall x y, conn (E ++ [(a, b)]) x y ->
              (x < n <-> y < n) /\
              (x < n -> y < n -> forall rx ry, rep p x rx -> rep p y ry ->
               (if decide (rx = rb) then ra else rx) = (if decide (ry = rb) then ra else ry))).
    { clear i j Hi Hj ri rj Hri Hrj Hi' Hj' Hia Hib Hja Hjb.
      induction 1 as [x|x y Hxy|x y _ [IH1 IH2]|x y z _ [IH1 IH2] _ [IH3 IH4]].
      - split; [done|]. intros _ _ rx ry Hx Hy. by rewrite (rep_fun _ _ _ _ Hx Hy).
      - apply elem_of_app in Hxy as [Hxy|Hxy%list_elem_of_singleton].
        + destruct (Hrg _ _ Hxy) as [Hx Hy]. split; [done|].
          intros _ _ rx ry Hrx Hry.
          destruct (proj2 (Hc x y Hx Hy) (conn_edge _ _ _ Hxy)) as (r & H1 & H2).
          by rewrite (rep_fun _ _ _ _ Hrx H1), (rep_fun _ _ _ _ Hry H2).
        + inversion Hxy; subst. split; [done|]. intros _ _ rx ry Hrx Hry.
          rewrite (rep_fun _ _ _ _ Hrx Hra), (rep_fun _ _ _ _ Hry Hrb).
          repeat case_decide; congruence.
      - split; [tauto|]. intros Hy Hx rx ry Hrx Hry. symmetry. by apply IH2.
      - split; [tauto|]. intros Hx Hz rx rz Hrx Hrz.
        assert (Hy : y < n) by tauto. destruct (Hf y) as [ry Hry]; [lia|].
        rewrite (IH2 Hx Hy rx ry Hrx Hry). by apply IH4. }
    intros Hcn. destruct (Hequiv i j Hcn) as [_ Heq].
    specialize (Heq Hi Hj ri rj Hri Hrj).
    eexists. split; [exact Hi'|]. rewrite Heq. exact Hj'.
Qed.

(** ** Grouping indices by representative *)

(** The grouping loop for a fixed key function [key]. *)
Definition groupBy (key : nat -> nat) (l : list nat) (g : list (nat * list nat))
  : list (nat * list nat) :=
  foldl (fun g i => pushGroup (key i) i g) g l.

(** Keys are distinct, and every member of a group has the group's key. *)
Definition wellGrouped (key : nat -> nat) (g : list (nat * list nat)) : Prop :=
  NoDup g.*1 /\ forall k m, (k, m) ∈ g -> m <> [] /\ forall i, i ∈ m -> key i = k.

Lemma pushGroup_elem r i g k m :
  (k, m) ∈ pushGroup r i g ->
  (k, m) ∈ g \/ (k = r /\ exists m0, m = m0 ++ [i] /\ ((r, m0) ∈ g \/ m0 = [])).
Proof.
  induction g as [|[k0 l0] g IH]; cbn [pushGroup].
  - intros Hin%list_elem_of_singleton. inversion Hin; subst. right. split; [done|].
    exists []. auto.
  - destruct (Nat.eqb_spec k0 r) as [->|Hne].
    + intros [Hin|Hin]%elem_of_cons; [|left; by right].
      inversion Hin; subst. right. split; [done|]. exists l0. split; [done|]. left. left.
    + intros [Hin|Hin]%elem_of_cons; [left; rewrite Hin; left|].
      destruct (IH Hin) as [?|(-> & m0 & -> & [?|?])]; [left; by right|right..].
      * split; [done|]. exists m0. split; [done|]. left. by right.
      * split; [done|]. exists m0. auto.
Qed.

Lemma pushGroup_keys r i g :
  (pushGroup r i g).*1 = if bool_decide (r ∈ g.*1) then g.*1 else g.*1 ++ [r].
Proof.
  induction g as [|[k0 l0] g IH]; cbn [pushGroup]; [done|].
  destruct (Nat.eqb_spec k0 r) as [->|Hne].
  - rewrite bool_decide_eq_true_2; [done|]. left.
  - rewrite !fmap_cons, IH. cbn [fst]. case_bool_decide as H1.
    + rewrite bool_decide_eq_true_2; [done|]. by right.
    + rewrite bool_decide_eq_false_2; [done|]. intros [?|?]%elem_of_cons; congruence.
Qed.

Lemma pushGroup_concat r i g : concat (pushGroup r i g).*2 ≡ₚ i :: concat g.*2.
Proof.
  induction g as [|[k0 l0] g IH]; cbn [pushGroup]; [done|].
  destruct (Nat.eqb_spec k0 r) as [->|Hne].
  - rewrite !fmap_cons. cbn [snd concat]. rewrite <- app_assoc. cbn [app].
    symmetry. apply Permutation_middle.
  - rewrite !fmap_cons. cbn [snd concat]. rewrite IH.
    symmetry. apply Permutation_middle.
Qed.

Lemma wellGrouped_push key i g :
  wellGrouped key g -> wellGrouped key (pushGroup (key i) i g).
Proof.
  intros [Hnd Hg]. split.
  - rewrite pushGroup_keys. case_bool_decide; [done|].
    apply NoDup_app. split_and!; [done| |apply NoDup_singleton].
    by intros x Hx ->%list_elem_of_singleton.
  - intros k m [Hin|(-> & m0 & -> & Hm0)]%pushGroup_elem; [by apply Hg|].
    split; [by destruct m0|].
    intros j [Hj| ->%list_elem_of_singleton]%elem_of_app; [|done].
    destruct Hm0 as [Hm0| ->]; [by apply (Hg _ _ Hm0)|by apply elem_of_nil in Hj].
Qed.

Lemma groupBy_spec key l g :
  wellGrouped key g ->
  wellGrouped key (groupBy key l g) /\
  concat (groupBy key l g).*2 ≡ₚ concat g.*2 ++ l.
Proof.
  revert g. induction l as [|i l IH]; intros g Hg; cbn [groupBy foldl].
  - split; [done|]. by rewrite app_nil_r.
  - destruct (IH _ (wellGrouped_push key i g Hg)) as [H1 H2]. split; [done|].
    unfold groupBy in H2. rewrite H2, pushGroup_concat. cbn [app].
    apply Permutation_middle.
Qed.

Lemma wellGrouped_same key g k m m' :
  wellGrouped key g -> (k, m) ∈ g -> (k, m') ∈ g -> m = m'.
Proof.
  intros [Hnd _]. induction g as [|[k0 l0] g IH]; [by intros ?%elem_of_nil|].
  rewrite fmap_cons in Hnd. apply NoDup_cons in Hnd as [Hk Hnd]. cbn [fst] in Hk.
  intros [H1|H1]%elem_of_cons [H2|H2]%elem_of_cons.
  - congruence.
  - inversion H1; subst. exfalso. apply Hk. by apply (list_elem_of_fmap_2 fst _ (k0, m')).
  - inversion H2; subst. exfalso. apply Hk. by apply (list_elem_of_fmap_2 fst _ (k0, m)).
  - by apply IH.
Qed.

(** The representative [find] computes on the array [p]. *)
Definition rootOf (p : list nat) (i : nat) : nat := (find (length p) p i).1.

Lemma rootOf_rep p i : forest p -> i < length p -> rep p i (rootOf p i).
Proof.
  intros Hp Hi. destruct (Hp i Hi) as [r Hr]. unfold rootOf.
  by destruct (find_rep p i r Hr) as (-> & _).
Qed.

(** Path compression during the loop does not change the grouping. *)
Lemma groups_fold p (l : list nat) g q :
  forest p -> sameReps p q -> (forall i, i ∈ l -> i < length p) ->
  (foldl groupStep (g, q) l).1 = groupBy (rootOf p) l g.
Proof.
  intros Hp. revert g q. induction l as [|i l IH]; intros g q Hq Hl; [done|].
  cbn [foldl groupBy]. unfold groupStep at 2. cbn [fst snd].
  assert (Hi : i < length p) by (apply Hl; left).
  pose proof (sameReps_forest _ _ Hq Hp) as Hfq.
  destruct Hq as [Hlen Hq].
  pose proof (Hq _ _ (rootOf_rep p i Hp Hi)) as Hr.
  destruct (find_rep q i _ Hr) as (-> & Hlen' & Hpres).
  apply IH; [|intros; apply Hl; by right].
  split; [congruence|]. intros y ry Hy. by apply Hpres, Hq.
Qed.

Lemma groups_groupBy p :
  forest p -> groups p = (groupBy (rootOf p) (seq 0 (length p)) []).*2.
Proof.
  intros Hp. unfold groups. rewrite (groups_fold p); [done..|apply sameReps_refl|].
  intros i Hi%list_elem_of_In%in_seq. lia.
Qed.

Lemma elem_of_concat {A} (L : list (list A)) (x : A) :
  x ∈ concat L <-> exists m, x ∈ m /\ m ∈ L.
Proof.
  rewrite list_elem_of_In, in_concat. split; intros (m & H1 & H2); exists m;
    rewrite ?list_elem_of_In in *; tauto.
Qed.

(** What [groups] returns for an array that represents the equivalence
    generated by [E]: the groups list every index once, none is empty, and
    each is the whole class of any of its members. *)
Lemma groups_spec n E p :
  ufInv n E p ->
  concat (groups p) ≡ₚ seq 0 n /\
  (forall g, g ∈ groups p -> g <> []) /\
  (forall g i j, g ∈ groups p -> i ∈ g -> j < n -> j ∈ g <-> conn E i j).
Proof.
  intros [Hlen Hf Hrg Hc]. rewrite groups_groupBy by done. rewrite Hlen.
  destruct (groupBy_spec (rootOf p) (seq 0 n) []) as [Hwg Hperm].
  { split; [constructor|]. by intros k m ?%elem_of_nil. }
  cbn [fmap list_fmap concat app] in Hperm.
  set (G := groupBy (rootOf p) (seq 0 n) []) in *.
  assert (Hmem : forall i, i ∈ concat G.*2 <-> i < n).
  { intros i. rewrite Hperm, list_elem_of_In, in_seq. lia. }
  assert (Hkey : forall i j, i < n -> j < n -> rootOf p i = rootOf p j <-> conn E i j).
  { intros i j Hi Hj. rewrite <- (Hc i j Hi Hj). split.
    - intros E'. exists (rootOf p i). split; [|rewrite E']; apply rootOf_rep; (done || lia).
    - intros (r & Hri & Hrj).
      rewrite <- (rep_fun _ _ _ _ Hri (rootOf_rep p i Hf ltac:(lia))).
      by rewrite <- (rep_fun _ _ _ _ Hrj (rootOf_rep p j Hf ltac:(lia))). }
  split_and!; [done| |].
  - intros g ([k m] & -> & Hin)%list_elem_of_fmap. by apply Hwg in Hin as [? _].
  - intros g i j ([k m] & -> & Hin)%list_elem_of_fmap Hi Hj. cbn [snd] in *.
    destruct Hwg as [Hnd Hg]. destruct (Hg _ _ Hin) as [_ Hk].
    assert (Hi' : i < n).
    { apply Hmem, elem_of_concat. exists m. split; [done|].
      by apply (list_elem_of_fmap_2 snd _ (k, m)). }
    rewrite <- (Hkey i j Hi' Hj). split.
    + intros Hjm. by rewrite (Hk i Hi), (Hk j Hjm).
    + intros Heq. apply Hmem in Hj.
      apply elem_of_concat in Hj as (m' & Hjm' & ([k' m''] & -> & Hin')%list_elem_of_fmap).
      cbn [snd] in *. destruct (Hg _ _ Hin') as [_ Hk'].
      assert (k' = k) as -> by (rewrite <- (Hk' j Hjm'), <- Heq; by apply Hk).
      by rewrite (wellGrouped_same _ _ _ _ _ (conj Hnd Hg) Hin Hin').
Qed.

(** ** Fragmentation groups are the components of the coupling graph *)

Lemma indexIds_snoc l t : indexIds (l ++ [t]) = <[t_id t := length l]> (indexIds l).
Proof.
  unfold indexIds. rewrite imap_app, foldl_app. cbn [imap foldl fst snd].
  by rewrite Nat.add_0_r.
Qed.

Lemma indexIds_lookup_Some l a i :
  indexIds l !! a = Some i -> exists t, l !! i = Some t /\ t_id t = a.
Proof.
  induction l as [|t l IH] using rev_ind; [done|].
  rewrite indexIds_snoc. destruct (decide (t_id t = a)) as [<-|Hne].
  - rewrite lookup_insert_eq. intros [= <-]. exists t. split; [|done].
    by rewrite lookup_app_r, Nat.sub_diag.
  - rewrite lookup_insert_ne by done. intros (t' & Ht' & <-)%IH. exists t'.
    split; [|done]. by apply lookup_app_l_Some.
Qed.

Lemma indexIds_lookup_NoDup l i t :
  NoDup (t_id <$> l) -> l !! i = Some t -> indexIds l !! t_id t = Some i.
Proof.
  induction l as [|t0 l IH] using rev_ind; [done|].
  rewrite fmap_app, indexIds_snoc. intros (Hnd & Hdis & _)%NoDup_app Hi.
  apply lookup_app_Some in Hi as [Hi|[Hlen Hi]].
  - rewrite lookup_insert_ne; [by apply IH|].
    intros E. apply (Hdis (t_id t)); [|rewrite <- E; by left].
    apply list_elem_of_fmap. exists t. split; [done|]. by eapply list_elem_of_lookup_2.
  - destruct (i - length l) as [|k] eqn:Ek; [|done]. cbn in Hi. injection Hi as ->.
    assert (i = length l) as -> by lia. apply lookup_insert_eq.
Qed.

Lemma indexIds_is_Some l a : is_Some (indexIds l !! a) <-> a ∈ t_id <$> l.
Proof.
  induction l as [|t l IH] using rev_ind.
  - split; [by intros [? ?]|by intros ?%elem_of_nil].
  - rewrite indexIds_snoc, fmap_app, elem_of_app. cbn. rewrite list_elem_of_singleton.
    destruct (decide (t_id t = a)) as [<-|Hne].
    + rewrite lookup_insert_eq. split; [auto|by eexists].
    + rewrite lookup_insert_ne by done. rewrite IH. split; [auto|]. by intros [?|?].
Qed.

(** The index pairs the flow loop unites. *)
Definition edgesOf (thr : float) (idx : gmap string nat) (flows : list Flow)
  : list (nat * nat) :=
  omap (fun f => if strong thr f then
                   match idx !! f_src f, idx !! f_tgt f with
                   | Some a, Some b => Some (a, b)
                   | _, _ => None
                   end
                 else None) flows.

Lemma couple_fold n thr idx (flows : list Flow) E p :
  (forall a i, idx !! a = Some i -> i < n) ->
  ufInv n E p -> ufInv n (E ++ edgesOf thr idx flows) (foldl (coupleStep thr idx) p flows).
Proof.
  intros Hidx. revert E p. induction flows as [|f flows IH]; intros E p Hp.
  - cbn. by rewrite app_nil_r.
  - cbn [foldl]. unfold edgesOf. rewrite omap_cons'. fold (edgesOf thr idx flows).
    unfold coupleStep at 2.
    destruct (strong thr f); [|by apply IH].
    destruct (idx !! f_src f) as [a|] eqn:Ea; [|by apply IH].
    destruct (idx !! f_tgt f) as [b|] eqn:Eb; [|by apply IH].
    rewrite (cons_middle (a, b)), app_assoc. apply IH.
    apply ufInv_unite; [done|by eapply Hidx..].
Qed.

Lemma elem_of_edgesOf thr idx flows a b :
  (a, b) ∈ edgesOf thr idx flows <->
  exists f, f ∈ flows /\ strong thr f = true /\
            idx !! f_src f = Some a /\ idx !! f_tgt f = Some b.
Proof.
  unfold edgesOf. rewrite list_elem_of_omap. split.
  - intros (f & Hf & Hm). exists f. destruct (strong _ _); [|done].
    destruct (idx !! f_src f), (idx !! f_tgt f); try done. by inversion Hm; subst.
  - intros (f & Hf & H1 & H2 & H3). exists f. by rewrite H1, H2, H3.
Qed.

Lemma conn_range n E x y :
  (forall a b, (a, b) ∈ E -> a < n /\ b < n) -> conn E x y -> (x < n <-> y < n).
Proof.
  intros Hrg. induction 1 as [|a b Hab| |]; [done| |tauto..].
  destruct (Hrg _ _ Hab). tauto.
Qed.

Lemma strong_weightAtLeast thr f : strong thr f = true <-> weightAtLeast thr f.
Proof.
  unfold strong, weightAtLeast. destruct (f_coupling f) as [w|].
  - split; [by exists w|]. by intros (w' & [= <-] & H).
  - split; [done|]. by intros (w' & ? & _).
Qed.

Lemma indexIds_names l a i : indexIds l !! a = Some i <-> names l a i.
Proof.
  unfold names. revert i. induction l as [|t l IH] using rev_ind; intros i.
  { split; [done|]. by intros [(t & ? & _) _]. }
  rewrite indexIds_snoc. destruct (decide (t_id t = a)) as [<-|Hne].
  - rewrite lookup_insert_eq. split.
    + intros [= <-]. split.
      * exists t. split; [|done]. by rewrite lookup_app_r, Nat.sub_diag.
      * intros k t' Hk Hl. apply lookup_lt_Some in Hl. rewrite length_app in Hl.
        cbn in Hl. lia.
    + intros [(t' & Ht' & E) Hlast]. f_equal.
      pose proof (lookup_lt_Some _ _ _ Ht') as Hlt. rewrite length_app in Hlt. cbn in Hlt.
      destruct (decide (i = length l)) as [->|Hi]; [done|]. exfalso.
      apply (Hlast (length l) t); [lia| |done].
      by rewrite lookup_app_r, Nat.sub_diag.
  - rewrite lookup_insert_ne by done. rewrite IH. split.
    + intros [(t' & Ht' & E) Hlast]. split.
      * exists t'. split; [|done]. by apply lookup_app_l_Some.
      * intros k t'' Hk Hl. apply lookup_app_Some in Hl as [Hl|[Hlen Hl]].
        -- by eapply Hlast.
        -- destruct (k - length l) as [|m]; [|done]. cbn in Hl. by injection Hl as <-.
    + intros [(t' & Ht' & E) Hlast]. apply lookup_app_Some in Ht' as [Ht'|[Hlen Ht']].
      * split; [by exists t'|]. intros k t'' Hk Hl. apply (Hlast k t''); [done|].
        by apply lookup_app_l_Some.
      * destruct (i - length l) as [|m]; [|done]. cbn in Ht'. injection Ht' as <-. done.
Qed.

(** When the activities have distinct ids, a reference names the one
    activity that carries the id. *)
Lemma names_distinct l i t :
  NoDup (t_id <$> l) -> l !! i = Some t -> names l (t_id t) i.
Proof. intros Hnd Hi. by apply indexIds_names, indexIds_lookup_NoDup. Qed.

Section Components.
Variable tasks : list Task.
Variable flows : list Flow.
Variable thr : float.

Let idx := indexIds tasks.
Let E := edgesOf thr idx flows.

Lemma idx_range a i : idx !! a = Some i -> i < length tasks.
Proof. intros (t & Ht & _)%indexIds_lookup_Some. by eapply lookup_lt_Some. Qed.

Lemma E_range a b : (a, b) ∈ E -> a < length tasks /\ b < length tasks.
Proof.
  intros (f & _ & _ & Ha & Hb)%elem_of_edgesOf. split; by eapply idx_range.
Qed.

Lemma edge_flow a b :
  (a, b) ∈ E <->
  exists f, f ∈ flows /\ weightAtLeast thr f /\
            names tasks (f_src f) a /\ names tasks (f_tgt f) b.
Proof.
  unfold E. rewrite elem_of_edgesOf. unfold idx.
  split; intros (f & Hf & Hw & Ha & Hb); exists f.
  - by rewrite <- strong_weightAtLeast, <- !indexIds_names.
  - by rewrite strong_weightAtLeast, !indexIds_names.
Qed.

Lemma conn_iff_component i j : conn E i j <-> component tasks flows thr i j.
Proof.
  split.
  - induction 1 as [x|a b Hab|x y H IH|x y z H1 IH1 H2 IH2].
    + apply component_refl.
    + apply edge_flow in Hab as (f & ? & ? & ? & ?). by apply (component_flow _ _ _ f).
    + by apply component_sym.
    + by eapply component_trans.
  - induction 1 as [x|f a b Hf Hw Ha Hb|x y H IH|x y z H1 IH1 H2 IH2].
    + apply conn_refl.
    + apply conn_edge, edge_flow. by exists f.
    + by apply conn_sym.
    + by eapply conn_trans.
Qed.

End Components.

(** C2.  For every threshold: the groups computed by fragmentation, read
    as lists of positions in the list of activities, list every activity
    exactly once; none is empty; each group is exactly the set of
    activities joined to any one of its members by a path of flows, in
    either direction, each of which carries a weight that is at least the
    threshold, that is a connected component of the graph of those flows
    (a flow without a weight never counts); and excluding singletons only
    filters the groups of size 1 out of that same list. *)
Theorem fragment_groups_are_components (proc0 : list PNode) (thr : float) :
  concat (fragmentComps proc0 thr true) ≡ₚ seq 0 (length (getTaskList proc0)) /\
  (forall g, g ∈ fragmentComps proc0 thr true -> g <> []) /\
  (forall g i j, g ∈ fragmentComps proc0 thr true -> i ∈ g ->
     (j ∈ g <-> component (getTaskList proc0) (selectFlows proc0) thr i j)) /\
  fragmentComps proc0 thr false
  = List.filter (fun g => Nat.ltb 1 (length g)) (fragmentComps proc0 thr true).
Proof.
  unfold fragmentComps. cbv zeta.
  set (tasks := getTaskList proc0). set (flows := selectFlows proc0).
  pose proof (couple_fold (length tasks) thr (indexIds tasks) flows [] _
                (idx_range tasks) (ufInv_init (length tasks))) as Hinv.
  rewrite app_nil_l in Hinv.
  destruct (groups_spec _ _ _ Hinv) as (Hperm & Hne & Hcls).
  split_and!; [done..| |done].
  intros g i j Hg Hi. rewrite <- conn_iff_component.
  assert (Hmem : forall k, k ∈ concat (groups (foldl (coupleStep thr (indexIds tasks))
                                   (unionFind (length tasks)) flows)) <-> k < length tasks).
  { intros k. rewrite Hperm, list_elem_of_In, in_seq. lia. }
  assert (Hin : i < length tasks).
  { apply Hmem, elem_of_concat. by exists g. }
  destruct (decide (j < length tasks)) as [Hj|Hj]; [by apply Hcls|].
  split.
  - intros Hjg. exfalso. apply Hj, Hmem, elem_of_concat. by exists g.
  - intros Hc. exfalso. apply Hj.
    by apply (conn_range _ _ _ _ (E_range tasks flows thr) Hc).
Qed.

(** ** Worked documents *)

(** Decide a closed decidable proposition by evaluation. *)
Ltac by_compute :=
  match goal with |- ?P => apply (bool_decide_unpack P); vm_compute; exact I end.

Ltac in_list := apply list_elem_of_In; vm_compute; tauto.

(** The chain A -> M1 -> M2 -> B with M1 and M2 to be masked. *)
Definition docChain : Doc :=
  {| d_process :=
       [PTask (mkTask "A" nan); PTask (mkTask "M1" 0.75%float);
        PTask (mkTask "M2" 0.75%float); PTask (mkTask "B" nan);
        PFlow (mkFlow "f1" "A" "M1" None); PFlow (mkFlow "f2" "M1" "M2" None);
        PFlow (mkFlow "f3" "M2" "B" None);
        PAnnot "note" "sensitive"; PAssoc (mkAssoc "as1" "note" "M1")];
     d_plane := Some [DShape "A_di" "A" None; DShape "M1_di" "M1" None;
                      DEdge "f1_di" "f1" []] |}.

Example docChain_masked :
  maskByPrivacy docChain 0.5%float "above"
  = ({| d_process :=
          [PTask (mkTask "A" nan); PTask (mkTask "B" nan);
           PFlow (mkFlow "AutoFlow_1" "A" "B" None)];
        d_plane := Some [DShape "A_di" "A" None] |}, 2).
Proof. vm_compute. reflexivity. Qed.

Lemma bypass_outside_masked_and_kept_witness :
  "A" ∉ maskedOf docChain 0.5%float "above" /\
  "B" ∉ maskedOf docChain 0.5%float "above" /\
  PFlow (mkFlow "AutoFlow_1" "A" "B" None) ∈ finalProc docChain 0.5%float "above".
Proof.
  apply (bypass_outside_masked_and_kept docChain 0.5%float "above"
           (mkFlow "AutoFlow_1" "A" "B" None)).
  in_list.
Defined.

Lemma docChain_path :
  pathThroughMasked (d_process docChain) (maskedOf docChain 0.5%float "above") "A" "B".
Proof.
  exists (mkFlow "f1" "A" "M1" None). split_and!; [in_list|done|].
  apply (run_step _ _ "M1" (mkFlow "f2" "M1" "M2" None)); [in_list|done|in_list|].
  apply (run_exit _ _ "M2" (mkFlow "f3" "M2" "B" None)); [in_list|done|in_list].
Qed.

Lemma bypass_preserves_reachability_witness :
  hasFlow (finalProc docChain 0.5%float "above") "A" "B" /\
  length (List.filter (joins "A" "B") (bypassFlows docChain 0.5%float "above"))
  = if is_Some_b (existingFlow (d_process docChain) "A" "B") then 0 else 1.
Proof.
  apply (bypass_preserves_reachability docChain 0.5%float "above" "A" "B").
  - by_compute.
  - by_compute.
  - by_compute.
  - reflexivity.
  - reflexivity.
  - exact docChain_path.
Defined.

(** A loop through a masked task: A -> M -> A. *)
Definition docLoop : Doc :=
  {| d_process :=
       [PTask (mkTask "A" nan); PTask (mkTask "M" 0.75%float);
        PFlow (mkFlow "f1" "A" "M" None); PFlow (mkFlow "f2" "M" "A" None)];
     d_plane := Some [] |}.

(** When the two ends of the path are the same activity, the guard
    against self-loops creates no bypass: a bypass joins two activities. *)
Lemma self_loop_not_bridged :
  "A" ∉ maskedOf docLoop 0.5%float "above" /\
  pathThroughMasked (d_process docLoop) (maskedOf docLoop 0.5%float "above") "A" "A" /\
  ~ hasFlow (finalProc docLoop 0.5%float "above") "A" "A" /\
  bypassFlows docLoop 0.5%float "above" = [].
Proof.
  split_and!.
  - by_compute.
  - exists (mkFlow "f1" "A" "M" None). split_and!; [in_list|done|].
    apply (run_exit _ _ "M" (mkFlow "f2" "M" "A" None)); [in_list|done|in_list].
  - intros H%existingFlow_hasFlow. vm_compute in H. discriminate.
  - vm_compute. reflexivity.
Qed.



(** The chain A -> X -> B -> Y -> D with privacy 1 on X, 0.5 on B and
    0.75 on Y, and what the script makes of it in two masking runs, the
    first above 1 and the second above 0.75. *)
Definition docStages : Doc :=
  {| d_process :=
       [PTask (mkTask "A" nan); PTask (mkTask "X" 1%float);
        PTask (mkTask "B" 0.5%float); PTask (mkTask "Y" 0.75%float);
        PTask (mkTask "D" nan);
        PFlow (mkFlow "f1" "A" "X" None); PFlow (mkFlow "f2" "X" "B" None);
        PFlow (mkFlow "f3" "B" "Y" None); PFlow (mkFlow "f4" "Y" "D" None)];
     d_plane := Some [] |}.

Definition docStages1 : Doc := (maskByPrivacy docStages 1%float "above").1.
Definition docStages2 : Doc := (maskByPrivacy docStages1 0.75%float "above").1.

(** C9.  The claim fails on a document the script wrote itself.  The
    counter of the bypass flows restarts with every run, so [docStages2],
    the result of two masking runs, holds two flows with the id
    AutoFlow_1, from A to B and from B to D.  A third run, above 0.5,
    masks B: it removes the first of the two flows, skips the second
    because a flow of that id is removed already, and deletes B.  The
    flow from B to D stays and refers to the deleted task. *)
Theorem rerun_leaves_dangling_flow :
  docStages2
  = {| d_process :=
         [PTask (mkTask "A" nan); PTask (mkTask "B" 0.5%float); PTask (mkTask "D" nan);
          PFlow (mkFlow "AutoFlow_1" "A" "B" None);
          PFlow (mkFlow "AutoFlow_1" "B" "D" None)];
       d_plane := Some [] |} /\
  "B" ∈ maskedOf docStages2 0.5%float "above" /\
  (forall t, PTask t ∈ finalProc docStages2 0.5%float "above" -> t_id t <> "B") /\
  PFlow (mkFlow "AutoFlow_1" "B" "D" None) ∈ finalProc docStages2 0.5%float "above".
Proof.
  split_and!.
  - vm_compute. reflexivity.
  - in_list.
  - intros t Ht%list_elem_of_In. vm_compute in Ht.
    destruct Ht as [Ht|[Ht|[Ht|[Ht|[]]]]]; inversion Ht; subst; discriminate.
  - in_list.
Qed.

Lemma docChain_wellIdentified : wellIdentified docChain 0.5%float "above".
Proof.
  split; [by_compute|].
  intros f Hf%list_elem_of_In. vm_compute in Hf.
  destruct Hf as [<-|[<-|[<-|[]]]]; discriminate.
Defined.

Lemma no_dangling_references_witness :
  (forall f, PFlow f ∈ finalProc docChain 0.5%float "above" ->
     f_src f ∉ maskedOf docChain 0.5%float "above" /\
     f_tgt f ∉ maskedOf docChain 0.5%float "above") /\
  (forall a, PAssoc a ∈ finalProc docChain 0.5%float "above" ->
     a_src a ∉ maskedOf docChain 0.5%float "above" /\
     a_tgt a ∉ maskedOf docChain 0.5%float "above") /\
  (forall i be b, DShape i be b ∈ finalPlane docChain 0.5%float "above" ->
     be ∉ maskedOf docChain 0.5%float "above") /\
  (forall f, PFlow f ∈ d_process docChain ->
     f_src f ∈ maskedOf docChain 0.5%float "above" \/
     f_tgt f ∈ maskedOf docChain 0.5%float "above" ->
     PFlow f ∉ finalProc docChain 0.5%float "above" /\
     (forall a, PAssoc a ∈ finalProc docChain 0.5%float "above" ->
        a_src a <> f_id f /\ a_tgt a <> f_id f) /\
     (forall i be w, DEdge i be w ∈ finalPlane docChain 0.5%float "above" ->
        be <> f_id f)).
Proof.
  exact (no_dangling_references docChain 0.5%float "above" docChain_wellIdentified).
Defined.

(** Five activities in a row, the middle flow weak. *)
Definition procRow : list PNode :=
  [PTask (mkTask "A" nan); PTask (mkTask "B" nan); PTask (mkTask "C" nan);
   PTask (mkTask "D" nan); PTask (mkTask "E" nan);
   PFlow (mkFlow "ab" "A" "B" (Some 0.875%float));
   PFlow (mkFlow "bc" "B" "C" (Some 0.875%float));
   PFlow (mkFlow "cd" "C" "D" (Some 0.5%float));
   PFlow (mkFlow "de" "D" "E" (Some 0.875%float));
   PFlow (mkFlow "x" "E" "A" None)].

Example procRow_fragments :
  fragmentComps procRow 0.75%float true = [[0; 1; 2]; [3; 4]] /\
  fragmentComps procRow 0.25%float true = [[0; 1; 2; 3; 4]] /\
  fragmentComps procRow 0.875%float false = [[0; 1; 2]; [3; 4]] /\
  fragmentComps procRow 1%float false = [].
Proof. vm_compute. done. Qed.

Lemma fragment_groups_are_components_witness :
  2 ∈ [0; 1; 2] <-> component (getTaskList procRow) (selectFlows procRow) 0.75%float 0 2.
Proof.
  apply (fragment_groups_are_components procRow 0.75%float); in_list.
Defined.

(** ** The cleanup pass and the annotation of a fragment *)

(** What [fragmentByCoupling] writes for a process with the single task
    T1 (singletons included): the group, its member association, the text
    annotation with its association, and their diagram elements. *)
Definition docFragmented : Doc :=
  {| d_process :=
       [PTask (mkTask "T1" nan);
        PGroup (mkGroup "Fragment_1" (Some "Fragment_1"));
        PAssoc (mkAssoc "Fragment_1_A_T1" "Fragment_1" "T1");
        PAnnot "Fragment_1_TA" "Fragment_1 size=1";
        PAssoc (mkAssoc "Fragment_1_TA_Assoc" "Fragment_1_TA" "Fragment_1")];
     d_plane :=
       Some [DShape "Fragment_1_di" "Fragment_1" (Some (mkBounds 76 76 148 128));
             DShape "Fragment_1_TA_di" "Fragment_1_TA" (Some (mkBounds 76 28 160 40));
             DEdge "Fragment_1_TA_Assoc_di" "Fragment_1_TA_Assoc"
                   [(156%float, 76%float); (150%float, 68%float)]] |}.

(** C6 is not met by the cleanup pass: it removes both associations of the
    annotation it finds on a fragmented document and keeps the annotation,
    which is left with no association (and without its shape). *)
Theorem cleanup_orphans_annotation (absentIsNull : bool) :
  countAssociationsTouching (d_process docFragmented) "Fragment_1_TA" = 1 /\
  clearOldFragments absentIsNull docFragmented
  = {| d_process := [PTask (mkTask "T1" nan); PAnnot "Fragment_1_TA" "Fragment_1 size=1"];
       d_plane := Some [DEdge "Fragment_1_TA_Assoc_di" "Fragment_1_TA_Assoc"
                              [(156%float, 76%float); (150%float, 68%float)]] |} /\
  "Fragment_1_TA" ∈ selectAnnotIds (d_process (clearOldFragments absentIsNull docFragmented)) /\
  countAssociationsTouching
    (d_process (clearOldFragments absentIsNull docFragmented)) "Fragment_1_TA" = 0.
Proof.
  destruct absentIsNull; (split_and!; [reflexivity|reflexivity|in_list|reflexivity]).
Qed.

(** * Further properties of the script *)

(** ** The order of binary64 numbers *)

Lemma compare_cont_spec m1 m2 :
  match PosDef.Pos.compare_cont Eq m1 m2 with
  | Eq => m1 = m2
  | Lt => (m1 < m2)%positive
  | Gt => (m2 < m1)%positive
  end.
Proof.
  change (PosDef.Pos.compare_cont Eq m1 m2) with (Pos.compare m1 m2).
  destruct (Pos.compare_spec m1 m2); auto.
Qed.

Ltac cmp_pos m1 m2 :=
  let E := fresh "E" in
  pose proof (compare_cont_spec m1 m2) as E;
  destruct (PosDef.Pos.compare_cont Eq m1 m2).

Lemma SFcompare_swap x y : SFcompare y x = option_map CompOpp (SFcompare x y).
Proof.
  destruct x as [[]|[]| |[] m1 e1], y as [[]|[]| |[] m2 e2]; cbn; try reflexivity;
    destruct (Z.compare_spec e1 e2), (Z.compare_spec e2 e1); try lia; try reflexivity; subst;
    cmp_pos m1 m2; cmp_pos m2 m1; try lia; try reflexivity.
Qed.

Lemma SFleb_trans x y z : SFleb x y = true -> SFleb y z = true -> SFleb x z = true.
Proof.
  unfold SFleb.
  destruct x as [[]|[]| |[] m1 e1], y as [[]|[]| |[] m2 e2], z as [[]|[]| |[] m3 e3];
    cbn; try (intros; congruence);
    destruct (Z.compare_spec e1 e2), (Z.compare_spec e2 e3), (Z.compare_spec e1 e3);
    try (intros; congruence); try lia; subst;
    cmp_pos m1 m2; cmp_pos m2 m3; cmp_pos m1 m3;
    cbn; try (intros; congruence); try lia.
Qed.

Lemma SFltb_leb_trans x y z : SFltb x y = true -> SFleb y z = true -> SFltb x z = true.
Proof.
  unfold SFleb, SFltb.
  destruct x as [[]|[]| |[] m1 e1], y as [[]|[]| |[] m2 e2], z as [[]|[]| |[] m3 e3];
    cbn; try (intros; congruence);
    destruct (Z.compare_spec e1 e2), (Z.compare_spec e2 e3), (Z.compare_spec e1 e3);
    try (intros; congruence); try lia; subst;
    cmp_pos m1 m2; cmp_pos m2 m3; cmp_pos m1 m3;
    cbn; try (intros; congruence); try lia.
Qed.

Lemma is_nan_spec x : PrimFloat.is_nan x = true <-> Prim2SF x = S754_nan.
Proof.
  unfold PrimFloat.is_nan. rewrite FloatAxioms.eqb_spec. unfold SFeqb.
  destruct (Prim2SF x) as [[]|[]| |[] m e]; cbn; try done;
    rewrite Z.compare_refl; cmp_pos m m; cbn; try done; lia.
Qed.

Lemma is_nan_false x : PrimFloat.is_nan x = false <-> Prim2SF x <> S754_nan.
Proof. rewrite <- is_nan_spec. by destruct (PrimFloat.is_nan x). Qed.

Lemma leb_trans x y z :
  PrimFloat.leb x y = true -> PrimFloat.leb y z = true -> PrimFloat.leb x z = true.
Proof. rewrite !leb_spec. apply SFleb_trans. Qed.

Lemma ltb_leb_trans x y z :
  PrimFloat.ltb x y = true -> PrimFloat.leb y z = true -> PrimFloat.ltb x z = true.
Proof. rewrite !ltb_spec, leb_spec. apply SFltb_leb_trans. Qed.

Lemma ltb_leb x y : PrimFloat.ltb x y = true -> PrimFloat.leb x y = true.
Proof.
  rewrite ltb_spec, leb_spec. unfold SFltb, SFleb.
  by destruct (SFcompare _ _) as [[]|].
Qed.

Lemma leb_refl x : PrimFloat.is_nan x = false -> PrimFloat.leb x x = true.
Proof.
  unfold PrimFloat.is_nan. rewrite FloatAxioms.eqb_spec, leb_spec. unfold SFeqb, SFleb.
  by destruct (SFcompare _ _) as [[]|].
Qed.

Lemma leb_not_nan x y :
  PrimFloat.leb x y = true -> PrimFloat.is_nan x = false /\ PrimFloat.is_nan y = false.
Proof.
  rewrite leb_spec, !is_nan_false. unfold SFleb.
  destruct (Prim2SF x) as [[]|[]| |[] m1 e1], (Prim2SF y) as [[]|[]| |[] m2 e2]; done.
Qed.

(** Of two numbers, neither [NaN], one is at most the other. *)
Lemma leb_total x y :
  PrimFloat.is_nan x = false -> PrimFloat.is_nan y = false ->
  PrimFloat.ltb y x = false -> PrimFloat.leb x y = true.
Proof.
  rewrite !is_nan_false, ltb_spec, leb_spec. unfold SFltb, SFleb.
  rewrite (SFcompare_swap (Prim2SF x) (Prim2SF y)).
  destruct (Prim2SF x) as [[]|[]| |[] m1 e1], (Prim2SF y) as [[]|[]| |[] m2 e2];
    try done; cbn; intros _ _;
    destruct (Z.compare_spec e1 e2); try done; cmp_pos m1 m2; done.
Qed.

Lemma zeros_leb x y :
  PrimFloat.is_zero x = true -> PrimFloat.is_zero y = true -> PrimFloat.leb x y = true.
Proof.
  unfold PrimFloat.is_zero. rewrite !FloatAxioms.eqb_spec, leb_spec.
  change (Prim2SF PrimFloat.zero) with (S754_zero false). unfold SFeqb, SFleb.
  destruct (Prim2SF x) as [[]|[]| |[] m1 e1], (Prim2SF y) as [[]|[]| |[] m2 e2]; done.
Qed.

Lemma isNegZero_zero x : isNegZero x = true -> PrimFloat.is_zero x = true.
Proof.
  unfold isNegZero, PrimFloat.is_zero.
  rewrite classify_spec, FloatAxioms.eqb_spec.
  change (Prim2SF PrimFloat.zero) with (S754_zero false). unfold SF64classify, SFclassify.
  destruct (Prim2SF x) as [[]|[]| |[] m e]; try done; by destruct (_ =? _)%Z.
Qed.

Lemma isPosZero_zero x : isPosZero x = true -> PrimFloat.is_zero x = true.
Proof.
  unfold isPosZero, PrimFloat.is_zero.
  rewrite classify_spec, FloatAxioms.eqb_spec.
  change (Prim2SF PrimFloat.zero) with (S754_zero false). unfold SF64classify, SFclassify.
  destruct (Prim2SF x) as [[]|[]| |[] m e]; try done; by destruct (_ =? _)%Z.
Qed.

(** ** [Math.min], [Math.max] and [clamp] *)

Lemma Math_min_spec a b :
  PrimFloat.is_nan a = false -> PrimFloat.is_nan b = false ->
  (Math_min a b = a \/ Math_min a b = b) /\
  PrimFloat.leb (Math_min a b) a = true /\ PrimFloat.leb (Math_min a b) b = true.
Proof.
  intros Ha Hb. unfold Math_min. rewrite Ha, Hb. cbn [orb].
  destruct (PrimFloat.ltb b a) eqn:E.
  { split_and!; [by right|by apply ltb_leb|by apply leb_refl]. }
  destruct (isNegZero b && isPosZero a) eqn:Z.
  { apply andb_true_iff in Z as [Zb%isNegZero_zero Za%isPosZero_zero].
    split_and!; [by right|by apply zeros_leb|by apply leb_refl]. }
  split_and!; [by left|by apply leb_refl|by apply leb_total].
Qed.

Lemma Math_max_spec a b :
  PrimFloat.is_nan a = false -> PrimFloat.is_nan b = false ->
  (Math_max a b = a \/ Math_max a b = b) /\
  PrimFloat.leb a (Math_max a b) = true /\ PrimFloat.leb b (Math_max a b) = true.
Proof.
  intros Ha Hb. unfold Math_max. rewrite Ha, Hb. cbn [orb].
  destruct (PrimFloat.ltb a b) eqn:E.
  { split_and!; [by right|by apply ltb_leb|by apply leb_refl]. }
  destruct (isPosZero b && isNegZero a) eqn:Z.
  { apply andb_true_iff in Z as [Zb%isPosZero_zero Za%isNegZero_zero].
    split_and!; [by right|by apply zeros_leb|by apply leb_refl]. }
  split_and!; [by left|by apply leb_refl|by apply leb_total].
Qed.

Lemma Math_min_nan a b :
  PrimFloat.is_nan a = true \/ PrimFloat.is_nan b = true -> Math_min a b = nan.
Proof. unfold Math_min. by intros [-> | ->]; rewrite ?orb_true_r. Qed.

Lemma Math_max_nan a b :
  PrimFloat.is_nan a = true \/ PrimFloat.is_nan b = true -> Math_max a b = nan.
Proof. unfold Math_max. by intros [-> | ->]; rewrite ?orb_true_r. Qed.

Lemma clamp_bounds v a b :
  PrimFloat.is_nan v = false -> PrimFloat.leb a b = true ->
  PrimFloat.leb a (clamp v a b) = true /\ PrimFloat.leb (clamp v a b) b = true.
Proof.
  intros Hv Hab. destruct (leb_not_nan _ _ Hab) as [Ha Hb]. unfold clamp.
  destruct (Math_min_spec b v Hb Hv) as (Hm & Hmb & Hmv).
  assert (Hmn : PrimFloat.is_nan (Math_min b v) = false) by (by destruct Hm as [-> | ->]).
  destruct (Math_max_spec a (Math_min b v) Ha Hmn) as ([-> | ->] & Hra & Hrm); done.
Qed.

Lemma leb_antisym x y :
  PrimFloat.leb x y = true -> PrimFloat.leb y x = true -> PrimFloat.eqb x y = true.
Proof.
  rewrite !leb_spec, FloatAxioms.eqb_spec. unfold SFleb, SFeqb.
  rewrite (SFcompare_swap (Prim2SF x) (Prim2SF y)).
  by destruct (SFcompare _ _) as [[]|].
Qed.

(** X1.  [clamp(v, a, b)] of a number [v] and an interval with [a <= b] lies in
    the interval, and is [v] itself (up to the sign of zero) when [v]
    already does. *)
Theorem clamp_within (v a b : float) :
  PrimFloat.is_nan v = false -> PrimFloat.leb a b = true ->
  PrimFloat.leb a (clamp v a b) = true /\
  PrimFloat.leb (clamp v a b) b = true /\
  (PrimFloat.leb a v = true -> PrimFloat.leb v b = true ->
   PrimFloat.eqb (clamp v a b) v = true).
Proof.
  intros Hv Hab. destruct (clamp_bounds v a b Hv Hab) as [H1 H2].
  split_and!; [done..|]. intros Hav Hvb.
  destruct (leb_not_nan _ _ Hab) as [Ha Hb]. unfold clamp.
  destruct (Math_min_spec b v Hb Hv) as (Hm & Hmb & Hmv).
  assert (Hmn : PrimFloat.is_nan (Math_min b v) = false) by (by destruct Hm as [-> | ->]).
  assert (Hvm : PrimFloat.leb v (Math_min b v) = true).
  { destruct Hm as [-> | ->]; [done|by apply leb_refl]. }
  destruct (Math_max_spec a (Math_min b v) Ha Hmn) as (Hr & Hra & Hrm).
  apply leb_antisym; [|by eapply leb_trans].
  destruct Hr as [-> | ->]; done.
Qed.

Lemma clamp_within_witness :
  PrimFloat.leb 0 (clamp 5 0 1) = true /\
  PrimFloat.leb (clamp 5 0 1) 1 = true /\
  (PrimFloat.leb 0 5 = true -> PrimFloat.leb 5 1 = true ->
   PrimFloat.eqb (clamp 5 0 1) 5 = true).
Proof. apply (clamp_within 5 0 1); reflexivity. Defined.

(** ** The anchor of an edge *)

(** X2.  For a rectangle whose sides are well ordered and a target point with
    numeric coordinates, [edgeAnchor] returns a point of the rectangle
    that lies on one of its four sides. *)
Theorem edgeAnchor_on_border (b : Bounds) (tx ty : float) :
  PrimFloat.is_nan tx = false -> PrimFloat.is_nan ty = false ->
  PrimFloat.leb (b_x b) (b_x b + b_w b) = true ->
  PrimFloat.leb (b_y b) (b_y b + b_h b) = true ->
  PrimFloat.leb (b_x b) (edgeAnchor b tx ty).1 = true /\
  PrimFloat.leb (edgeAnchor b tx ty).1 (b_x b + b_w b) = true /\
  PrimFloat.leb (b_y b) (edgeAnchor b tx ty).2 = true /\
  PrimFloat.leb (edgeAnchor b tx ty).2 (b_y b + b_h b) = true /\
  ((edgeAnchor b tx ty).1 = b_x b \/
   (edgeAnchor b tx ty).1 = (b_x b + b_w b)%float \/
   (edgeAnchor b tx ty).2 = b_y b \/
   (edgeAnchor b tx ty).2 = (b_y b + b_h b)%float).
Proof.
  intros Htx Hty Hx Hy.
  destruct (leb_not_nan _ _ Hx) as [Hx0 Hx1], (leb_not_nan _ _ Hy) as [Hy0 Hy1].
  destruct (clamp_bounds tx _ _ Htx Hx) as [Cx0 Cx1].
  destruct (clamp_bounds ty _ _ Hty Hy) as [Cy0 Cy1].
  unfold edgeAnchor. cbn [rectFromBoundsEl r_x r_y r_w r_h r_cx r_cy].
  destruct (PrimFloat.leb (PrimFloat.abs _) (PrimFloat.abs _));
    destruct (PrimFloat.leb 0 _); cbn [fst snd];
    split_and!; auto using leb_refl.
Qed.

Lemma edgeAnchor_on_border_witness :
  PrimFloat.leb 0 (edgeAnchor (mkBounds 0 0 10 10) 20 5).1 = true /\
  PrimFloat.leb (edgeAnchor (mkBounds 0 0 10 10) 20 5).1 (0 + 10) = true /\
  PrimFloat.leb 0 (edgeAnchor (mkBounds 0 0 10 10) 20 5).2 = true /\
  PrimFloat.leb (edgeAnchor (mkBounds 0 0 10 10) 20 5).2 (0 + 10) = true /\
  ((edgeAnchor (mkBounds 0 0 10 10) 20 5).1 = 0%float \/
   (edgeAnchor (mkBounds 0 0 10 10) 20 5).1 = (0 + 10)%float \/
   (edgeAnchor (mkBounds 0 0 10 10) 20 5).2 = 0%float \/
   (edgeAnchor (mkBounds 0 0 10 10) 20 5).2 = (0 + 10)%float).
Proof. apply (edgeAnchor_on_border (mkBounds 0 0 10 10) 20 5); reflexivity. Defined.

(** ** The bounding box of a fragment *)

Lemma foldl_min_spec (xs : list float) (a0 : float) :
  (forall x, x ∈ xs -> PrimFloat.is_nan x = false) -> PrimFloat.is_nan a0 = false ->
  PrimFloat.is_nan (foldl Math_min a0 xs) = false /\
  PrimFloat.leb (foldl Math_min a0 xs) a0 = true /\
  forall x, x ∈ xs -> PrimFloat.leb (foldl Math_min a0 xs) x = true.
Proof.
  revert a0. induction xs as [|y xs IH]; intros a0 Hxs Ha; cbn [foldl].
  - split_and!; [done|by apply leb_refl|by intros x ?%elem_of_nil].
  - assert (Hy : PrimFloat.is_nan y = false) by (apply Hxs; left).
    destruct (Math_min_spec a0 y Ha Hy) as (Hm & Hma & Hmy).
    assert (Hmn : PrimFloat.is_nan (Math_min a0 y) = false) by (by destruct Hm as [-> | ->]).
    destruct (IH (Math_min a0 y)) as (Hn & Hle & Hall); [intros; apply Hxs; by right|done|].
    split_and!; [done|by eapply leb_trans|].
    intros x [->|Hx]%elem_of_cons; [by eapply leb_trans|by apply Hall].
Qed.

Lemma foldl_max_spec (xs : list float) (a0 : float) :
  (forall x, x ∈ xs -> PrimFloat.is_nan x = false) -> PrimFloat.is_nan a0 = false ->
  PrimFloat.is_nan (foldl Math_max a0 xs) = false /\
  PrimFloat.leb a0 (foldl Math_max a0 xs) = true /\
  forall x, x ∈ xs -> PrimFloat.leb x (foldl Math_max a0 xs) = true.
Proof.
  revert a0. induction xs as [|y xs IH]; intros a0 Hxs Ha; cbn [foldl].
  - split_and!; [done|by apply leb_refl|by intros x ?%elem_of_nil].
  - assert (Hy : PrimFloat.is_nan y = false) by (apply Hxs; left).
    destruct (Math_max_spec a0 y Ha Hy) as (Hm & Hma & Hmy).
    assert (Hmn : PrimFloat.is_nan (Math_max a0 y) = false) by (by destruct Hm as [-> | ->]).
    destruct (IH (Math_max a0 y)) as (Hn & Hle & Hall); [intros; apply Hxs; by right|done|].
    split_and!; [done|by eapply leb_trans|].
    intros x [->|Hx]%elem_of_cons; [by eapply leb_trans|by apply Hall].
Qed.

Lemma bboxOf_fold bmap (ids : list string) bb :
  let r := foldl (bboxStep bmap) bb ids in
  minx r = foldl Math_min (minx bb) ((fun i => b_x (memberBounds bmap i)) <$> ids) /\
  miny r = foldl Math_min (miny bb) ((fun i => b_y (memberBounds bmap i)) <$> ids) /\
  maxx r = foldl Math_max (maxx bb)
             ((fun i => (b_x (memberBounds bmap i) + b_w (memberBounds bmap i))%float) <$> ids) /\
  maxy r = foldl Math_max (maxy bb)
             ((fun i => (b_y (memberBounds bmap i) + b_h (memberBounds bmap i))%float) <$> ids).
Proof.
  revert bb. induction ids as [|i ids IH]; intros bb; cbn [foldl fmap list_fmap]; [done|].
  apply (IH (bboxStep bmap bb i)).
Qed.

(** X3.  When the corners of all members are numbers, the box computed for a
    fragment (before the padding is added) contains the rectangle of every
    member. *)
Theorem bbox_contains_members (bmap : gmap string Bounds) (ids : list string) (i : string) :
  (forall j, j ∈ ids -> numericBounds (memberBounds bmap j)) -> i ∈ ids ->
  PrimFloat.leb (minx (bboxOf bmap ids)) (b_x (memberBounds bmap i)) = true /\
  PrimFloat.leb (miny (bboxOf bmap ids)) (b_y (memberBounds bmap i)) = true /\
  PrimFloat.leb (b_x (memberBounds bmap i) + b_w (memberBounds bmap i))
                (maxx (bboxOf bmap ids)) = true /\
  PrimFloat.leb (b_y (memberBounds bmap i) + b_h (memberBounds bmap i))
                (maxy (bboxOf bmap ids)) = true.
Proof.
  intros Hnum Hi. unfold bboxOf.
  destruct (bboxOf_fold bmap ids
              {| minx := infinity; miny := infinity;
                 maxx := neg_infinity; maxy := neg_infinity |}) as (-> & -> & -> & ->).
  cbn [minx miny maxx maxy].
  split_and!.
  - eapply foldl_min_spec; [|done|apply list_elem_of_fmap; by exists i].
    intros x (j & -> & Hj)%list_elem_of_fmap. by destruct (Hnum j Hj) as (? & ? & ? & ?).
  - eapply foldl_min_spec; [|done|apply list_elem_of_fmap; by exists i].
    intros x (j & -> & Hj)%list_elem_of_fmap. by destruct (Hnum j Hj) as (? & ? & ? & ?).
  - eapply foldl_max_spec; [|done|apply list_elem_of_fmap; by exists i].
    intros x (j & -> & Hj)%list_elem_of_fmap. by destruct (Hnum j Hj) as (? & ? & ? & ?).
  - eapply foldl_max_spec; [|done|apply list_elem_of_fmap; by exists i].
    intros x (j & -> & Hj)%list_elem_of_fmap. by destruct (Hnum j Hj) as (? & ? & ? & ?).
Qed.

(** ** The two lookups of a shape's bounds *)

Lemma boundsMap_snoc pl n :
  boundsMap (pl ++ [n])
  = match n with
    | DShape _ elId (Some b) =>
        if String.eqb elId "" then boundsMap pl else <[elId := b]> (boundsMap pl)
    | _ => boundsMap pl
    end.
Proof. unfold boundsMap. by rewrite foldl_app. Qed.

Lemma boundsMap_last (pl : list DINode) (elId : string) :
  boundsMap pl !! elId
  = (if String.eqb elId "" then None else last (omap (shapeBounds elId) pl)).
Proof.
  induction pl as [|n pl IH] using rev_ind.
  { unfold boundsMap. cbn. rewrite lookup_empty. by destruct (String.eqb elId ""). }
  rewrite boundsMap_snoc, omap_app.
  destruct n as [i be [b|]|i be w]; cbn [omap list_omap shapeBounds];
    rewrite ?app_nil_r; try done.
  destruct (String.eqb_spec be elId) as [E|Hne].
  - subst be. destruct (String.eqb_spec elId "") as [E|Hne]; [done|].
    by rewrite lookup_insert_eq, last_snoc.
  - rewrite app_nil_r. destruct (String.eqb_spec be "") as [E|Hbe]; [done|].
    by rewrite lookup_insert_ne.
Qed.

Lemma shapeBounds_Some elId n b :
  shapeBounds elId n = Some b <-> exists i, n = DShape i elId (Some b).
Proof.
  split.
  - destruct n as [i be [b'|]|]; cbn; try done.
    destruct (String.eqb_spec be elId) as [->|]; [|done]. intros [= ->]. by exists i.
  - intros [i ->]. cbn. by rewrite String.eqb_refl.
Qed.

Lemma omap_shapeBounds_nil elId pl :
  omap (shapeBounds elId) pl = [] <-> noShapeFor elId pl.
Proof.
  unfold noShapeFor. induction pl as [|n pl IH].
  { split; [by intros _ i b ?%elem_of_nil|done]. }
  rewrite omap_cons'. destruct (shapeBounds elId n) as [b|] eqn:E.
  - split; [done|]. intros H. apply shapeBounds_Some in E as [i ->].
    exfalso. apply (H i b). left.
  - rewrite IH. split.
    + intros H i b [<-|Hin]%elem_of_cons; [|by eapply H].
      cbn in E. by rewrite String.eqb_refl in E.
    + intros H i b Hin. apply (H i b). by right.
Qed.

Lemma head_omap_Some {A B} (sel : A -> option B) (l : list A) b :
  head (omap sel l) = Some b <->
  exists l1 x l2, l = l1 ++ x :: l2 /\ sel x = Some b /\ omap sel l1 = [].
Proof.
  induction l as [|y l IH].
  - split; [done|]. intros (l1 & x & l2 & E & _). by destruct l1.
  - rewrite omap_cons'. destruct (sel y) as [c|] eqn:Ey.
    + cbn [head]. split.
      * intros [= ->]. by exists [], y, l.
      * intros ([|z l1] & x & l2 & E & Hx & Hn); inversion E; subst; [congruence|].
        rewrite omap_cons', Ey in Hn. done.
    + rewrite IH. split.
      * intros (l1 & x & l2 & -> & Hx & Hn). exists (y :: l1), x, l2.
        split_and!; [done..|]. by rewrite omap_cons', Ey.
      * intros ([|z l1] & x & l2 & E & Hx & Hn); inversion E; subst; [congruence|].
        exists l1, x, l2. split_and!; [done..|]. rewrite omap_cons', Ey in Hn. done.
Qed.

Lemma last_omap_Some {A B} (sel : A -> option B) (l : list A) b :
  last (omap sel l) = Some b <->
  exists l1 x l2, l = l1 ++ x :: l2 /\ sel x = Some b /\ omap sel l2 = [].
Proof.
  induction l as [|y l IH] using rev_ind.
  - split; [done|]. intros (l1 & x & l2 & E & _). by destruct l1.
  - rewrite omap_app, omap_cons'. cbn [omap list_omap].
    destruct (sel y) as [c|] eqn:Ey.
    + rewrite last_snoc. split.
      * intros [= ->]. exists l, y, []. by rewrite Ey.
      * intros (l1 & x & l2 & E & Hx & Hn).
        destruct l2 as [|z l2 _] using rev_ind.
        -- apply app_inj_tail in E as [_ <-]. congruence.
        -- rewrite app_comm_cons, app_assoc in E. apply app_inj_tail in E as [_ <-].
           rewrite omap_app, omap_cons', Ey in Hn. by destruct (omap sel l2).
    + rewrite app_nil_r, IH. split.
      * intros (l1 & x & l2 & -> & Hx & Hn). exists l1, x, (l2 ++ [y]).
        split_and!; [by rewrite <- app_assoc|done|].
        by rewrite omap_app, omap_cons', Ey, Hn.
      * intros (l1 & x & l2 & E & Hx & Hn).
        destruct l2 as [|z l2 _] using rev_ind.
        -- apply app_inj_tail in E as [_ <-]. congruence.
        -- rewrite app_comm_cons, app_assoc in E. apply app_inj_tail in E as [-> <-].
           exists l1, x, l2. split_and!; [done..|].
           rewrite omap_app in Hn. by destruct (omap sel l2).
Qed.

(** X4.  [boundsMap], used by fragmentation, never holds the empty id and
    gives for an element the bounds of the last shape with bounds that
    names it; the XPath lookup used for bypass edges and annotation edges
    gives those of the first such shape. *)
Theorem boundsMap_last_boundsFor_first (pl : list DINode) (elId : string) (b : Bounds) :
  (boundsMap pl !! elId = Some b <->
   elId <> "" /\
   exists pl1 i pl2, pl = pl1 ++ DShape i elId (Some b) :: pl2 /\ noShapeFor elId pl2) /\
  (boundsFor pl elId = Some b <->
   exists pl1 i pl2, pl = pl1 ++ DShape i elId (Some b) :: pl2 /\ noShapeFor elId pl1).
Proof.
  split.
  - rewrite boundsMap_last. destruct (String.eqb_spec elId "") as [->|Hne].
    { split; [done|]. by intros [? _]. }
    rewrite last_omap_Some. split.
    + intros (l1 & x & l2 & -> & [i ->]%shapeBounds_Some & Hn%omap_shapeBounds_nil).
      split; [done|]. by exists l1, i, l2.
    + intros (_ & l1 & i & l2 & -> & Hn). exists l1, (DShape i elId (Some b)), l2.
      split_and!; [done| |by apply omap_shapeBounds_nil].
      apply shapeBounds_Some. by exists i.
  - change (boundsFor pl elId) with (head (omap (shapeBounds elId) pl)).
    rewrite head_omap_Some. split.
    + intros (l1 & x & l2 & -> & [i ->]%shapeBounds_Some & Hn%omap_shapeBounds_nil).
      by exists l1, i, l2.
    + intros (l1 & i & l2 & -> & Hn). exists l1, (DShape i elId (Some b)), l2.
      split_and!; [done| |by apply omap_shapeBounds_nil].
      apply shapeBounds_Some. by exists i.
Qed.

(** ** What fragmentation writes *)

Definition taAssoc (fid : string) : Assoc :=
  {| a_id := fid +:+ "_TA_Assoc"; a_src := fid +:+ "_TA"; a_tgt := fid |}.

(** The process children written for one component. *)
Definition fragmentNodes (tasks : list Task) (it : nat * list nat) : list PNode :=
  [PGroup {| g_id := fragId it.1; g_fragmentId := Some (fragId it.1) |}] ++
  (PAssoc <$> (memberAssoc (fragId it.1) <$> memberIdsOf tasks it.2)) ++
  [annotOf it.1 (length it.2); PAssoc (taAssoc (fragId it.1))].

Lemma addMembers_spec fid (mids : list string) s :
  let s' := foldl (fun s mid => appendChild (PAssoc (memberAssoc fid mid)) s) s mids in
  proc s' = proc s ++ (PAssoc <$> (memberAssoc fid <$> mids)) /\ plane s' = plane s.
Proof.
  revert s. induction mids as [|m mids IH]; intros s; cbn [foldl fmap list_fmap].
  - by rewrite app_nil_r.
  - destruct (IH (appendChild (PAssoc (memberAssoc fid m)) s)) as [-> ->].
    cbn [appendChild proc plane]. by rewrite <- app_assoc.
Qed.

Lemma boundsFor_app_Some pl1 pl2 elId b :
  boundsFor pl2 elId = Some b -> is_Some (boundsFor (pl1 ++ pl2) elId).
Proof.
  unfold boundsFor. rewrite omap_app. intros H.
  destruct (omap _ pl1) as [|b1 l1]; cbn; [by rewrite H|done].
Qed.

Lemma addText_spec gid label x y s :
  is_Some (boundsFor (plane s) gid) ->
  proc (addTextAnnotationForGroup gid label x y s)
  = proc s ++ [PAnnot (gid +:+ "_TA") label; PAssoc (taAssoc gid)] /\
  exists tb w,
    plane (addTextAnnotationForGroup gid label x y s)
    = plane s ++ [DShape ((gid +:+ "_TA") +:+ "_di") (gid +:+ "_TA") (Some tb);
                  DEdge (gid +:+ "_TA_Assoc_di") (gid +:+ "_TA_Assoc") w].
Proof.
  intros [gb Hgb]. unfold addTextAnnotationForGroup. cbv zeta.
  set (s3 := appendDI _ _).
  assert (Hs3 : is_Some (boundsFor (plane s3) gid)).
  { unfold s3. cbn [appendDI appendChild plane]. unfold boundsFor. rewrite omap_app.
    unfold boundsFor in Hgb. destruct (omap _ (plane s)); [done|]. by eexists. }
  destruct Hs3 as [gb' ->]. cbn [appendDI appendChild proc plane s3] in *.
  unfold s3. cbn [appendDI appendChild proc plane].
  split; [by rewrite <- app_assoc|]. eexists _, _. by rewrite <- app_assoc.
Qed.

Lemma boundsFor_own pl i elId b : is_Some (boundsFor (pl ++ [DShape i elId (Some b)]) elId).
Proof.
  apply (boundsFor_app_Some pl _ elId b). unfold boundsFor. cbn.
  by rewrite String.eqb_refl.
Qed.

(** One component: the process grows by its nodes, the plane by the two
    shapes and the edge of the annotation's association. *)
Lemma fragmentStep_spec tasks bmap s it :
  proc (fragmentStep tasks bmap s it) = proc s ++ fragmentNodes tasks it /\
  exists gb tb w,
    plane (fragmentStep tasks bmap s it)
    = plane s ++ [DShape (fragId it.1 +:+ "_di") (fragId it.1) (Some gb);
                  DShape ((fragId it.1 +:+ "_TA") +:+ "_di") (fragId it.1 +:+ "_TA") (Some tb);
                  DEdge (fragId it.1 +:+ "_TA_Assoc_di") (fragId it.1 +:+ "_TA_Assoc") w].
Proof.
  unfold fragmentStep. cbv zeta.
  set (fid := fragId it.1). set (mids := memberIdsOf tasks it.2).
  set (gb := {| b_x := _ |}).
  set (s2 := appendDI (DShape (fid +:+ "_di") fid (Some gb)) _).
  destruct (addMembers_spec fid mids s2) as [Hp Hpl].
  set (s3 := foldl _ s2 mids) in *.
  destruct (addText_spec fid (fid +:+ String "010"%char ("size=" +:+ pretty (length mids)))
              (b_x gb) (b_y gb - 48)%float s3) as (Hp4 & tb & w & Hpl4).
  { rewrite Hpl. unfold s2. cbn [appendDI appendChild plane]. apply boundsFor_own. }
  split.
  - rewrite Hp4, Hp. unfold s2. cbn [appendDI appendChild proc].
    unfold fragmentNodes, annotOf. fold fid. fold mids.
    assert (length mids = length it.2) as -> by apply length_fmap.
    by rewrite <- !app_assoc.
  - exists gb, tb, w. rewrite Hpl4, Hpl. unfold s2. cbn [appendDI appendChild plane].
    by rewrite <- app_assoc.
Qed.

(** The plane children written for the fragment at index [k]. *)
Definition fragmentDI (k : nat) (b : Bounds * Bounds * list (float * float))
  : list DINode :=
  [DShape (fragId k +:+ "_di") (fragId k) (Some b.1.1);
   DShape ((fragId k +:+ "_TA") +:+ "_di") (fragId k +:+ "_TA") (Some b.1.2);
   DEdge (fragId k +:+ "_TA_Assoc_di") (fragId k +:+ "_TA_Assoc") b.2].

Lemma fragmentSteps_spec tasks bmap (its : list (nat * list nat)) s :
  let s' := foldl (fragmentStep tasks bmap) s its in
  proc s' = proc s ++ concat (fragmentNodes tasks <$> its) /\
  exists bs, length bs = length its /\
    plane s' = plane s ++ concat (zip_with fragmentDI its.*1 bs).
Proof.
  revert s. induction its as [|it its IH]; intros s; cbn [foldl fmap list_fmap concat].
  { rewrite app_nil_r. split; [done|]. exists []. by rewrite app_nil_r. }
  destruct (fragmentStep_spec tasks bmap s it) as (Hp & gb & tb & w & Hpl).
  specialize (IH (fragmentStep tasks bmap s it)).
  cbv zeta in IH. destruct IH as (IHp & bs & L & IHpl).
  split.
  - by rewrite IHp, Hp, <- app_assoc.
  - exists ((gb, tb, w) :: bs). cbn [length]. rewrite L. split; [done|].
    rewrite IHpl, Hpl, <- app_assoc. done.
Qed.

Lemma imap_pair_fst {A} (l : list A) : (imap (fun i x => (i, x)) l).*1 = seq 0 (length l).
Proof.
  rewrite fmap_imap. rewrite <- (list_fmap_id (seq 0 (length l))).
  apply (imap_seq_0 l (fun i => i)).
Qed.


(** The run as a whole, on the process. *)
Lemma fragmentRun_proc d thr incl :
  proc (fragmentRun d thr incl)
  = d_process d ++
    concat (fragmentNodes (getTaskList (d_process d))
              <$> imap (fun i g => (i, g)) (fragmentComps (d_process d) thr incl)).
Proof.
  unfold fragmentRun. cbv zeta.
  by destruct (fragmentSteps_spec (getTaskList (d_process d)) (boundsMap (ensurePlane d))
              (imap (fun idx indices => (idx, indices)) (fragmentComps (d_process d) thr incl))
              {| proc := d_process d; plane := ensurePlane d; log := [] |}) as [-> _].
Qed.

Lemma fragmentRun_plane d thr incl :
  exists bs, length bs = length (fragmentComps (d_process d) thr incl) /\
    plane (fragmentRun d thr incl)
    = ensurePlane d ++
      concat (zip_with fragmentDI (seq 0 (length (fragmentComps (d_process d) thr incl))) bs).
Proof.
  unfold fragmentRun. cbv zeta.
  destruct (fragmentSteps_spec (getTaskList (d_process d)) (boundsMap (ensurePlane d))
              (imap (fun idx indices => (idx, indices)) (fragmentComps (d_process d) thr incl))
              {| proc := d_process d; plane := ensurePlane d; log := [] |})
    as (_ & bs & L & ->).
  exists bs. rewrite length_imap in L. by rewrite imap_pair_fst.
Qed.

Lemma omap_concat {A B} (sel : A -> option B) (L : list (list A)) :
  omap sel (concat L) = concat ((fun l : list A => omap sel l) <$> L).
Proof.
  induction L as [|l L IH]; [done|]. cbn [concat fmap list_fmap].
  by rewrite omap_app, IH.
Qed.

Lemma omap_fmap_none {A B C} (sel : B -> option C) (f : A -> B) (l : list A) :
  (forall x, sel (f x) = None) -> omap sel (f <$> l) = [].
Proof.
  intros H. induction l as [|x l IH]; [done|]. cbn [fmap list_fmap].
  rewrite omap_cons', H. exact IH.
Qed.


Lemma concat_nil_all {A} (L : list (list A)) : (forall l, l ∈ L -> l = []) -> concat L = [].
Proof.
  induction L as [|l L IH]; [done|]. intros H. cbn [concat].
  rewrite (H l) by left. apply IH. intros. apply H. by right.
Qed.

(** Fragmentation writes no task and no flow. *)
Lemma fragmentNodes_other {B} (sel : PNode -> option B) tasks it :
  (forall g, sel (PGroup g) = None) -> (forall a, sel (PAssoc a) = None) ->
  (forall i t, sel (PAnnot i t) = None) ->
  omap sel (fragmentNodes tasks it) = [].
Proof.
  intros Hg Ha Hn. unfold fragmentNodes, annotOf. rewrite !omap_app.
  rewrite (omap_fmap_none sel PAssoc) by done.
  by rewrite !omap_cons', Hg, Hn, Ha.
Qed.

Lemma fragmentRun_other {B} (sel : PNode -> option B) d thr incl :
  (forall g, sel (PGroup g) = None) -> (forall a, sel (PAssoc a) = None) ->
  (forall i t, sel (PAnnot i t) = None) ->
  omap sel (proc (fragmentRun d thr incl)) = omap sel (d_process d).
Proof.
  intros Hg Ha Hn. rewrite fragmentRun_proc, omap_app, omap_concat.
  rewrite concat_nil_all; [by rewrite app_nil_r|].
  intros l (l' & -> & (it & -> & _)%list_elem_of_fmap)%list_elem_of_fmap.
  by apply fragmentNodes_other.
Qed.

(** X5.  Fragmentation only appends: the children of the process and of the
    plane stay where they were, ahead of what is written; the activities
    and the flows are the same as before, so that fragmenting the result
    again finds the same components. *)
Theorem fragmentByCoupling_appends (d : Doc) (thr : float) (incl : bool) :
  d_process d `prefix_of` d_process (fragmentByCoupling d thr incl).1 /\
  (exists pl, d_plane (fragmentByCoupling d thr incl).1 = Some pl /\
              ensurePlane d `prefix_of` pl) /\
  getTaskList (d_process (fragmentByCoupling d thr incl).1) = getTaskList (d_process d) /\
  selectFlows (d_process (fragmentByCoupling d thr incl).1) = selectFlows (d_process d) /\
  forall thr' incl',
    fragmentComps (d_process (fragmentByCoupling d thr incl).1) thr' incl'
    = fragmentComps (d_process d) thr' incl'.
Proof.
  unfold fragmentByCoupling. cbn [fst docOf d_process d_plane].
  assert (Ht : getTaskList (proc (fragmentRun d thr incl)) = getTaskList (d_process d))
    by (by apply fragmentRun_other).
  assert (Hf : selectFlows (proc (fragmentRun d thr incl)) = selectFlows (d_process d))
    by (by apply fragmentRun_other).
  split_and!; [| |done|done|].
  - rewrite fragmentRun_proc. by eexists.
  - destruct (fragmentRun_plane d thr incl) as (bs & _ & ->). eexists. split; [done|].
    by eexists.
  - intros thr' incl'. unfold fragmentComps. by rewrite Ht, Hf.
Qed.





Lemma append_assoc' u v w : (u +:+ v) +:+ w = u +:+ (v +:+ w).
Proof.
  induction u as [|c u IH]; [by rewrite !append_nil|].
  by rewrite !append_cons, IH.
Qed.

Lemma fragId_inj k j : fragId k = fragId j -> k = j.
Proof.
  unfold fragId. intros H%(inj (String.app _))%(inj pretty). lia.
Qed.


Lemma isFragmentRef_fragId k s : isFragmentRef (fragId k +:+ s) = true.
Proof.
  unfold isFragmentRef, fragId. rewrite append_assoc'.
  rewrite !append_cons, append_nil. cbn. by destruct (_ +:+ _).
Qed.

Lemma selectGroups_fragmentNodes tasks it :
  selectGroups (fragmentNodes tasks it)
  = [{| g_id := fragId it.1; g_fragmentId := Some (fragId it.1) |}].
Proof.
  unfold selectGroups, fragmentNodes, annotOf. rewrite !omap_app.
  by rewrite (omap_fmap_none _ PAssoc).
Qed.


Lemma concat_singletons {A B C} (f : A -> B) (g : C -> A) (l : list C) :
  concat ((fun x => [f (g x)]) <$> l) = f <$> (g <$> l).
Proof. induction l as [|x l IH]; [done|]. cbn. by rewrite IH. Qed.

Lemma fragId_fragmentName k : fragId k = fragmentName (S k).
Proof. unfold fragId, fragmentName. by rewrite Nat.add_1_r. Qed.

Lemma fragmentName_inj k j : fragmentName k = fragmentName j -> k = j.
Proof. unfold fragmentName. by intros H%(inj (String.app _))%(inj pretty). Qed.

Lemma fragmentName_prefix k : String.prefix "Fragment_" (fragmentName k) = true.
Proof.
  unfold fragmentName. rewrite !append_cons, append_nil. cbn. by destruct (pretty k).
Qed.

(** X6.  The groups written carry the ids Fragment_1, Fragment_2, ..., as id
    and as fragment id, in the order of the components, one for each
    component counted by the result, and the groups already in the
    document stay ahead of them; when the groups of the document have
    distinct ids none of which starts with Fragment_, the groups of the
    result have distinct ids too. *)
Theorem fragment_groups_numbered (d : Doc) (thr : float) (incl : bool) :
  selectGroups (d_process (fragmentByCoupling d thr incl).1)
  = selectGroups (d_process d) ++
    ((fun k => {| g_id := fragmentName k; g_fragmentId := Some (fragmentName k) |})
       <$> seq 1 (fragmentByCoupling d thr incl).2) /\
  (NoDup (g_id <$> selectGroups (d_process d)) ->
   (forall g, g ∈ selectGroups (d_process d) ->
              String.prefix "Fragment_" (g_id g) = false) ->
   NoDup (g_id <$> selectGroups (d_process (fragmentByCoupling d thr incl).1))).
Proof.
  assert (H1 : selectGroups (d_process (fragmentByCoupling d thr incl).1)
    = selectGroups (d_process d) ++
      ((fun k => {| g_id := fragmentName k; g_fragmentId := Some (fragmentName k) |})
         <$> seq 1 (fragmentByCoupling d thr incl).2)).
  { transitivity (selectGroups (d_process d) ++
      ((fun k => {| g_id := fragId k; g_fragmentId := Some (fragId k) |})
         <$> seq 0 (fragmentByCoupling d thr incl).2)).
    - unfold fragmentByCoupling. cbn [fst snd docOf d_process].
      rewrite fragmentRun_proc. unfold selectGroups at 1. rewrite omap_app, omap_concat.
      f_equal. rewrite <- list_fmap_compose.
      rewrite (list_fmap_ext _ (fun it => [{| g_id := fragId it.1;
                                              g_fragmentId := Some (fragId it.1) |}]))
        by (intros; apply selectGroups_fragmentNodes).
      rewrite <- imap_pair_fst.
      apply (concat_singletons
               (fun k => {| g_id := fragId k; g_fragmentId := Some (fragId k) |}) fst).
    - f_equal. rewrite <- fmap_S_seq, <- list_fmap_compose. apply list_fmap_ext.
      intros _ k _. cbn. by rewrite fragId_fragmentName. }
  split; [exact H1|]. intros Hnd Hold. rewrite H1, fmap_app, <- list_fmap_compose.
  apply NoDup_app. split_and!; [done| |].
  - intros x (g & -> & Hg)%list_elem_of_fmap (k & E & _)%list_elem_of_fmap.
    cbn in E. specialize (Hold g Hg). by rewrite E, fragmentName_prefix in Hold.
  - apply NoDup_fmap_2; [|apply NoDup_seq]. intros k j. cbn. apply fragmentName_inj.
Qed.

Lemma isFragmentRef_fragId0 k : isFragmentRef (fragId k) = true.
Proof.
  unfold isFragmentRef, fragId. rewrite !append_cons, append_nil. cbn.
  by destruct (pretty _).
Qed.

Lemma filter_fmap_none {A B} (p : B -> bool) (f : A -> B) (l : list A) :
  (forall x, p (f x) = false) -> List.filter p (f <$> l) = [].
Proof.
  intros H. induction l as [|x l IH]; [done|]. cbn [fmap list_fmap List.filter].
  by rewrite H.
Qed.

Lemma filter_fmap_all {A B} (p : B -> bool) (f : A -> B) (l : list A) :
  (forall x, p (f x) = true) -> List.filter p (f <$> l) = f <$> l.
Proof.
  intros H. induction l as [|x l IH]; [done|]. cbn [fmap list_fmap List.filter].
  rewrite H. f_equal. exact IH.
Qed.

Lemma filter_concat {A} (p : A -> bool) (L : list (list A)) :
  List.filter p (concat L) = concat (List.filter p <$> L).
Proof.
  induction L as [|l L IH]; [done|]. cbn [concat fmap list_fmap].
  by rewrite List.filter_app, IH.
Qed.

(** What the cleanup pass keeps of the nodes of one fragment. *)
Lemma cleanup_fragmentNodes absentIsNull tasks it :
  List.filter (fun n => negb (isFragmentAssoc n))
    (List.filter (fun n => negb (isOldGroup absentIsNull n)) (fragmentNodes tasks it))
  = [annotOf it.1 (length it.2)].
Proof.
  unfold fragmentNodes. rewrite <- list_fmap_compose, !List.filter_app.
  rewrite (filter_fmap_all (fun n => negb (isOldGroup absentIsNull n))) by done.
  rewrite (filter_fmap_none (fun n => negb (isFragmentAssoc n))).
  2:{ intros mid. cbn. by rewrite isFragmentRef_fragId0. }
  cbn [List.filter isOldGroup g_fragmentId attrNotNull orb negb annotOf app
       isFragmentAssoc taAssoc a_src].
  by rewrite isFragmentRef_fragId.
Qed.

Lemma cleanup_fragmentDI k b :
  List.filter (fun n => negb (isFragmentShape n)) (fragmentDI k b)
  = [DEdge (fragId k +:+ "_TA_Assoc_di") (fragId k +:+ "_TA_Assoc") b.2].
Proof.
  unfold fragmentDI. cbn [List.filter isFragmentShape].
  by rewrite isFragmentRef_fragId0, isFragmentRef_fragId.
Qed.

Lemma omap_imap_none {A B C} (sel : B -> option C) (f : nat -> A -> B) (l : list A) :
  (forall i x, sel (f i x) = None) -> omap sel (imap f l) = [].
Proof.
  revert f. induction l as [|x l IH]; intros f H; [done|].
  cbn [imap]. rewrite omap_cons', H. apply IH. intros. apply H.
Qed.

Lemma concat_imap_pair {A B} (f : nat -> A -> B) (l : list A) :
  concat ((fun it : nat * A => [f it.1 it.2]) <$> imap (fun i x => (i, x)) l) = imap f l.
Proof.
  rewrite fmap_imap.
  generalize f. clear f. induction l as [|x l IH]; intros f; [done|].
  cbn [imap concat]. cbn. f_equal. apply (IH (fun i => f (S i))).
Qed.

(** X7.  Cleaning up a freshly fragmented document gives the cleaned original,
    followed in the process by the text annotation of every fragment and
    in the plane by the edge of every annotation's association.  The
    groups, their shapes and all associations written by the fragmentation
    are gone; the associations left are those of the cleaned original. *)
Theorem cleanup_after_fragmentation (absentIsNull : bool) (d : Doc) (thr : float)
    (incl : bool) :
  d_process (clearOldFragments absentIsNull (fragmentByCoupling d thr incl).1)
  = d_process (clearOldFragments absentIsNull d) ++
    imap (fun k g => annotOf k (length g)) (fragmentComps (d_process d) thr incl) /\
  (exists ws, length ws = (fragmentByCoupling d thr incl).2 /\
     d_plane (clearOldFragments absentIsNull (fragmentByCoupling d thr incl).1)
     = Some (ensurePlane (clearOldFragments absentIsNull d) ++
             zip_with (fun k w => DEdge (fragId k +:+ "_TA_Assoc_di")
                                        (fragId k +:+ "_TA_Assoc") w)
                      (seq 0 (length ws)) ws)) /\
  selectAssocs (d_process (clearOldFragments absentIsNull (fragmentByCoupling d thr incl).1))
  = selectAssocs (d_process (clearOldFragments absentIsNull d)).
Proof.
  assert (Hp : d_process (clearOldFragments absentIsNull (fragmentByCoupling d thr incl).1)
    = d_process (clearOldFragments absentIsNull d) ++
      imap (fun k g => annotOf k (length g)) (fragmentComps (d_process d) thr incl)).
  { unfold clearOldFragments, fragmentByCoupling. cbn [fst docOf d_process].
    rewrite fragmentRun_proc, !List.filter_app. f_equal.
    rewrite !filter_concat, <- !list_fmap_compose.
    rewrite (list_fmap_ext _ (fun it : nat * list nat => [annotOf it.1 (length it.2)]))
      by (intros; apply cleanup_fragmentNodes).
    apply (concat_imap_pair (fun k g => annotOf k (length g))). }
  split_and!; [done| |].
  - destruct (fragmentRun_plane d thr incl) as (bs & L & Hpl).
    exists bs.*2. rewrite length_fmap. split; [exact L|].
    unfold clearOldFragments, fragmentByCoupling.
    cbn [fst docOf d_process d_plane ensurePlane].
    rewrite Hpl, List.filter_app. do 2 f_equal. rewrite L.
    generalize (seq 0 (length (fragmentComps (d_process d) thr incl))). clear.
    induction bs as [|b bs IH]; intros [|k ks]; cbn [zip_with concat fmap list_fmap];
      try done.
    by rewrite List.filter_app, cleanup_fragmentDI, IH.
  - rewrite Hp. unfold selectAssocs at 1. rewrite omap_app.
    rewrite (omap_imap_none _ (fun k g => annotOf k (length g))) by done.
    apply app_nil_r.
Qed.

(** ** Every activity is linked to one fragment *)

Lemma fragmentComps_ufInv proc0 thr :
  ufInv (length (getTaskList proc0))
        (edgesOf thr (indexIds (getTaskList proc0)) (selectFlows proc0))
        (foldl (coupleStep thr (indexIds (getTaskList proc0)))
               (unionFind (length (getTaskList proc0))) (selectFlows proc0)).
Proof.
  pose proof (couple_fold (length (getTaskList proc0)) thr (indexIds (getTaskList proc0))
                (selectFlows proc0) [] _ (idx_range (getTaskList proc0))
                (ufInv_init (length (getTaskList proc0)))) as H.
  by rewrite app_nil_l in H.
Qed.






(** ** Union-find as the script uses it *)

Lemma ufInv_unites n (ops : list (nat * nat)) E p :
  inRange n ops -> ufInv n E p ->
  ufInv n (E ++ ops) (foldl (fun p ab => unite ab.1 ab.2 p) p ops).
Proof.
  revert E p. induction ops as [|[a b] ops IH]; intros E p Hr Hp; cbn [foldl].
  - by rewrite app_nil_r.
  - replace (E ++ (a, b) :: ops) with ((E ++ [(a, b)]) ++ ops)
      by (by rewrite <- app_assoc).
    apply IH; [intros ab Hab; apply Hr; by right|].
    destruct (Hr (a, b)) as [Ha Hb]; [left|]. by apply ufInv_unite.
Qed.

Lemma ufInv_uniteAll n ops : inRange n ops -> ufInv n ops (uniteAll n ops).
Proof. intros Hr. apply (ufInv_unites n ops [] _ Hr), ufInv_init. Qed.

Lemma sameRep_find p i j :
  forest p -> i < length p -> j < length p ->
  sameRep p i j <-> (find (length p) p i).1 = (find (length p) p j).1.
Proof.
  intros Hf Hi Hj.
  destruct (Hf i Hi) as [ri Hri], (Hf j Hj) as [rj Hrj].
  destruct (find_rep p i ri Hri) as (-> & _), (find_rep p j rj Hrj) as (-> & _).
  split.
  - intros (r & H1 & H2). by rewrite (rep_fun _ _ _ _ Hri H1), (rep_fun _ _ _ _ Hrj H2).
  - intros ->. by exists rj.
Qed.

(** X9.  After any sequence of unions on [n] singletons, two indices have the
    same representative exactly when the unions connect them. *)
Theorem find_agrees_iff_connected (n : nat) (ops : list (nat * nat)) (i j : nat) :
  inRange n ops -> i < n -> j < n ->
  (find (length (uniteAll n ops)) (uniteAll n ops) i).1
  = (find (length (uniteAll n ops)) (uniteAll n ops) j).1
  <-> conn ops i j.
Proof.
  intros Hr Hi Hj. destruct (ufInv_uniteAll n ops Hr) as [Hlen Hf _ Hc].
  rewrite <- sameRep_find by (done || by rewrite Hlen). by apply Hc.
Qed.

Lemma find_parent p fuel d x r :
  rootAt p d x r -> d < fuel -> (find fuel p x).2 !! x = Some r.
Proof.
  intros H Hd. destruct (find_spec p fuel d x r H Hd) as (Hr & Hlen & _).
  destruct H as [x Hx|d x y r Hx Hne H]; (destruct fuel as [|k]; [lia|]);
    cbn [find] in *; rewrite Hx in *.
  - by rewrite Nat.eqb_refl.
  - rewrite (proj2 (Nat.eqb_neq y x) Hne) in *. cbn [fst snd] in *.
    rewrite Hr. apply list_lookup_insert_eq.
    rewrite length_insert in Hlen. rewrite Hlen. by eapply lookup_lt_Some.
Qed.

(** X10.  [find] returns a root, leaves the searched index pointing at it, and
    its path compression changes no later answer. *)
Theorem find_compresses_soundly (n : nat) (ops : list (nat * nat)) (x y : nat) :
  inRange n ops -> x < n -> y < n ->
  let p := uniteAll n ops in
  let r := find (length p) p x in
  r.2 !! r.1 = Some r.1 /\ r.2 !! x = Some r.1 /\ length r.2 = length p /\
  (find (length r.2) r.2 r.1).1 = r.1 /\
  (find (length r.2) r.2 y).1 = (find (length p) p y).1.
Proof.
  intros Hr Hx Hy p r. destruct (ufInv_uniteAll n ops Hr) as [Hlen Hf _ _].
  fold p in Hlen, Hf.
  destruct (Hf x) as [rx [d Hrx]]; [by rewrite Hlen|].
  destruct (Hf y) as [ry Hry]; [by rewrite Hlen|].
  destruct (find_rep p x rx (ex_intro _ d Hrx)) as (E & L & P). fold r in E, L, P.
  assert (Hroot : rep r.2 rx rx) by (eapply rep_root, P; by exists d).
  split_and!.
  - rewrite E. destruct Hroot as [d' H']. by eapply rootAt_root.
  - rewrite E. apply (find_parent p _ d); [done|by eapply rootAt_depth].
  - done.
  - rewrite E. by destruct (find_rep r.2 rx rx Hroot) as (-> & _).
  - destruct (find_rep r.2 y ry (P _ _ Hry)) as (-> & _).
    by destruct (find_rep p y ry Hry) as (-> & _).
Qed.
(** ** The order of the groups *)

(** Every member of every group is below [b], every group is not empty and
    strictly ascending, and so are the first members of the groups in
    sequence. *)
Definition ascending (b : nat) (g : list (nat * list nat)) : Prop :=
  Forall (fun km : nat * list nat =>
            km.2 <> [] /\ StronglySorted lt km.2 /\ Forall (fun i => i < b) km.2) g /\
  StronglySorted lt (omap (fun km : nat * list nat => head km.2) g).

Lemma StronglySorted_snoc (l : list nat) (i : nat) :
  StronglySorted lt l -> Forall (fun j => j < i) l -> StronglySorted lt (l ++ [i]).
Proof.
  induction 1 as [|x l Hl IH Hx]; intros Hb; cbn.
  - repeat constructor.
  - apply Forall_cons in Hb as [Hxi Hb]. constructor; [by apply IH|].
    apply Forall_app. split; [done|]. by repeat constructor.
Qed.

Lemma ascending_push r i g : ascending i g -> ascending (S i) (pushGroup r i g).
Proof.
  intros [Hg Hh]. induction g as [|[k m] g IH]; cbn [pushGroup].
  - split; repeat constructor; done || lia.
  - apply Forall_cons in Hg as [(Hne & Hs & Hb) Hg].
    rewrite omap_cons' in Hh. cbn [snd] in Hh.
    destruct m as [|x m]; [done|]. cbn [head] in Hh.
    apply StronglySorted_inv in Hh as [Hh Hx].
    destruct (Nat.eqb k r).
    + split.
      * apply Forall_cons. split.
        -- cbn [snd]. split_and!; [done|by apply StronglySorted_snoc|].
           apply Forall_app. split; [|by repeat constructor].
           eapply Forall_impl; [exact Hb|]. cbn. lia.
        -- eapply Forall_impl; [exact Hg|]. intros [k' m'] (? & ? & Hb').
           split_and!; [done..|]. eapply Forall_impl; [exact Hb'|]. cbn. lia.
      * rewrite omap_cons'. cbn [snd app head]. by constructor.
    + destruct (IH Hg Hh) as [IHg IHh]. split.
      * apply Forall_cons. split; [|done]. cbn [snd].
        split_and!; [done..|]. eapply Forall_impl; [exact Hb|]. cbn. lia.
      * rewrite omap_cons'. cbn [snd head]. constructor; [done|].
        clear -Hx Hb. apply Forall_cons in Hb as [Hxi _].
        induction g as [|[k' m'] g IHg]; cbn [pushGroup].
        { cbn. by repeat constructor. }
        rewrite omap_cons' in Hx. cbn [snd] in Hx.
        destruct (Nat.eqb k' r); rewrite omap_cons'; cbn [snd].
        -- destruct m' as [|y m']; cbn [app head] in *.
           ++ constructor; [done|]. exact Hx.
           ++ exact Hx.
        -- destruct m' as [|y m']; cbn [head] in *; [by apply IHg|].
           apply Forall_cons in Hx as [Hy Hx]. constructor; [done|]. by apply IHg.
Qed.

Lemma ascending_fold (n a : nat) (st : list (nat * list nat) * list nat) :
  ascending a st.1 -> ascending (a + n) (foldl groupStep st (seq a n)).1.
Proof.
  revert a st. induction n as [|n IH]; intros a st Hst; cbn [seq foldl].
  - by rewrite Nat.add_0_r.
  - replace (a + S n) with (S a + n) by lia. apply IH.
    unfold groupStep. cbn [fst]. by apply ascending_push.
Qed.

Lemma groups_ascending (parent : list nat) :
  Forall (fun g => g <> [] /\ StronglySorted lt g) (groups parent) /\
  StronglySorted lt (omap head (groups parent)).
Proof.
  unfold groups.
  destruct (ascending_fold (length parent) 0 ([], parent)) as [Hg Hh].
  { split; constructor. }
  split.
  - apply Forall_fmap. eapply Forall_impl; [exact Hg|]. by intros [k m] (? & ? & _).
  - clear Hg. revert Hh.
    generalize ((foldl groupStep ([], parent) (seq 0 (length parent))).1).
    intros g. induction g as [|[k m] g IH]; [done|].
    rewrite fmap_cons, !omap_cons'. cbn [snd]. destruct (head m); [|done].
    intros [Hh Hx]%StronglySorted_inv. constructor; [by apply IH|].
    clear -Hx. induction g as [|[k' m'] g IHg]; [done|].
    rewrite fmap_cons, !omap_cons' in *. cbn [snd] in *.
    destruct (head m'); [|by apply IHg].
    apply Forall_cons in Hx as [? ?]. constructor; [done|by apply IHg].
Qed.

(** X11.  On the parent array left by any sequence of unions on [n]
    singletons, [groups] returns every index below [n] once; the members
    of each group come in ascending order, and the groups in the order of
    their first members. *)
Theorem groups_in_document_order (n : nat) (ops : list (nat * nat)) :
  inRange n ops ->
  concat (groups (uniteAll n ops)) ≡ₚ seq 0 n /\
  Forall (fun g => g <> [] /\ StronglySorted lt g) (groups (uniteAll n ops)) /\
  StronglySorted lt (omap head (groups (uniteAll n ops))).
Proof.
  intros Hr.
  destruct (groups_spec n ops (uniteAll n ops) (ufInv_uniteAll n ops Hr)) as (Hperm & _).
  destruct (groups_ascending (uniteAll n ops)) as [Hg Hh].
  split_and!; done.
Qed.

(** ** Fragments without strong flows, and finer thresholds *)

Lemma pushGroup_fresh r i g :
  (forall km, km ∈ g -> km.1 <> r) -> pushGroup r i g = g ++ [(r, [i])].
Proof.
  induction g as [|[k m] g IH]; intros H; cbn [pushGroup]; [done|].
  rewrite (proj2 (Nat.eqb_neq k r)) by (apply (H (k, m)); left).
  cbn. f_equal. apply IH. intros. apply H. by right.
Qed.

Lemma groups_unionFind_fold n a m (g : list (nat * list nat)) :
  a + m <= n -> (forall km, km ∈ g -> km.1 < a) ->
  foldl groupStep (g, unionFind n) (seq a m)
  = (g ++ ((fun i => (i, [i])) <$> seq a m), unionFind n).
Proof.
  revert a g. induction m as [|m IH]; intros a g Ha Hg; cbn [seq foldl fmap list_fmap].
  - by rewrite app_nil_r.
  - assert (E : find (length (unionFind n)) (unionFind n) a = (a, unionFind n)).
    { unfold unionFind at 1. rewrite length_seq. destruct n as [|n]; [lia|].
      cbn [find]. unfold unionFind. rewrite lookup_seq_lt by lia. cbn.
      by rewrite Nat.eqb_refl. }
    unfold groupStep at 2. cbn [fst snd]. rewrite E. cbn [fst snd].
    rewrite pushGroup_fresh by (intros km Hkm%Hg; lia).
    rewrite IH; [by rewrite <- app_assoc|lia|].
    intros km [Hkm| ->%list_elem_of_singleton]%elem_of_app; [apply Hg in Hkm; lia|cbn; lia].
Qed.

Lemma groups_unionFind n : groups (unionFind n) = (fun i => [i]) <$> seq 0 n.
Proof.
  unfold groups. unfold unionFind at 2. rewrite length_seq.
  rewrite (groups_unionFind_fold n 0 n []) by (lia || by intros km ?%elem_of_nil).
  cbn [fst app]. by rewrite <- list_fmap_compose.
Qed.

Lemma coupleStep_weak thr idx (flows : list Flow) p :
  (forall f, f ∈ flows -> strong thr f = false) ->
  foldl (coupleStep thr idx) p flows = p.
Proof.
  induction flows as [|f flows IH]; intros H; cbn [foldl]; [done|].
  unfold coupleStep at 2. rewrite (H f) by left. apply IH. intros. apply H. by right.
Qed.

Lemma strong_nan f : strong nan f = false.
Proof.
  unfold strong. destruct (f_coupling f) as [w|]; [|done].
  rewrite leb_spec. change (Prim2SF nan) with S754_nan. done.
Qed.

(** X12.  When no flow carries a weight that reaches the threshold, every
    activity is a fragment of its own, in document order; with singletons
    excluded nothing is left. *)
Theorem fragmentComps_without_strong_flow (proc0 : list PNode) (thr : float) :
  (forall f, f ∈ selectFlows proc0 -> strong thr f = false) ->
  fragmentComps proc0 thr true = (fun i => [i]) <$> seq 0 (length (getTaskList proc0)) /\
  fragmentComps proc0 thr false = [].
Proof.
  intros H. unfold fragmentComps. cbv zeta.
  rewrite (coupleStep_weak _ _ _ _ H), groups_unionFind. split; [done|].
  generalize (seq 0 (length (getTaskList proc0))). intros l.
  induction l as [|i l IH]; [done|]. exact IH.
Qed.

(** X13.  A threshold that is not a number (an unreadable [--threshold] value)
    is reached by no weight: every activity becomes a fragment of its own. *)
Theorem fragmentComps_nan_threshold (proc0 : list PNode) :
  fragmentComps proc0 nan true = (fun i => [i]) <$> seq 0 (length (getTaskList proc0)) /\
  fragmentComps proc0 nan false = [].
Proof.
  unfold fragmentComps. cbv zeta.
  rewrite (coupleStep_weak nan) by (intros; apply strong_nan).
  rewrite groups_unionFind. split; [done|].
  generalize (seq 0 (length (getTaskList proc0))). intros l.
  induction l as [|i l IH]; [done|]. exact IH.
Qed.

Lemma strong_mono thr1 thr2 f :
  PrimFloat.leb thr1 thr2 = true -> strong thr2 f = true -> strong thr1 f = true.
Proof.
  unfold strong. destruct (f_coupling f) as [w|]; [|done]. apply leb_trans.
Qed.

Lemma edgesOf_mono thr1 thr2 idx flows e :
  PrimFloat.leb thr1 thr2 = true -> e ∈ edgesOf thr2 idx flows -> e ∈ edgesOf thr1 idx flows.
Proof.
  intros Hle. unfold edgesOf. rewrite !list_elem_of_omap.
  intros (f & Hf & He). exists f. split; [done|].
  destruct (strong thr2 f) eqn:E2; [|done]. by rewrite (strong_mono _ _ _ Hle E2).
Qed.

(** X14.  Raising the threshold only splits fragments: every fragment found at
    the higher threshold lies inside one found at the lower threshold. *)
Theorem fragments_refine_with_threshold (proc0 : list PNode) (thr1 thr2 : float)
    (g2 : list nat) :
  PrimFloat.leb thr1 thr2 = true ->
  g2 ∈ fragmentComps proc0 thr2 true ->
  exists g1, g1 ∈ fragmentComps proc0 thr1 true /\ forall i, i ∈ g2 -> i ∈ g1.
Proof.
  intros Hle Hg2. unfold fragmentComps in *. cbv zeta in *.
  set (tasks := getTaskList proc0) in *. set (flows := selectFlows proc0) in *.
  destruct (groups_spec _ _ _ (fragmentComps_ufInv proc0 thr1)) as (P1 & _ & C1).
  destruct (groups_spec _ _ _ (fragmentComps_ufInv proc0 thr2)) as (P2 & N2 & C2).
  fold tasks flows in P1, C1, P2, N2, C2.
  assert (Hr2 : forall i, i ∈ g2 -> i < length tasks).
  { intros i Hi. apply elem_of_seq with (j := 0). rewrite <- P2.
    apply elem_of_concat. by exists g2. }
  destruct g2 as [|i0 g2'] eqn:Eg; [by destruct (N2 [] Hg2)|]. rewrite <- Eg in *.
  assert (Hi0 : i0 ∈ g2) by (rewrite Eg; left).
  assert (Hin : i0 ∈ concat (groups (foldl (coupleStep thr1 (indexIds tasks))
                                           (unionFind (length tasks)) flows))).
  { rewrite P1. apply elem_of_seq. split; [lia|]. cbn. by apply Hr2. }
  apply elem_of_concat in Hin as (g1 & Hi1 & Hg1).
  exists g1. split; [done|]. intros j Hj.
  apply (C1 g1 i0 j Hg1 Hi1 (Hr2 j Hj)).
  apply (conn_mono (edgesOf thr2 (indexIds tasks) flows)).
  - intros e. by apply edgesOf_mono.
  - by apply (C2 g2 i0 j Hg2 Hi0 (Hr2 j Hj)).
Qed.

Lemma filter_sublist_impl {A} (p q : A -> bool) (l : list A) :
  (forall x, p x = true -> q x = true) -> List.filter p l `sublist_of` List.filter q l.
Proof.
  intros H. induction l as [|x l IH]; [done|]. cbn [List.filter].
  destruct (p x) eqn:Ep.
  - rewrite (H x Ep). by constructor.
  - destruct (q x); [by constructor|done].
Qed.

(** X15.  Raising the threshold masks fewer activities in direction "above" and
    more in the other direction. *)
Theorem masked_set_monotone (d : Doc) (thr1 thr2 : float) (dir : string) :
  PrimFloat.leb thr1 thr2 = true ->
  maskedOf d thr2 "above" `sublist_of` maskedOf d thr1 "above" /\
  (dir <> "above" -> maskedOf d thr1 dir `sublist_of` maskedOf d thr2 dir).
Proof.
  intros Hle. unfold maskedOf, maskedIdsOf. split.
  - apply fmap_sublist, filter_sublist_impl. intros t. unfold shouldMask.
    destruct (PrimFloat.is_finite _); [|done]. cbn. by apply leb_trans.
  - intros Hd. apply fmap_sublist, filter_sublist_impl. intros t. unfold shouldMask.
    destruct (PrimFloat.is_finite _); [|done].
    rewrite (proj2 (String.eqb_neq dir "above")) by done.
    intros H. by eapply ltb_leb_trans.
Qed.

(** ** What a masking run leaves alone *)










(** ** The activities after a masking run *)

Lemma filter_andb {A} (p q : A -> bool) (l : list A) :
  List.filter p (List.filter q l) = List.filter (fun x => q x && p x) l.
Proof.
  induction l as [|x l IH]; [done|]. cbn [List.filter].
  destruct (q x); cbn [List.filter andb]; [|done]. destruct (p x); by rewrite IH.
Qed.

Lemma List_filter_sublist {A} (p : A -> bool) (l : list A) : List.filter p l `sublist_of` l.
Proof.
  induction l as [|x l IH]; [done|]. cbn [List.filter].
  destruct (p x); by constructor.
Qed.

Lemma remove_first_filter {A} (key : A -> string) (k : string) (l : list A) :
  NoDup (key <$> l) ->
  remove_first (fun y => String.eqb (key y) k) l
  = List.filter (fun y => negb (String.eqb (key y) k)) l.
Proof.
  induction l as [|y l IH]; [done|]. rewrite fmap_cons. intros [Hy Hl]%NoDup_cons.
  cbn [remove_first List.filter].
  destruct (String.eqb_spec (key y) k) as [E|Hne]; cbn [negb].
  - symmetry. rewrite (filter_ext_in _ (fun _ => true)).
    + clear. induction l as [|x l IH]; [done|]. cbn. by rewrite IH.
    + intros x Hx%list_elem_of_In. apply negb_true_iff, String.eqb_neq.
      intros E'. apply Hy. rewrite E, <- E'. by apply list_elem_of_fmap_2.
  - f_equal. by apply IH.
Qed.

Lemma remove_last_filter {A} (key : A -> string) (k : string) (l : list A) :
  NoDup (key <$> l) ->
  remove_last (fun y => String.eqb (key y) k) l
  = List.filter (fun y => negb (String.eqb (key y) k)) l.
Proof.
  intros Hnd. unfold remove_last. rewrite remove_first_filter.
  - by rewrite filter_rev, rev_involutive.
  - by rewrite rev_Permutation.
Qed.

Lemma indexTasks_None l k : indexTasks l !! k = None -> k ∉ t_id <$> l.
Proof.
  intros H Hin. destruct (indexTasks_is_Some l k Hin) as [t Ht]. congruence.
Qed.

(** The activities still attached are those of the document whose id the
    outer loop has not handled yet. *)
Definition tasksLeft (tasks0 : list Task) (st : MaskSt) : Prop :=
  getTaskList (proc (ms_dom st))
  = List.filter (fun t => negb (bool_decide (t_id t ∈ ms_detached st))) tasks0.

Lemma exciseNode_tasksLeft tasks0 fbs fbt st mid :
  NoDup (t_id <$> tasks0) -> tasksLeft tasks0 st ->
  tasksLeft tasks0 (exciseNode (indexTasks tasks0) fbs fbt st mid).
Proof.
  intros Hnd Hst. rewrite exciseNode_rest. cbv zeta.
  destruct (removeFlows_getTaskList (default [] (fbt !! mid) ++ default [] (fbs !! mid)) st)
    as [Ht1 Hd1].
  unfold tasksLeft in *. cbn [ms_dom ms_detached]. rewrite exciseRest_tasks, Ht1, Hd1, Hst.
  destruct (indexTasks tasks0 !! mid) as [t0|] eqn:Eb.
  - case_bool_decide as Hin.
    + apply filter_ext_in. intros t _. f_equal. apply bool_decide_ext. set_solver.
    + rewrite remove_last_filter.
      2:{ eapply sublist_NoDup; [exact Hnd|]. apply fmap_sublist.
          apply List_filter_sublist. }
      rewrite filter_andb. apply filter_ext_in. intros t _.
      destruct (String.eqb_spec (t_id t) mid) as [E|Hne]; cbn [negb].
      * rewrite andb_false_r. symmetry. apply negb_false_iff, bool_decide_eq_true_2.
        set_solver.
      * rewrite andb_true_r. f_equal. apply bool_decide_ext. set_solver.
  - apply indexTasks_None in Eb. apply filter_ext_in. intros t Ht%list_elem_of_In.
    f_equal. apply bool_decide_ext.
    assert (t_id t <> mid) by (intros <-; apply Eb; by apply list_elem_of_fmap_2).
    set_solver.
Qed.

Lemma excise_all_tasksLeft tasks0 fbs fbt (mids : list string) st :
  NoDup (t_id <$> tasks0) -> tasksLeft tasks0 st ->
  tasksLeft tasks0 (foldl (exciseNode (indexTasks tasks0) fbs fbt) st mids) /\
  ms_detached (foldl (exciseNode (indexTasks tasks0) fbs fbt) st mids)
  = list_to_set mids ∪ ms_detached st.
Proof.
  intros Hnd. revert st. induction mids as [|mid mids IH]; intros st Hst; cbn [foldl].
  - split; [done|]. set_solver.
  - destruct (IH _ (exciseNode_tasksLeft tasks0 fbs fbt st mid Hnd Hst)) as [H1 H2].
    split; [done|]. rewrite H2. cbn [exciseNode ms_detached list_to_set].
    assert (E : ms_detached (foldl removeFlow st
                  (default [] (fbt !! mid) ++ default [] (fbs !! mid))) = ms_detached st)
      by apply removeFlows_getTaskList.
    rewrite E. set_solver.
Qed.

Lemma synthPairs_detached (l : list (string * string)) st :
  ms_detached (foldl (fun st p => synthPair p.1 p.2 st) st l) = ms_detached st.
Proof.
  revert st. induction l as [|p l IH]; intros st; cbn [foldl]; [done|].
  rewrite IH. destruct (synthPair_cases p.1 p.2 st)
    as [[_ ->]|(_ & _ & _ & nf & ex & _ & _ & _ & _ & _ & _ & _ & _ & ->)]; done.
Qed.

Lemma getTaskList_appended_flows orig (cr : list Flow) :
  getTaskList (orig ++ (PFlow <$> cr)) = getTaskList orig.
Proof.
  unfold getTaskList. rewrite omap_app, (omap_fmap_none _ PFlow) by done.
  apply app_nil_r.
Qed.

Lemma final_tasks_by_id (d : Doc) (thr : float) (dir : string) :
  NoDup (t_id <$> getTaskList (d_process d)) ->
  getTaskList (finalProc d thr dir)
  = List.filter (fun t => negb (bool_decide (t_id t ∈ maskedOf d thr dir)))
                (getTaskList (d_process d)).
Proof.
  intros Hnd. unfold finalProc, maskByPrivacy. cbn [fst docOf d_process].
  rewrite maskRun_two_phase. unfold excisePhase. cbv zeta.
  destruct (appended_synthPhase d thr dir) as [Hpr _].
  assert (Hd0 : ms_detached (synthPhase d thr dir) = ∅).
  { unfold synthPhase. by rewrite synthAll_pairs, synthPairs_detached. }
  assert (H0 : tasksLeft (getTaskList (d_process d)) (synthPhase d thr dir)).
  { unfold tasksLeft. rewrite Hpr, getTaskList_appended_flows, Hd0.
    symmetry. rewrite (filter_ext_in _ (fun _ => true)).
    - generalize (getTaskList (d_process d)). intros l.
      induction l as [|x l IH]; [done|]. cbn. by rewrite IH.
    - intros t _. apply negb_true_iff, bool_decide_eq_false_2. set_solver. }
  destruct (excise_all_tasksLeft _ (indexFlows f_src (selectFlows (d_process d)))
              (indexFlows f_tgt (selectFlows (d_process d))) (maskedOf d thr dir) _ Hnd H0)
    as [H1 H2].
  rewrite H1, H2, Hd0. apply filter_ext_in. intros t _. f_equal.
  apply bool_decide_ext. set_solver.
Qed.

Lemma masked_id_iff (tasks : list Task) (dir : string) (thr : float) (t : Task) :
  NoDup (t_id <$> tasks) -> t ∈ tasks ->
  t_id t ∈ maskedIdsOf dir thr tasks <-> shouldMask dir thr (t_privacy t) = true.
Proof.
  intros Hnd Ht. unfold maskedIdsOf. split.
  - intros (t' & E & Hin)%list_elem_of_fmap.
    apply list_elem_of_In, filter_In in Hin as [Hin%list_elem_of_In Hm].
    by rewrite (NoDup_fmap_eq t_id tasks t t' Hnd Ht Hin E).
  - intros Hm. apply list_elem_of_fmap. exists t. split; [done|].
    apply list_elem_of_In, filter_In. split; [by apply list_elem_of_In|done].
Qed.

Lemma filter_length_split {A} (p : A -> bool) (l : list A) :
  length l = length (List.filter (fun x => negb (p x)) l) + length (List.filter p l).
Proof.
  induction l as [|x l IH]; [done|]. cbn [List.filter length].
  destruct (p x); cbn [negb length]; lia.
Qed.

(** X17.  When the activities have distinct ids, the run deletes exactly the
    activities whose privacy value calls for masking and keeps the others
    in their order; the count it returns is the number of activities
    deleted. *)
Theorem masking_deletes_the_masked (d : Doc) (thr : float) (dir : string) :
  NoDup (t_id <$> getTaskList (d_process d)) ->
  getTaskList (finalProc d thr dir)
  = List.filter (fun t => negb (shouldMask dir thr (t_privacy t))) (getTaskList (d_process d)) /\
  length (getTaskList (d_process d))
  = length (getTaskList (finalProc d thr dir)) + (maskByPrivacy d thr dir).2.
Proof.
  intros Hnd.
  assert (E : getTaskList (finalProc d thr dir)
    = List.filter (fun t => negb (shouldMask dir thr (t_privacy t)))
                  (getTaskList (d_process d))).
  { rewrite final_tasks_by_id by done. apply filter_ext_in.
    intros t Ht%list_elem_of_In. f_equal.
    destruct (shouldMask dir thr (t_privacy t)) eqn:Em.
    - apply bool_decide_eq_true_2. by apply masked_id_iff.
    - apply bool_decide_eq_false_2. intros H%masked_id_iff; [congruence|done..]. }
  split; [done|]. rewrite E. unfold maskByPrivacy, maskedIdsOf. cbn [snd].
  rewrite length_map. apply (filter_length_split (fun t => shouldMask dir thr (t_privacy t))).
Qed.

(** After the run no activity is left that the same threshold would mask. *)
Lemma nothing_left_to_mask (d : Doc) (thr : float) (dir : string) :
  NoDup (t_id <$> getTaskList (d_process d)) ->
  maskedIdsOf dir thr (getTaskList (d_process (maskByPrivacy d thr dir).1)) = [].
Proof.
  intros Hnd. fold (finalProc d thr dir). rewrite final_tasks_by_id by done.
  unfold maskedIdsOf. rewrite filter_andb.
  rewrite (filter_ext_in _ (fun _ => false)).
  - generalize (getTaskList (d_process d)). intros l.
    induction l as [|x l IH]; [done|]. exact IH.
  - intros t Ht%list_elem_of_In.
    destruct (shouldMask dir thr (t_privacy t)) eqn:Em; [|by rewrite andb_false_r].
    rewrite andb_true_r. apply negb_false_iff, bool_decide_eq_true_2.
    by apply masked_id_iff.
Qed.

(** X18.  When the activities have distinct ids, masking the result of a masking
    run again, with the same threshold and direction, changes nothing and
    reports zero. *)
Theorem masking_idempotent (d : Doc) (thr : float) (dir : string) :
  NoDup (t_id <$> getTaskList (d_process d)) ->
  maskByPrivacy (maskByPrivacy d thr dir).1 thr dir = ((maskByPrivacy d thr dir).1, 0).
Proof.
  intros Hnd. unfold maskByPrivacy at 1. unfold maskRun.
  rewrite (nothing_left_to_mask d thr dir Hnd). reflexivity.
Qed.

(** ** The bypass flows are numbered *)

(** The flows created so far carry the ids AutoFlow_1 ... AutoFlow_counter
    and no coupling weight. *)
Definition numbered (st : MaskSt) : Prop :=
  f_id <$> createdFlows (log (ms_dom st)) = autoFlowId <$> seq 1 (ms_counter st) /\
  Forall (fun f => f_coupling f = None) (createdFlows (log (ms_dom st))).

Lemma numbered_synthPair s t st : numbered st -> numbered (synthPair s t st).
Proof.
  intros [Hid Hw]. unfold synthPair.
  destruct (String.eqb s t); [done|]. case_bool_decide; [done|].
  destruct (is_Some_b _); [done|].
  set (nf := {| f_id := _ |}).
  assert (Hcr : forall ex, forallb isEdgeAppend ex = true ->
            createdFlows ((log (ms_dom st) ++ [EvAppend (PFlow nf)]) ++ ex)
            = createdFlows (log (ms_dom st)) ++ [nf]).
  { intros ex Hex. rewrite !createdFlows_app, (createdFlows_edges _ Hex).
    by rewrite app_nil_r. }
  unfold numbered. cbn [ms_dom ms_counter].
  assert (Hlog : createdFlows (log
            match boundsFor (plane (appendChild (PFlow nf) (ms_dom st))) s,
                  boundsFor (plane (appendChild (PFlow nf) (ms_dom st))) t with
            | Some sb, Some tb =>
                appendDI (DEdge (f_id nf +:+ "_di") (f_id nf) (bypassWaypoints sb tb))
                         (appendChild (PFlow nf) (ms_dom st))
            | _, _ => appendChild (PFlow nf) (ms_dom st)
            end) = createdFlows (log (ms_dom st)) ++ [nf]).
  { destruct (boundsFor (plane (appendChild (PFlow nf) (ms_dom st))) s) as [sb|],
             (boundsFor (plane (appendChild (PFlow nf) (ms_dom st))) t) as [tb|];
      cbn [appendDI appendChild log];
      first [by apply (Hcr [_])|rewrite <- (app_nil_r (_ ++ [_])); by apply (Hcr [])]. }
  split.
  - refine (eq_trans (f_equal (fmap f_id) Hlog) _).
    rewrite fmap_app, Hid, seq_S, fmap_app. done.
  - refine (eq_ind_r (Forall _) _ Hlog).
    apply Forall_app. split; [done|]. by repeat constructor.
Qed.

Lemma numbered_synthPairs (l : list (string * string)) st :
  numbered st -> numbered (foldl (fun st p => synthPair p.1 p.2 st) st l).
Proof.
  revert st. induction l as [|p l IH]; intros st Hst; cbn [foldl]; [done|].
  by apply IH, numbered_synthPair.
Qed.

Lemma autoFlowId_inj i j : autoFlowId i = autoFlowId j -> i = j.
Proof. unfold autoFlowId. by intros H%(inj (String.app _))%(inj pretty). Qed.

(** X19.  The bypass flows of a run carry the ids AutoFlow_1, AutoFlow_2, ... in
    the order of their creation, pairwise distinct, and no coupling
    weight: no threshold makes a later fragmentation count them. *)
Theorem bypass_flows_numbered (d : Doc) (thr : float) (dir : string) :
  f_id <$> bypassFlows d thr dir
  = autoFlowId <$> seq 1 (length (bypassFlows d thr dir)) /\
  NoDup (f_id <$> bypassFlows d thr dir) /\
  forall f thr', f ∈ bypassFlows d thr dir -> strong thr' f = false.
Proof.
  assert (Hn : numbered (synthPhase d thr dir)).
  { unfold synthPhase. rewrite synthAll_pairs. apply numbered_synthPairs.
    split; [done|constructor]. }
  assert (Hb : bypassFlows d thr dir = createdFlows (log (ms_dom (synthPhase d thr dir)))).
  { unfold bypassFlows, runLog. rewrite maskRun_two_phase.
    destruct (excisePhase_excised d thr dir (synthPhase d thr dir)) as (Hsh & _).
    by apply shrinksTo_created in Hsh. }
  rewrite Hb. destruct Hn as [Hid Hw].
  assert (Hlen : length (createdFlows (log (ms_dom (synthPhase d thr dir))))
                 = ms_counter (synthPhase d thr dir)).
  { rewrite <- (length_fmap f_id), Hid, length_fmap. apply length_seq. }
  rewrite Hlen. split_and!; [done| |].
  - rewrite Hid. apply NoDup_fmap_2; [|apply NoDup_seq]. intros i j. apply autoFlowId_inj.
  - intros f thr' Hf. rewrite Forall_forall in Hw. unfold strong. by rewrite (Hw f Hf).
Qed.

(** ** The order of the children after a masking run *)

Lemma remove_first_app_l {A} (p : A -> bool) (l1 l2 : list A) :
  (forall x, x ∈ l2 -> p x = false) -> remove_first p (l1 ++ l2) = remove_first p l1 ++ l2.
Proof.
  intros H. induction l1 as [|x l1 IH]; cbn [app remove_first].
  - induction l2 as [|y l2 IH2]; [done|]. cbn [remove_first].
    rewrite (H y) by left. f_equal. apply IH2. intros. apply H. by right.
  - destruct (p x); [done|]. cbn. by rewrite IH.
Qed.

Lemma remove_first_app_r {A} (p : A -> bool) (l1 l2 : list A) :
  (forall x, x ∈ l1 -> p x = false) -> remove_first p (l1 ++ l2) = l1 ++ remove_first p l2.
Proof.
  intros H. induction l1 as [|x l1 IH]; cbn [app remove_first]; [done|].
  rewrite (H x) by left. f_equal. apply IH. intros. apply H. by right.
Qed.

Lemma remove_last_app_l {A} (p : A -> bool) (l1 l2 : list A) :
  (forall x, x ∈ l2 -> p x = false) -> remove_last p (l1 ++ l2) = remove_last p l1 ++ l2.
Proof.
  intros H. unfold remove_last. rewrite rev_app_distr, remove_first_app_r.
  - by rewrite rev_app_distr, rev_involutive.
  - intros x Hx%list_elem_of_In%in_rev%list_elem_of_In. by apply H.
Qed.

Lemma sublist_rev {A} (l1 l2 : list A) : l1 `sublist_of` l2 -> rev l1 `sublist_of` rev l2.
Proof.
  induction 1 as [|x l1 l2 _ IH|x l1 l2 _ IH]; cbn [rev]; [done| |].
  - by apply sublist_app.
  - by apply sublist_inserts_r.
Qed.

Lemma remove_last_sublist {A} (p : A -> bool) (l : list A) : remove_last p l `sublist_of` l.
Proof.
  unfold remove_last. rewrite <- (rev_involutive l) at 2.
  apply sublist_rev, remove_first_sublist.
Qed.

(** [s'] is [s] after removals that keep the children in their order and
    leave the last children [tl] alone. *)
Definition keepsTail (tl : list PNode) (s s' : Dom) : Prop :=
  forall k, proc s = k ++ tl -> exists k', k' `sublist_of` k /\ proc s' = k' ++ tl.

Lemma keepsTail_refl tl s : keepsTail tl s s.
Proof. intros k Hk. by exists k. Qed.

Lemma keepsTail_trans tl s1 s2 s3 :
  keepsTail tl s1 s2 -> keepsTail tl s2 s3 -> keepsTail tl s1 s3.
Proof.
  intros H1 H2 k Hk. destruct (H1 k Hk) as (k1 & S1 & E1).
  destruct (H2 k1 E1) as (k2 & S2 & E2). exists k2. split; [by etransitivity|done].
Qed.

Lemma keepsTail_foldl {A} tl (op : Dom -> A -> Dom) (l : list A) s :
  (forall s a, a ∈ l -> keepsTail tl s (op s a)) -> keepsTail tl s (foldl op s l).
Proof.
  revert s. induction l as [|a l IH]; intros s H; cbn [foldl].
  - apply keepsTail_refl.
  - eapply keepsTail_trans; [apply H; left|]. apply IH. intros. apply H. by right.
Qed.

Lemma removeDI_keepsTail tl p s : keepsTail tl s (removeDI p s).
Proof. intros k Hk. by exists k. Qed.

Lemma detach_keepsTail tl p s :
  (forall x, x ∈ tl -> p x = false) -> keepsTail tl s (detach p s).
Proof.
  intros Hp k Hk. rewrite detach_proc, Hk, remove_first_app_l by done.
  eexists. split; [apply remove_first_sublist|done].
Qed.

Lemma detachLast_keepsTail tl p s :
  (forall x, x ∈ tl -> p x = false) -> keepsTail tl s (detachLast p s).
Proof.
  intros Hp k Hk. rewrite detachLast_proc, Hk, remove_last_app_l by done.
  eexists. split; [apply remove_last_sublist|done].
Qed.

Section KeepsTail.
Variable M : gset string.
Variable tl : list PNode.
Hypothesis tl_outside : forall x, x ∈ tl -> exists e, x = PFlow e /\ f_src e ∉ M /\ f_tgt e ∉ M.

Lemma maybeRemove_keepsTail taId s :
  keepsTail tl s (maybeRemoveTextAnnotationIfOrphaned taId s).
Proof.
  unfold maybeRemoveTextAnnotationIfOrphaned.
  destruct (Nat.ltb _ _); [apply keepsTail_refl|].
  eapply keepsTail_trans; [apply detach_keepsTail|apply removeDI_keepsTail].
  by intros x (e & -> & _)%tl_outside.
Qed.

Lemma cascade_keepsTail a s : keepsTail tl s (removeAssociationCascade a s).
Proof.
  unfold removeAssociationCascade.
  set (s1 := removeDIEdgeForElement (a_id a) s).
  set (s2 := detach (isAssocNode a) s1).
  assert (H2 : keepsTail tl s s2).
  { eapply keepsTail_trans; [apply removeDI_keepsTail|apply detach_keepsTail].
    by intros x (e & -> & _)%tl_outside. }
  destruct (existsb (isAnnot (a_src a)) (proc s2)), (existsb (isAnnot (a_tgt a)) (proc s2));
    repeat (first [exact H2 | eapply keepsTail_trans; [|by apply maybeRemove_keepsTail]]).
Qed.

Lemma removeAll_keepsTail elId s : keepsTail tl s (removeAllAssociationsTouchingId elId s).
Proof.
  unfold removeAllAssociationsTouchingId. apply keepsTail_foldl. intros. apply cascade_keepsTail.
Qed.

Lemma removeFlow_keepsTail st f :
  f_src f ∈ M \/ f_tgt f ∈ M -> keepsTail tl (ms_dom st) (ms_dom (removeFlow st f)).
Proof.
  intros Hf. unfold removeFlow.
  destruct (_ || _); [apply keepsTail_refl|]. cbn [ms_dom].
  eapply keepsTail_trans; [apply removeAll_keepsTail|].
  eapply keepsTail_trans; [apply removeDI_keepsTail|].
  apply detach_keepsTail. intros x (e & -> & Hs & Ht)%tl_outside. cbn [isFlowNode].
  destruct (String.eqb_spec (f_src e) (f_src f)) as [Es|];
    [|by rewrite andb_false_r].
  destruct (String.eqb_spec (f_tgt e) (f_tgt f)) as [Et|];
    [|by rewrite andb_false_r].
  rewrite Es in Hs. rewrite Et in Ht. tauto.
Qed.

Lemma removeFlows_keepsTail (l : list Flow) st :
  (forall f, f ∈ l -> f_src f ∈ M \/ f_tgt f ∈ M) ->
  keepsTail tl (ms_dom st) (ms_dom (foldl removeFlow st l)).
Proof.
  revert st. induction l as [|f l IH]; intros st H; cbn [foldl]; [apply keepsTail_refl|].
  eapply keepsTail_trans; [apply removeFlow_keepsTail, H; left|].
  apply IH. intros. apply H. by right.
Qed.

Lemma exciseNode_keepsTail byId fbs fbt st mid :
  (forall f, f ∈ default [] (fbt !! mid) ++ default [] (fbs !! mid) ->
             f_src f ∈ M \/ f_tgt f ∈ M) ->
  keepsTail tl (ms_dom st) (ms_dom (exciseNode byId fbs fbt st mid)).
Proof.
  intros Hfl. unfold exciseNode. cbn [ms_dom].
  eapply keepsTail_trans; [by apply removeFlows_keepsTail|].
  eapply keepsTail_trans; [apply removeAll_keepsTail|].
  eapply keepsTail_trans; [|apply removeDI_keepsTail].
  destruct (byId !! mid); [|apply keepsTail_refl].
  case_bool_decide; [apply keepsTail_refl|].
  apply detachLast_keepsTail. by intros x (e & -> & _)%tl_outside.
Qed.

Lemma exciseNodes_keepsTail byId fbs fbt (mids : list string) st :
  (forall mid f, mid ∈ mids -> f ∈ default [] (fbt !! mid) ++ default [] (fbs !! mid) ->
                 f_src f ∈ M \/ f_tgt f ∈ M) ->
  keepsTail tl (ms_dom st) (ms_dom (foldl (exciseNode byId fbs fbt) st mids)).
Proof.
  revert st. induction mids as [|mid mids IH]; intros st H; cbn [foldl];
    [apply keepsTail_refl|].
  eapply keepsTail_trans; [apply exciseNode_keepsTail; intros; eapply H; [left|done]|].
  apply IH. intros. eapply H; [by right|done].
Qed.

End KeepsTail.

(** X20.  The children of the process after a masking run are children of the
    process before it, in their order, followed by the bypass flows in
    the order of their creation: the run never moves a child, and a
    bypass flow is never put between the children that were there. *)
Theorem masking_keeps_order (d : Doc) (thr : float) (dir : string) :
  exists kept,
    kept `sublist_of` d_process d /\
    finalProc d thr dir = kept ++ (PFlow <$> bypassFlows d thr dir).
Proof.
  assert (Hb : bypassFlows d thr dir = createdFlows (log (ms_dom (synthPhase d thr dir)))).
  { unfold bypassFlows, runLog. rewrite maskRun_two_phase.
    destruct (excisePhase_excised d thr dir (synthPhase d thr dir)) as (Hsh & _).
    by apply shrinksTo_created in Hsh. }
  destruct (appended_synthPhase d thr dir) as [Hp _].
  pose proof (runInv_synthPhase d thr dir) as Hinv.
  unfold finalProc, maskByPrivacy. cbn [fst docOf d_process].
  rewrite maskRun_two_phase, Hb. unfold excisePhase.
  eapply (exciseNodes_keepsTail (list_to_set (maskedOf d thr dir))); [| |exact Hp].
  - intros x (f & -> & Hf)%list_elem_of_fmap. exists f.
    destruct (ri_created _ _ _ Hinv f Hf) as (? & ? & _). done.
  - intros mid f Hmid%(elem_of_list_to_set (C := gset string)) Hf.
    apply elem_of_app in Hf as [Hf|Hf]; apply elem_of_indexFlows in Hf as [_ ->]; auto.
Qed.

(** ** The edges drawn for the bypass flows *)

Lemma createdDI_app l1 l2 : createdDI (l1 ++ l2) = createdDI l1 ++ createdDI l2.
Proof. apply omap_app. Qed.

Lemma createdDI_removals l : forallb isRemoval l = true -> createdDI l = [].
Proof.
  induction l as [|e l IH]; [done|]. cbn [forallb]. intros [He Hl]%andb_true_iff.
  destruct e; try done; cbn; auto.
Qed.

Lemma boundsFor_edge pl i be wps elId :
  boundsFor (pl ++ [DEdge i be wps]) elId = boundsFor pl elId.
Proof. unfold boundsFor. rewrite omap_app. cbn. by rewrite app_nil_r. Qed.

(** The plane is the plane [p0] followed by the edges drawn so far, and
    one edge was drawn for every bypass flow both ends of which have
    bounds. *)
Definition edgesFollow (p0 : list DINode) (st : MaskSt) : Prop :=
  plane (ms_dom st) = p0 ++ createdDI (log (ms_dom st)) /\
  createdDI (log (ms_dom st)) = omap (edgeFor p0) (createdFlows (log (ms_dom st))) /\
  forall i, boundsFor (plane (ms_dom st)) i = boundsFor p0 i.

Lemma edgesFollow_synthPair p0 s t st :
  edgesFollow p0 st -> edgesFollow p0 (synthPair s t st).
Proof.
  intros (Hpl & Hdi & Hb). unfold synthPair.
  destruct (String.eqb s t); [done|]. case_bool_decide; [done|].
  destruct (is_Some_b _); [done|].
  set (nf := {| f_id := _ |}).
  change (plane (appendChild (PFlow nf) (ms_dom st))) with (plane (ms_dom st)).
  rewrite !Hb.
  assert (He : edgeFor p0 nf
               = match boundsFor p0 s, boundsFor p0 t with
                 | Some sb, Some tb =>
                     Some (DEdge (f_id nf +:+ "_di") (f_id nf) (bypassWaypoints sb tb))
                 | _, _ => None
                 end) by done.
  unfold edgesFollow.
  destruct (boundsFor p0 s) as [sb|], (boundsFor p0 t) as [tb|];
    cbn [ms_dom appendDI appendChild log plane];
    rewrite ?createdDI_app, ?createdFlows_app, ?omap_app;
    cbn [createdDI createdFlows omap list_omap]; rewrite He, ?app_nil_r;
    (split_and!; [by rewrite Hpl, ?app_assoc|by rewrite Hdi|]);
    intros i; by rewrite ?boundsFor_edge.
Qed.

Lemma edgesFollow_synthPairs p0 (l : list (string * string)) st :
  edgesFollow p0 st -> edgesFollow p0 (foldl (fun st p => synthPair p.1 p.2 st) st l).
Proof.
  revert st. induction l as [|p l IH]; intros st Hst; cbn [foldl]; [done|].
  by apply IH, edgesFollow_synthPair.
Qed.

(** Removals keep the plane children in their order. *)
Definition planeKept (s s' : Dom) : Prop := plane s' `sublist_of` plane s.

Lemma planeKept_refl s : planeKept s s.
Proof. unfold planeKept. reflexivity. Qed.

Lemma planeKept_trans s1 s2 s3 : planeKept s1 s2 -> planeKept s2 s3 -> planeKept s1 s3.
Proof. unfold planeKept. intros. by etransitivity. Qed.

Lemma planeKept_foldl {A} (op : Dom -> A -> Dom) (l : list A) s :
  (forall s a, planeKept s (op s a)) -> planeKept s (foldl op s l).
Proof.
  intros H. revert s. induction l as [|a l IH]; intros s; cbn [foldl];
    [apply planeKept_refl|].
  eapply planeKept_trans; [apply H|apply IH].
Qed.

Lemma removeDI_planeKept p s : planeKept s (removeDI p s).
Proof. apply List_filter_sublist. Qed.

Lemma detach_planeKept p s : planeKept s (detach p s).
Proof. unfold planeKept. rewrite detach_plane. reflexivity. Qed.

Lemma detachLast_planeKept p s : planeKept s (detachLast p s).
Proof. unfold planeKept, detachLast. destruct (List.find _ _); reflexivity. Qed.

Lemma maybeRemove_planeKept taId s :
  planeKept s (maybeRemoveTextAnnotationIfOrphaned taId s).
Proof.
  unfold maybeRemoveTextAnnotationIfOrphaned. destruct (Nat.ltb _ _); [apply planeKept_refl|].
  eapply planeKept_trans; [apply detach_planeKept|apply removeDI_planeKept].
Qed.

Lemma cascade_planeKept a s : planeKept s (removeAssociationCascade a s).
Proof.
  unfold removeAssociationCascade.
  set (s2 := detach (isAssocNode a) _).
  assert (H2 : planeKept s s2).
  { eapply planeKept_trans; [apply removeDI_planeKept|apply detach_planeKept]. }
  destruct (existsb _ _), (existsb _ _);
    repeat (first [exact H2 | eapply planeKept_trans; [|by apply maybeRemove_planeKept]]).
Qed.

Lemma removeAll_planeKept elId s : planeKept s (removeAllAssociationsTouchingId elId s).
Proof.
  unfold removeAllAssociationsTouchingId. apply planeKept_foldl. intros. apply cascade_planeKept.
Qed.

Lemma removeFlow_planeKept st f : planeKept (ms_dom st) (ms_dom (removeFlow st f)).
Proof.
  unfold removeFlow. destruct (_ || _); [apply planeKept_refl|]. cbn [ms_dom].
  eapply planeKept_trans; [apply removeAll_planeKept|].
  eapply planeKept_trans; [apply removeDI_planeKept|apply detach_planeKept].
Qed.

Lemma removeFlows_planeKept (l : list Flow) st :
  planeKept (ms_dom st) (ms_dom (foldl removeFlow st l)).
Proof.
  revert st. induction l as [|f l IH]; intros st; cbn [foldl]; [apply planeKept_refl|].
  eapply planeKept_trans; [apply removeFlow_planeKept|apply IH].
Qed.

Lemma exciseNode_planeKept byId fbs fbt st mid :
  planeKept (ms_dom st) (ms_dom (exciseNode byId fbs fbt st mid)).
Proof.
  unfold exciseNode. cbn [ms_dom].
  eapply planeKept_trans; [apply removeFlows_planeKept|].
  eapply planeKept_trans; [apply removeAll_planeKept|].
  eapply planeKept_trans; [|apply removeDI_planeKept].
  destruct (byId !! mid); [|apply planeKept_refl].
  case_bool_decide; [apply planeKept_refl|apply detachLast_planeKept].
Qed.

Lemma exciseNodes_planeKept byId fbs fbt (mids : list string) st :
  planeKept (ms_dom st) (ms_dom (foldl (exciseNode byId fbs fbt) st mids)).
Proof.
  revert st. induction mids as [|mid mids IH]; intros st; cbn [foldl];
    [apply planeKept_refl|].
  eapply planeKept_trans; [apply exciseNode_planeKept|apply IH].
Qed.

(** X21.  The run draws one edge for every bypass flow both ends of which have
    a shape with bounds in the plane it started from, and no other edge:
    the edge is named after the flow and has two waypoints, the middle of
    the right side of the source and the middle of the left side of the
    target, each coordinate being the number computed from the bounds
    except that a zero is written without its sign.  When the run ends,
    the plane holds children of the plane it started from and drawn
    edges, in that order, and nothing else. *)
Theorem bypass_edges_drawn (d : Doc) (thr : float) (dir : string) :
  createdDI (runLog d thr dir) = omap (edgeFor (ensurePlane d)) (bypassFlows d thr dir) /\
  finalPlane d thr dir `sublist_of` ensurePlane d ++ createdDI (runLog d thr dir).
Proof.
  assert (He : edgesFollow (ensurePlane d) (synthPhase d thr dir)).
  { unfold synthPhase. rewrite synthAll_pairs. apply edgesFollow_synthPairs.
    split_and!; [|done..]. cbn. by rewrite app_nil_r. }
  destruct He as (Hpl & Hdi & _).
  destruct (excisePhase_excised d thr dir (synthPhase d thr dir)) as (Hsh & _).
  destruct (sh_log _ _ _ Hsh) as (l & Hl & Hrm).
  unfold bypassFlows, runLog, finalPlane. rewrite maskRun_two_phase, Hl.
  rewrite createdDI_app, createdFlows_app, (createdDI_removals l Hrm),
    (createdFlows_removals l Hrm), !app_nil_r.
  split; [done|]. rewrite <- Hpl. apply exciseNodes_planeKept.
Qed.

(** ** Removing the associations of an element *)

Lemma cascade_no_edge a s y :
  y ∈ plane (removeAssociationCascade a s) -> isEdgeFor (a_id a) y = false.
Proof.
  unfold removeAssociationCascade.
  set (s1 := removeDIEdgeForElement (a_id a) s).
  set (s2 := detach (isAssocNode a) s1).
  assert (H2 : planeKept s1 s2) by apply detach_planeKept.
  assert (H : forall s3, planeKept s1 s3 -> y ∈ plane s3 -> isEdgeFor (a_id a) y = false).
  { intros s3 H3 Hy. eapply elem_of_sublist in Hy; [|exact H3].
    apply list_elem_of_In, filter_In in Hy as [_ Hy]. by apply negb_true_iff. }
  destruct (existsb _ _), (existsb _ _); apply H;
    repeat (first [exact H2 | eapply planeKept_trans; [|by apply maybeRemove_planeKept]]).
Qed.

Lemma removeAll_no_edge elId s a y :
  a ∈ List.filter (touches elId) (selectAssocs (proc s)) ->
  y ∈ plane (removeAllAssociationsTouchingId elId s) -> isEdgeFor (a_id a) y = false.
Proof.
  unfold removeAllAssociationsTouchingId.
  generalize (List.filter (touches elId) (selectAssocs (proc s))) as T.
  intros T. revert s. induction T as [|b T IH]; intros s; [by intros ?%elem_of_nil|].
  cbn [foldl]. intros [->|Ha]%elem_of_cons Hy; [|by eapply IH].
  eapply cascade_no_edge, elem_of_sublist; [exact Hy|].
  apply (planeKept_foldl (fun s a => removeAssociationCascade a s)).
  intros. apply cascade_planeKept.
Qed.

(** X22.  [removeAllAssociationsTouchingId] removes every association that has
    [elId] as its source or its target, also when several carry the same
    attributes, together with the edges drawn for them; the other
    associations stay in their order, and no activity and no flow is
    touched. *)
Theorem removeAll_removes_exactly (elId : string) (s : Dom) :
  selectAssocs (proc (removeAllAssociationsTouchingId elId s))
    = List.filter (fun a => negb (touches elId a)) (selectAssocs (proc s)) /\
  selectFlows (proc (removeAllAssociationsTouchingId elId s)) = selectFlows (proc s) /\
  getTaskList (proc (removeAllAssociationsTouchingId elId s)) = getTaskList (proc s) /\
  forall a y, a ∈ selectAssocs (proc s) -> touches elId a = true ->
              y ∈ plane (removeAllAssociationsTouchingId elId s) ->
              isEdgeFor (a_id a) y = false.
Proof.
  split_and!.
  - apply removeAll_selectAssocs.
  - apply removeAll_selectFlows.
  - apply removeAll_getTaskList.
  - intros a y Ha Ht. apply removeAll_no_edge.
    apply list_elem_of_In, filter_In. by rewrite <- list_elem_of_In.
Qed.

(** ** Annotations and their associations during a masking run *)

(** Associations in [A] touching [i]; annotations in [N] with the id [i]. *)
Definition cnt (A : list Assoc) (i : string) : nat := length (List.filter (touches i) A).
Definition occ (i : string) (N : list string) : nat := length (List.filter (String.eqb i) N).

(** From associations [A] and annotation ids [N] to [A'] and [N']: nothing
    is added, an annotation goes only when nothing touches it any more,
    and no annotation that stays loses its last association. *)
Record orphanSafe (A : list Assoc) (N : list string) (A' : list Assoc) (N' : list string)
  : Prop := {
  os_assocs : A' `sublist_of` A;
  os_annots : N' `sublist_of` N;
  os_gone : forall i, occ i N' < occ i N -> cnt A' i = 0;
  os_new : NoDup N -> forall i, i ∈ N' -> cnt A' i = 0 -> cnt A i = 0
}.

Lemma List_filter_sublist_mono {A} (p : A -> bool) (l1 l2 : list A) :
  l1 `sublist_of` l2 -> List.filter p l1 `sublist_of` List.filter p l2.
Proof.
  induction 1 as [|x l1 l2 _ IH|x l1 l2 _ IH]; cbn [List.filter]; [done| |].
  - destruct (p x); [by constructor|done].
  - destruct (p x); [by constructor|done].
Qed.

Lemma cnt_sublist A A' i : A' `sublist_of` A -> cnt A' i <= cnt A i.
Proof. intros H. apply sublist_length, List_filter_sublist_mono, H. Qed.

Lemma orphanSafe_refl A N : orphanSafe A N A N.
Proof. split; [done|done|lia|done]. Qed.

Lemma orphanSafe_trans A1 N1 A2 N2 A3 N3 :
  orphanSafe A1 N1 A2 N2 -> orphanSafe A2 N2 A3 N3 -> orphanSafe A1 N1 A3 N3.
Proof.
  intros [Ha1 Hn1 Hg1 Hw1] [Ha2 Hn2 Hg2 Hw2]. split.
  - by etransitivity.
  - by etransitivity.
  - intros i Hi. destruct (decide (occ i N3 < occ i N2)) as [H|H]; [by apply Hg2|].
    assert (H1 : cnt A2 i = 0) by (apply Hg1; lia).
    pose proof (cnt_sublist _ _ i Ha2). lia.
  - intros Hnd i Hi H3.
    assert (Hnd2 : NoDup N2) by (by eapply sublist_NoDup).
    apply Hw1; [done|by eapply elem_of_sublist|]. by apply Hw2.
Qed.

Definition orphanStep (s s' : Dom) : Prop :=
  orphanSafe (selectAssocs (proc s)) (selectAnnotIds (proc s))
             (selectAssocs (proc s')) (selectAnnotIds (proc s')).

Lemma orphanStep_same s s' :
  selectAssocs (proc s') = selectAssocs (proc s) ->
  selectAnnotIds (proc s') = selectAnnotIds (proc s) -> orphanStep s s'.
Proof. unfold orphanStep. intros -> ->. apply orphanSafe_refl. Qed.

Lemma orphanStep_foldl {X} (op : Dom -> X -> Dom) (l : list X) s :
  (forall s x, orphanStep s (op s x)) -> orphanStep s (foldl op s l).
Proof.
  intros H. revert s. induction l as [|x l IH]; intros s; cbn [foldl].
  - apply orphanSafe_refl.
  - eapply orphanSafe_trans; [apply H|apply IH].
Qed.

(** What [maybeRemoveTextAnnotationIfOrphaned] does to the annotation ids. *)
Definition dropAnnot (A : list Assoc) (i : string) (N : list string) : list string :=
  if Nat.ltb 0 (cnt A i) then N else remove_first (fun j => String.eqb j i) N.

Lemma maybeRemove_annots ta s :
  selectAnnotIds (proc (maybeRemoveTextAnnotationIfOrphaned ta s))
  = dropAnnot (selectAssocs (proc s)) ta (selectAnnotIds (proc s)).
Proof.
  unfold maybeRemoveTextAnnotationIfOrphaned, dropAnnot, countAssociationsTouching, cnt.
  destruct (Nat.ltb _ _); [done|].
  cbn [removeDIShapeForElement removeDI proc]. rewrite detach_proc.
  apply omap_remove_first_same. by intros [].
Qed.

Lemma existsb_isAnnot i p : existsb (isAnnot i) p = bool_decide (i ∈ selectAnnotIds p).
Proof.
  induction p as [|x p IH]; [done|]. cbn [existsb]. unfold selectAnnotIds in *.
  rewrite omap_cons'. destruct x as [?|?|?|j ?|?|? ?]; cbn [isAnnot orb]; try exact IH.
  rewrite IH. destruct (String.eqb_spec j i) as [->|Hne]; cbn [orb].
  - symmetry. apply bool_decide_eq_true_2. left.
  - apply bool_decide_ext. rewrite elem_of_cons. naive_solver.
Qed.

Lemma detach_assoc_annots a s :
  selectAnnotIds (proc (detach (isAssocNode a) s)) = selectAnnotIds (proc s).
Proof. rewrite detach_proc. apply omap_remove_first_other. by intros []. Qed.

Lemma cascade_annots a s :
  selectAnnotIds (proc (removeAssociationCascade a s))
  = let A' := remove_first (assoc_eqb a) (selectAssocs (proc s)) in
    let N := selectAnnotIds (proc s) in
    let N3 := if bool_decide (a_src a ∈ N) then dropAnnot A' (a_src a) N else N in
    if bool_decide (a_tgt a ∈ N) then dropAnnot A' (a_tgt a) N3 else N3.
Proof.
  unfold removeAssociationCascade. cbv zeta.
  set (s2 := detach (isAssocNode a) (removeDIEdgeForElement (a_id a) s)).
  assert (HA : selectAssocs (proc s2) = remove_first (assoc_eqb a) (selectAssocs (proc s))).
  { unfold s2. by rewrite selectAssocs_detach_assoc. }
  assert (HN : selectAnnotIds (proc s2) = selectAnnotIds (proc s)).
  { unfold s2. by rewrite detach_assoc_annots. }
  rewrite !existsb_isAnnot, HN.
  destruct (bool_decide (a_src a ∈ _)), (bool_decide (a_tgt a ∈ _));
    rewrite ?maybeRemove_annots, ?maybeRemove_selectAssocs, ?maybeRemove_annots, ?HA, ?HN;
    done.
Qed.

Lemma occ_remove_first_ne i k N :
  i <> k -> occ i (remove_first (fun j => String.eqb j k) N) = occ i N.
Proof.
  intros Hne. unfold occ. induction N as [|j N IH]; [done|]. cbn [remove_first].
  destruct (String.eqb_spec j k) as [->|Hjk]; cbn [List.filter].
  - by rewrite (proj2 (String.eqb_neq i k)).
  - destruct (String.eqb i j); cbn [length]; by rewrite IH.
Qed.

Lemma dropAnnot_sublist A k N : dropAnnot A k N `sublist_of` N.
Proof. unfold dropAnnot. destruct (Nat.ltb _ _); [done|apply remove_first_sublist]. Qed.

Lemma cond_dropAnnot_sublist (b : bool) A k N :
  (if b then dropAnnot A k N else N) `sublist_of` N.
Proof. destruct b; [apply dropAnnot_sublist|done]. Qed.

Lemma dropAnnot_gone A k N i : occ i (dropAnnot A k N) < occ i N -> cnt A i = 0.
Proof.
  unfold dropAnnot. destruct (Nat.ltb_spec 0 (cnt A k)) as [H|H]; [lia|].
  destruct (decide (i = k)) as [->|Hne]; [lia|]. rewrite occ_remove_first_ne by done. lia.
Qed.

Lemma remove_first_self_NoDup (i : string) (N : list string) :
  NoDup N -> i ∉ remove_first (fun j => String.eqb j i) N.
Proof.
  intros Hnd Hin.
  by apply (remove_first_key (fun j : string => j) i N i) in Hin; [|rewrite list_fmap_id].
Qed.

Lemma dropAnnot_orphan A k N :
  NoDup N -> cnt A k = 0 -> k ∉ dropAnnot A k N.
Proof.
  intros Hnd Hc. unfold dropAnnot. rewrite Hc. cbn. by apply remove_first_self_NoDup.
Qed.

Lemma filter_remove_first_other {X} (p q : X -> bool) (l : list X) :
  (forall x, p x = true -> q x = false) ->
  List.filter q (remove_first p l) = List.filter q l.
Proof.
  intros H. induction l as [|x l IH]; [done|]. cbn [remove_first].
  destruct (p x) eqn:Ep; cbn [List.filter].
  - by rewrite (H x Ep).
  - by rewrite IH.
Qed.

Lemma cascade_orphanStep a s : orphanStep s (removeAssociationCascade a s).
Proof.
  unfold orphanStep. rewrite cascade_selectAssocs, cascade_annots. cbv zeta.
  set (A := selectAssocs (proc s)). set (N := selectAnnotIds (proc s)).
  set (A' := remove_first (assoc_eqb a) A).
  set (N3 := if bool_decide (a_src a ∈ N) then dropAnnot A' (a_src a) N else N).
  set (N4 := if bool_decide (a_tgt a ∈ N) then dropAnnot A' (a_tgt a) N3 else N3).
  assert (H3 : N3 `sublist_of` N) by apply cond_dropAnnot_sublist.
  assert (H4 : N4 `sublist_of` N3) by apply cond_dropAnnot_sublist.
  split.
  - apply remove_first_sublist.
  - by etransitivity.
  - intros i Hi.
    destruct (decide (occ i N4 < occ i N3)) as [H|H].
    + unfold N4 in H. destruct (bool_decide (a_tgt a ∈ N)); [|lia].
      by apply dropAnnot_gone in H.
    + assert (H' : occ i N3 < occ i N) by lia.
      unfold N3 in H'. destruct (bool_decide (a_src a ∈ N)); [|lia].
      by apply dropAnnot_gone in H'.
  - intros Hnd i Hi4 Hc.
    destruct (touches i a) eqn:Et.
    + exfalso. assert (HiN : i ∈ N) by exact (elem_of_sublist _ _ _ (elem_of_sublist _ _ _ Hi4 H4) H3).
      assert (Hnd3 : NoDup N3) by (by eapply sublist_NoDup).
      unfold touches in Et. apply orb_true_iff in Et as [E%String.eqb_eq|E%String.eqb_eq].
      * assert (Hi3 : i ∈ N3) by exact (elem_of_sublist _ _ _ Hi4 H4).
        revert Hi3. unfold N3. rewrite E. rewrite bool_decide_eq_true_2 by done.
        by apply dropAnnot_orphan.
      * revert Hi4. unfold N4. rewrite E. rewrite bool_decide_eq_true_2 by done.
        by apply dropAnnot_orphan.
    + unfold cnt in *. unfold A' in Hc. rewrite filter_remove_first_other in Hc; [done|].
      intros b Hb%assoc_eqb_eq. by subst b.
Qed.

Lemma removeAll_orphanStep elId s : orphanStep s (removeAllAssociationsTouchingId elId s).
Proof.
  unfold removeAllAssociationsTouchingId. apply orphanStep_foldl.
  intros. apply cascade_orphanStep.
Qed.

Lemma orphanStep_trans s1 s2 s3 : orphanStep s1 s2 -> orphanStep s2 s3 -> orphanStep s1 s3.
Proof. apply orphanSafe_trans. Qed.

Lemma removeFlow_orphanStep st f : orphanStep (ms_dom st) (ms_dom (removeFlow st f)).
Proof.
  unfold removeFlow. destruct (_ || _); [apply orphanSafe_refl|]. cbn [ms_dom].
  eapply orphanStep_trans; [apply removeAll_orphanStep|].
  apply orphanStep_same; rewrite detach_proc; cbn [removeDIEdgeForElement removeDI proc];
    apply omap_remove_first_other; by intros [].
Qed.

Lemma orphanStep_foldl_st {X} (op : MaskSt -> X -> MaskSt) (l : list X) st :
  (forall st x, orphanStep (ms_dom st) (ms_dom (op st x))) ->
  orphanStep (ms_dom st) (ms_dom (foldl op st l)).
Proof.
  intros H. revert st. induction l as [|x l IH]; intros st; cbn [foldl].
  - apply orphanSafe_refl.
  - eapply orphanStep_trans; [apply H|apply IH].
Qed.

Lemma exciseNode_orphanStep byId fbs fbt st mid :
  orphanStep (ms_dom st) (ms_dom (exciseNode byId fbs fbt st mid)).
Proof.
  unfold exciseNode. cbn [ms_dom].
  eapply orphanStep_trans; [apply (orphanStep_foldl_st removeFlow), removeFlow_orphanStep|].
  eapply orphanStep_trans; [apply removeAll_orphanStep|].
  apply orphanStep_same; cbn [removeDIShapeForElement removeDI proc];
    (destruct (byId !! mid); [|done]); (case_bool_decide; [done|]);
    rewrite detachLast_proc; apply omap_remove_last_other; by intros [].
Qed.

(** The run as a whole, from the document to the final process. *)
Lemma maskRun_orphanSafe d thr dir :
  orphanSafe (selectAssocs (d_process d)) (selectAnnotIds (d_process d))
             (selectAssocs (finalProc d thr dir)) (selectAnnotIds (finalProc d thr dir)).
Proof.
  unfold finalProc, maskByPrivacy. cbn [fst docOf d_process].
  rewrite maskRun_two_phase. unfold excisePhase. cbv zeta.
  destruct (appended_synthPhase d thr dir) as [Hpr _].
  assert (HA : selectAssocs (proc (ms_dom (synthPhase d thr dir)))
               = selectAssocs (d_process d)).
  { rewrite Hpr. unfold selectAssocs. rewrite omap_app, (omap_fmap_none _ PFlow) by done.
    apply app_nil_r. }
  assert (HN : selectAnnotIds (proc (ms_dom (synthPhase d thr dir)))
               = selectAnnotIds (d_process d)).
  { rewrite Hpr. unfold selectAnnotIds. rewrite omap_app, (omap_fmap_none _ PFlow) by done.
    apply app_nil_r. }
  rewrite <- HA, <- HN.
  apply (orphanStep_foldl_st (exciseNode _ _ _) (maskedOf d thr dir)).
  intros. apply exciseNode_orphanStep.
Qed.

(** X23.  A masking run deletes an annotation only when no association refers to
    it any longer: if the process has lost an annotation with the id [i],
    no association of the final process has [i] as source or target. *)
Theorem masking_deletes_only_orphans (d : Doc) (thr : float) (dir : string) (i : string) :
  length (List.filter (String.eqb i) (selectAnnotIds (finalProc d thr dir)))
  < length (List.filter (String.eqb i) (selectAnnotIds (d_process d))) ->
  countAssociationsTouching (finalProc d thr dir) i = 0.
Proof. apply (os_gone _ _ _ _ (maskRun_orphanSafe d thr dir)). Qed.

(** X24.  When the annotations have distinct ids and each of them has an
    association, every annotation left by a masking run still has one. *)
Theorem masking_leaves_no_orphan (d : Doc) (thr : float) (dir : string) (i : string) :
  NoDup (selectAnnotIds (d_process d)) ->
  (forall j, j ∈ selectAnnotIds (d_process d) ->
             0 < countAssociationsTouching (d_process d) j) ->
  i ∈ selectAnnotIds (finalProc d thr dir) ->
  0 < countAssociationsTouching (finalProc d thr dir) i.
Proof.
  intros Hnd Hall Hi. pose proof (maskRun_orphanSafe d thr dir) as [_ Hn _ Hw].
  destruct (countAssociationsTouching (finalProc d thr dir) i) eqn:E; [|lia].
  specialize (Hw Hnd i Hi E). specialize (Hall i (elem_of_sublist _ _ _ Hi Hn)).
  unfold countAssociationsTouching in Hall. unfold cnt in Hw. lia.
Qed.

(** ** References cleared whatever the ids *)

(** No association refers to [i] and no diagram edge is left for it. *)
Definition flowCleared (st : MaskSt) (i : string) : Prop :=
  (forall a, PAssoc a ∈ proc (ms_dom st) -> touches i a = false) /\
  (forall y, y ∈ plane (ms_dom st) -> isEdgeFor i y = false).

Definition removedClean (st : MaskSt) : Prop :=
  forall i, i ∈ ms_removedFlowIds st -> flowCleared st i.

Lemma flowCleared_later st st' i : later st st' -> flowCleared st i -> flowCleared st' i.
Proof.
  intros Hl [Ha Hy]. split.
  - intros a Hin. apply Ha. by apply (lt_proc _ _ Hl).
  - intros y Hin. apply Hy. by apply (lt_plane _ _ Hl).
Qed.

Lemma removedClean_later st st' :
  later st st' -> ms_removedFlowIds st' = ms_removedFlowIds st ->
  removedClean st -> removedClean st'.
Proof.
  intros Hl E H i Hi. rewrite E in Hi. eapply flowCleared_later; [done|]. by apply H.
Qed.

Lemma removeFlow_clean st f :
  removedClean st ->
  removedClean (removeFlow st f) /\
  (f_id f <> "" -> f_id f ∈ ms_removedFlowIds (removeFlow st f)).
Proof.
  intros Hst. pose proof (removeFlow_later st f) as Hl. revert Hl. unfold removeFlow.
  destruct (String.eqb_spec (f_id f) "") as [E|Hne]; cbn [orb].
  { intros _. split; [done|]. by intros []. }
  case_bool_decide as Hin; cbn [orb].
  { intros _. by split. }
  intros Hl. split; [|intros _; cbn [ms_removedFlowIds]; set_solver].
  intros i. cbn [ms_removedFlowIds]. intros [->%elem_of_singleton|Hi]%elem_of_union.
  - split; cbn [ms_dom].
    + intros a Ha. rewrite detach_proc in Ha. apply elem_of_remove_first in Ha.
      cbn [removeDIEdgeForElement removeDI proc] in Ha. by apply removeAll_clears in Ha.
    + intros y Hy. rewrite detach_plane in Hy.
      cbn [removeDIEdgeForElement removeDI plane] in Hy.
      apply list_elem_of_In, filter_In in Hy as [_ Hy]. by apply negb_true_iff.
  - eapply flowCleared_later; [exact Hl|]. by apply Hst.
Qed.

Lemma removeFlows_clean (T : list Flow) st :
  removedClean st ->
  removedClean (foldl removeFlow st T) /\
  forall f, f ∈ T -> f_id f <> "" -> f_id f ∈ ms_removedFlowIds (foldl removeFlow st T).
Proof.
  revert st. induction T as [|f T IH]; intros st Hst; cbn [foldl].
  - split; [done|]. by intros f ?%elem_of_nil.
  - destruct (removeFlow_clean st f Hst) as [H1 Hf].
    destruct (IH _ H1) as [H2 HT]. split; [done|].
    intros g [->|Hg]%elem_of_cons Hne; [|by apply HT].
    apply (lt_removed _ _ (removeFlows_later T (removeFlow st f))). by apply Hf.
Qed.

Lemma exciseNode_clean byId fbs fbt st mid :
  removedClean st ->
  removedClean (exciseNode byId fbs fbt st mid) /\
  forall f, f ∈ default [] (fbt !! mid) ++ default [] (fbs !! mid) -> f_id f <> "" ->
            f_id f ∈ ms_removedFlowIds (exciseNode byId fbs fbt st mid).
Proof.
  intros Hst. rewrite exciseNode_rest. cbv zeta.
  destruct (removeFlows_clean (default [] (fbt !! mid) ++ default [] (fbs !! mid)) st Hst)
    as [H1 HT].
  split; [|exact HT].
  set (st1 := foldl removeFlow st _) in *.
  match goal with |- removedClean ?s => apply (removedClean_later st1 s) end;
    [|reflexivity|exact H1].
  eapply later_of_shrinks; [apply exciseRest_shrinks|done].
Qed.

Lemma excise_all_clean orig byId (mids : list string) st :
  removedClean st ->
  let st' := foldl (exciseNode byId (indexFlows f_src (selectFlows orig))
                               (indexFlows f_tgt (selectFlows orig))) st mids in
  removedClean st' /\
  forall mid f, mid ∈ mids -> PFlow f ∈ orig -> f_src f = mid \/ f_tgt f = mid ->
                f_id f <> "" -> f_id f ∈ ms_removedFlowIds st'.
Proof.
  revert st. induction mids as [|mid mids IH]; intros st Hst; cbn [foldl].
  - split; [done|]. by intros mid f ?%elem_of_nil.
  - destruct (exciseNode_clean byId (indexFlows f_src (selectFlows orig))
                (indexFlows f_tgt (selectFlows orig)) st mid Hst) as [H1 Hm].
    destruct (IH _ H1) as [H2 Hall]. split; [done|].
    intros m f [->|Hin]%elem_of_cons Hf Hend Hne; [|by eapply Hall].
    apply (lt_removed _ _ (excise_all_later orig byId mids _)). apply Hm; [|done].
    apply elem_of_app. apply elem_of_selectFlows in Hf.
    destruct Hend as [E|E]; [right|left]; by apply elem_of_indexFlows.
Qed.

(** X25.  Whatever ids the flows carry: after a masking run no association
    refers to a masked activity and no shape is left for one; and for
    every flow of the document with a masked end and an id, no association
    refers to that id and no diagram edge is left for it. *)
Theorem masking_clears_references (d : Doc) (thr : float) (dir : string) :
  (forall a, PAssoc a ∈ finalProc d thr dir ->
     a_src a ∉ maskedOf d thr dir /\ a_tgt a ∉ maskedOf d thr dir) /\
  (forall i be b, DShape i be b ∈ finalPlane d thr dir -> be ∉ maskedOf d thr dir) /\
  (forall f, PFlow f ∈ d_process d ->
     f_src f ∈ maskedOf d thr dir \/ f_tgt f ∈ maskedOf d thr dir -> f_id f <> "" ->
     (forall a, PAssoc a ∈ finalProc d thr dir -> a_src a <> f_id f /\ a_tgt a <> f_id f) /\
     (forall i be w, DEdge i be w ∈ finalPlane d thr dir -> be <> f_id f)).
Proof.
  destruct (no_dangling_assoc_shape d thr dir) as [Ha Hs].
  split_and!; [done..|].
  intros f Hf Hend Hne.
  assert (H0 : removedClean (synthPhase d thr dir)).
  { destruct (appended_synthPhase d thr dir) as [_ Hr]. intros i. rewrite Hr.
    by intros ?%not_elem_of_empty. }
  destruct (excise_all_clean (d_process d) (indexTasks (getTaskList (d_process d)))
              (maskedOf d thr dir) _ H0) as [Hc Hall].
  assert (Hin : f_id f ∈ ms_removedFlowIds (maskRun d thr dir)).
  { rewrite maskRun_two_phase. unfold excisePhase.
    destruct Hend as [E|E]; [apply (Hall (f_src f) f)|apply (Hall (f_tgt f) f)]; auto. }
  rewrite maskRun_two_phase in Hin. unfold excisePhase in Hin.
  destruct (Hc _ Hin) as [Hca Hcy].
  unfold finalProc, finalPlane, maskByPrivacy. cbn [fst docOf d_process].
  rewrite maskRun_two_phase. unfold excisePhase. split.
  - intros a Hin'. by apply touches_false, Hca.
  - intros i be w Hy E. specialize (Hcy _ Hy). cbn [isEdgeFor] in Hcy.
    rewrite E, String.eqb_refl in Hcy. done.
Qed.

(** ** What the cleanup pass leaves alone *)

Lemma omap_filter_keep {A B} (sel : A -> option B) (p : A -> bool) (l : list A) :
  (forall x, p x = false -> sel x = None) -> omap sel (List.filter p l) = omap sel l.
Proof.
  intros H. induction l as [|x l IH]; [done|]. cbn [List.filter].
  destruct (p x) eqn:E; rewrite !omap_cons', ?IH; [done|]. by rewrite (H x E).
Qed.

Lemma cleanup_select {B} (sel : PNode -> option B) absentIsNull d :
  (forall g, sel (PGroup g) = None) -> (forall a, sel (PAssoc a) = None) ->
  omap sel (d_process (clearOldFragments absentIsNull d)) = omap sel (d_process d).
Proof.
  intros Hg Ha. unfold clearOldFragments. cbn [d_process].
  rewrite !omap_filter_keep; [done| |].
  - intros [?|?|?|? ?|?|? ?]; cbn; done.
  - intros [?|?|?|? ?|?|? ?]; cbn; done.
Qed.

(** X26.  The cleanup pass touches neither the activities, nor the flows, nor
    the annotations: the components found by fragmentation and the set of
    activities to mask are the same before and after it. *)
Theorem cleanup_keeps_the_graph (absentIsNull : bool) (d : Doc) :
  getTaskList (d_process (clearOldFragments absentIsNull d)) = getTaskList (d_process d) /\
  selectFlows (d_process (clearOldFragments absentIsNull d)) = selectFlows (d_process d) /\
  selectAnnotIds (d_process (clearOldFragments absentIsNull d))
  = selectAnnotIds (d_process d) /\
  (forall thr incl,
     fragmentComps (d_process (clearOldFragments absentIsNull d)) thr incl
     = fragmentComps (d_process d) thr incl) /\
  (forall thr dir,
     maskedOf (clearOldFragments absentIsNull d) thr dir = maskedOf d thr dir).
Proof.
  assert (Ht := cleanup_select (fun n => match n with PTask t => Some t | _ => None end)
                  absentIsNull d (fun _ => eq_refl) (fun _ => eq_refl)).
  assert (Hf := cleanup_select (fun n => match n with PFlow f => Some f | _ => None end)
                  absentIsNull d (fun _ => eq_refl) (fun _ => eq_refl)).
  assert (Hn := cleanup_select (fun n => match n with PAnnot i _ => Some i | _ => None end)
                  absentIsNull d (fun _ => eq_refl) (fun _ => eq_refl)).
  fold (getTaskList (d_process (clearOldFragments absentIsNull d))) in Ht.
  fold (getTaskList (d_process d)) in Ht.
  fold (selectFlows (d_process (clearOldFragments absentIsNull d))) in Hf.
  fold (selectFlows (d_process d)) in Hf.
  split_and!; [done..| |].
  - intros thr incl. unfold fragmentComps. by rewrite Ht, Hf.
  - intros thr dir. unfold maskedOf. by rewrite Ht.
Qed.

Lemma selectGroups_filter_assoc (l : list PNode) :
  selectGroups (List.filter (fun n => negb (isFragmentAssoc n)) l) = selectGroups l.
Proof. apply omap_filter_keep. by intros [?|?|?|? ?|?|? ?]. Qed.

(** X27.  The test on [cpl:fragmentId] spares a group only when the DOM answers
    [null] for an absent attribute: then the groups kept are those without
    the attribute whose id does not start with Fragment_.  When the DOM
    answers the empty string instead, no group at all survives the
    cleanup pass. *)
Theorem cleanup_groups_by_absent_attribute (d : Doc) :
  selectGroups (d_process (clearOldFragments true d))
  = List.filter (fun g => negb (is_Some_b (g_fragmentId g)) && negb (isFragmentRef (g_id g)))
                (selectGroups (d_process d)) /\
  selectGroups (d_process (clearOldFragments false d)) = [].
Proof.
  unfold clearOldFragments. cbn [d_process]. rewrite !selectGroups_filter_assoc. split.
  - induction (d_process d) as [|x l IH]; [done|]. cbn [List.filter].
    destruct x as [?|?|?|? ?|g|? ?]; cbn [isOldGroup negb]; try exact IH.
    unfold selectGroups in *. rewrite omap_cons'. cbn [List.filter].
    destruct g as [i [fr|]]; cbn [isOldGroup attrNotNull g_fragmentId g_id is_Some_b negb orb andb].
    + exact IH.
    + destruct (isFragmentRef i); cbn [negb]; [exact IH|]. rewrite omap_cons'. by rewrite IH.
  - induction (d_process d) as [|x l IH]; [done|]. cbn [List.filter].
    destruct x as [?|?|?|? ?|g|? ?]; cbn [isOldGroup negb]; try exact IH.
    by destruct g as [i [fr|]].
Qed.

(** ** The command line *)

Lemma parseArg_fixed pf o a :
  o_input (parseArg pf o a) = o_input o /\ o_output (parseArg pf o a) = o_output o /\
  (o_privacyDir o = "above" \/ o_privacyDir o = "below" ->
   o_privacyDir (parseArg pf o a) = "above" \/ o_privacyDir (parseArg pf o a) = "below").
Proof.
  unfold parseArg.
  destruct (optValue "--mode=" a); [done|].
  destruct (optValue "--threshold=" a); [done|].
  destruct (optValue "--privacy=" a); [done|].
  destruct (dirValue a) as [v|] eqn:E.
  - split_and!; [done..|]. intros _. cbn [o_privacyDir].
    unfold dirValue in E. destruct (stripPrefix _ a) as [w|]; [|done].
    destruct (String.eqb_spec w "above") as [Ew|_]; [left; inversion E; by subst|].
    destruct (String.eqb_spec w "below") as [Ew|_]; [right; inversion E; by subst|done].
  - destruct (String.eqb a "--no-singletons"); [done|].
    by destruct (String.eqb a "--clear-old").
Qed.

Lemma parseArgs_fold pf (rest : list string) o :
  o_input (foldl (parseArg pf) o rest) = o_input o /\
  o_output (foldl (parseArg pf) o rest) = o_output o /\
  (o_privacyDir o = "above" \/ o_privacyDir o = "below" ->
   o_privacyDir (foldl (parseArg pf) o rest) = "above" \/
   o_privacyDir (foldl (parseArg pf) o rest) = "below").
Proof.
  revert o. induction rest as [|a rest IH]; intros o; cbn [foldl]; [done|].
  destruct (IH (parseArg pf o a)) as (-> & -> & Hd).
  destruct (parseArg_fixed pf o a) as (-> & -> & Hd'). auto.
Qed.

(** X28.  [parseArgs] gives up exactly when fewer than two arguments are given.
    Otherwise the first two arguments are the input and the output file,
    whatever follows, and the direction is "above" or "below": a
    [--privacy-dir] with any other value is ignored. *)
Theorem parseArgs_files_and_direction (parseFloat : string -> float) (args : list string) :
  match parseArgs parseFloat args with
  | None => length args < 2
  | Some o =>
      args !! 0 = Some (o_input o) /\ args !! 1 = Some (o_output o) /\
      (o_privacyDir o = "above" \/ o_privacyDir o = "below")
  end.
Proof.
  destruct args as [|i [|o rest]]; cbn [parseArgs length]; [lia..|].
  destruct (parseArgs_fold parseFloat rest (defaultOpts i o)) as (-> & -> & Hd).
  split_and!; [done..|]. apply Hd. by right.
Qed.

(** ** Running the tool on its own output *)

Lemma filter_all_true {A} (p : A -> bool) (l : list A) :
  (forall x, x ∈ l -> p x = true) -> List.filter p l = l.
Proof.
  induction l as [|x l IH]; intros H; [done|]. cbn [List.filter].
  rewrite (H x) by left. f_equal. apply IH. intros. apply H. by right.
Qed.

(** The plane after the synthesis phase: the plane before, and edges. *)
Lemma synthPairs_plane (l : list (string * string)) st y :
  y ∈ plane (ms_dom (foldl (fun st p => synthPair p.1 p.2 st) st l)) ->
  y ∈ plane (ms_dom st) \/ exists i be w, y = DEdge i be w.
Proof.
  revert st. induction l as [|p l IH]; intros st; cbn [foldl]; [auto|].
  intros [Hy|Hy]%IH; [|by right].
  destruct (synthPair_cases p.1 p.2 st)
    as [[_ E]|(_ & _ & _ & nf & ex & _ & _ & _ & Hpl & _ & Hex & _)].
  - rewrite E in Hy. by left.
  - rewrite Hpl in Hy. apply elem_of_app in Hy as [Hy|Hy]; [by left|right].
    clear -Hy Hex. induction ex as [|e ex IHex]; [by apply elem_of_nil in Hy|].
    cbn [forallb] in Hex. apply andb_true_iff in Hex as [He Hex].
    destruct e as [?|n|?|?]; try done. destruct n as [?|i be w]; [done|].
    unfold createdDI in Hy. rewrite omap_cons' in Hy.
    apply elem_of_cons in Hy as [->|Hy]; [by eexists _, _, _|by apply IHex].
Qed.

Lemma final_plane_source d thr dir y :
  y ∈ finalPlane d thr dir -> y ∈ ensurePlane d \/ exists i be w, y = DEdge i be w.
Proof.
  unfold finalPlane. rewrite maskRun_two_phase. intros Hy.
  destruct (excisePhase_excised d thr dir (synthPhase d thr dir)) as (Hsh & _).
  apply (sh_plane _ _ _ Hsh) in Hy. unfold synthPhase in Hy. rewrite synthAll_pairs in Hy.
  by apply synthPairs_plane in Hy.
Qed.

(** Masking a cleaned document gives a clean document. *)
Lemma cleanup_after_masking absentIsNull d thr dir :
  let d1 := clearOldFragments absentIsNull d in
  clearOldFragments absentIsNull (maskByPrivacy d1 thr dir).1 = (maskByPrivacy d1 thr dir).1.
Proof.
  intros d1. unfold clearOldFragments at 1.
  change (d_process (maskByPrivacy d1 thr dir).1) with (finalProc d1 thr dir).
  change (ensurePlane (maskByPrivacy d1 thr dir).1) with (finalPlane d1 thr dir).
  assert (Hsrc : forall x, x ∈ finalProc d1 thr dir ->
            x ∈ d_process d1 \/ exists f, x = PFlow f).
  { intros x Hx. destruct (ri_source _ _ _ (runInv_final d1 thr dir) x Hx) as [?|(f & -> & _)];
      [by left|right; by exists f]. }
  assert (Hclean : forall x, x ∈ d_process d1 ->
            isOldGroup absentIsNull x = false /\ isFragmentAssoc x = false).
  { intros x. unfold d1, clearOldFragments. cbn [d_process].
    intros [[_ H1]%filter_In H2]%list_elem_of_In%filter_In.
    by rewrite negb_true_iff in H1, H2. }
  rewrite (filter_all_true (fun n => negb (isOldGroup absentIsNull n)) (finalProc d1 thr dir)).
  2:{ intros x [Hx|(f & ->)]%Hsrc; [|done]. apply negb_true_iff. by apply Hclean. }
  rewrite (filter_all_true (fun n => negb (isFragmentAssoc n)) (finalProc d1 thr dir)).
  2:{ intros x [Hx|(f & ->)]%Hsrc; [|done]. apply negb_true_iff. by apply Hclean. }
  rewrite (filter_all_true _ (finalPlane d1 thr dir)); [done|].
  intros y [Hy|(i & be & w & ->)]%final_plane_source; [|done].
  unfold d1, clearOldFragments in Hy. cbn [ensurePlane d_plane] in Hy.
  by apply list_elem_of_In, filter_In in Hy as [_ Hy].
Qed.

(** X29.  In mask mode, when the activities have distinct ids, running the tool
    with the same arguments on the document it has written changes
    nothing and counts zero masked activities. *)
Theorem main_mask_again (parseFloat : string -> float) (absentIsNull : bool)
    (args : list string) (d d' : Doc) (n : nat) (o : Opts) :
  NoDup (t_id <$> getTaskList (d_process d)) ->
  parseArgs parseFloat args = Some o -> o_mode o = "mask" ->
  main parseFloat absentIsNull args d = Some (d', n) ->
  main parseFloat absentIsNull args d' = Some (d', 0).
Proof.
  intros Hnd Ho Hm. unfold main. rewrite Ho, Hm.
  change (String.eqb "mask" "mask") with true. cbv iota.
  intros E. apply (inj Some), (f_equal fst) in E. change ((d', n).1) with d' in E.
  subst d'. destruct (o_clearOld o).
  - rewrite cleanup_after_masking. unfold maskByPrivacy at 1. unfold maskRun.
    rewrite nothing_left_to_mask; [done|].
    unfold getTaskList. by rewrite cleanup_select.
  - unfold maskByPrivacy at 1. unfold maskRun. by rewrite nothing_left_to_mask.
Qed.

Lemma cleanup_process_fixed absentIsNull d :
  List.filter (fun n => negb (isFragmentAssoc n))
    (List.filter (fun n => negb (isOldGroup absentIsNull n))
       (d_process (clearOldFragments absentIsNull d)))
  = d_process (clearOldFragments absentIsNull d).
Proof.
  unfold clearOldFragments. cbn [d_process].
  rewrite (filter_comm (fun n => negb (isOldGroup absentIsNull n))
             (fun n => negb (isFragmentAssoc n))
             (List.filter _ (d_process d))).
  by rewrite !filter_negb_idem.
Qed.

Lemma fragmentComps_same (p q : list PNode) thr incl :
  getTaskList q = getTaskList p -> selectFlows q = selectFlows p ->
  fragmentComps q thr incl = fragmentComps p thr incl.
Proof. intros Ht Hf. unfold fragmentComps. by rewrite Ht, Hf. Qed.

(** X30.  In fragment mode with [--clear-old], running the tool with the same
    arguments on the document it has written finds the same number of
    fragments and writes the same nodes again, after the cleaned original
    and after the annotations the cleanup pass has left over from the
    first run: every further run leaves one more copy of each annotation
    behind. *)
Theorem main_fragment_again (parseFloat : string -> float) (absentIsNull : bool)
    (args : list string) (d d' : Doc) (n : nat) (o : Opts) :
  parseArgs parseFloat args = Some o -> o_mode o <> "mask" -> o_clearOld o = true ->
  main parseFloat absentIsNull args d = Some (d', n) ->
  exists d'',
    main parseFloat absentIsNull args d' = Some (d'', n) /\
    d_process d''
    = d_process (clearOldFragments absentIsNull d) ++
      imap (fun k g => annotOf k (length g))
           (fragmentComps (d_process d) (o_threshold o) (o_includeSingletons o)) ++
      drop (length (d_process (clearOldFragments absentIsNull d))) (d_process d').
Proof.
  intros Ho Hm Hc. unfold main. rewrite Ho, Hc.
  rewrite (proj2 (String.eqb_neq _ _) Hm). cbv iota.
  set (d1 := clearOldFragments absentIsNull d).
  set (thr := o_threshold o). set (incl := o_includeSingletons o).
  intros E. apply (inj Some) in E.
  assert (Ed : d' = (fragmentByCoupling d1 thr incl).1) by exact (eq_sym (f_equal fst E)).
  assert (En : n = length (fragmentComps (d_process d1) thr incl))
    by exact (eq_sym (f_equal snd E)).
  clear E. subst d'. eexists. split.
  - f_equal. unfold fragmentByCoupling at 1. f_equal. rewrite En.
    f_equal. apply fragmentComps_same.
    + unfold getTaskList. rewrite cleanup_select by done.
      by apply fragmentRun_other.
    + unfold selectFlows. rewrite cleanup_select by done.
      by apply fragmentRun_other.
  - unfold fragmentByCoupling. cbn [fst docOf d_process].
    rewrite (fragmentRun_proc d1), drop_app_length.
    set (added := concat _).
    rewrite fragmentRun_proc.
    assert (Hp : d_process (clearOldFragments absentIsNull (docOf (fragmentRun d1 thr incl)))
                 = d_process d1 ++
                   imap (fun k g => annotOf k (length g)) (fragmentComps (d_process d1) thr incl)).
    { unfold clearOldFragments at 1, docOf. cbn [d_process].
      rewrite fragmentRun_proc. fold added. rewrite !List.filter_app.
      unfold d1 at 1. rewrite cleanup_process_fixed. fold d1. f_equal.
      unfold added. rewrite !filter_concat, <- !list_fmap_compose.
      rewrite (list_fmap_ext _ (fun it : nat * list nat => [annotOf it.1 (length it.2)]))
        by (intros; apply cleanup_fragmentNodes).
      apply (concat_imap_pair (fun k g => annotOf k (length g))). }
    rewrite Hp.
    assert (Ht : getTaskList (d_process d1 ++
                   imap (fun k g => annotOf k (length g)) (fragmentComps (d_process d1) thr incl))
                 = getTaskList (d_process d1)).
    { unfold getTaskList. rewrite omap_app, (omap_imap_none _ (fun k g => annotOf k (length g)))
        by done. apply app_nil_r. }
    assert (Hf : selectFlows (d_process d1 ++
                   imap (fun k g => annotOf k (length g)) (fragmentComps (d_process d1) thr incl))
                 = selectFlows (d_process d1)).
    { unfold selectFlows. rewrite omap_app, (omap_imap_none _ (fun k g => annotOf k (length g)))
        by done. apply app_nil_r. }
    rewrite Ht, (fragmentComps_same _ _ _ _ Ht Hf), <- app_assoc.
    do 3 f_equal.
    apply fragmentComps_same; [unfold getTaskList|unfold selectFlows];
      unfold d1; by rewrite cleanup_select.
Qed.

(** ** Worked instances *)

Lemma bbox_contains_members_witness :
  PrimFloat.leb (minx (bboxOf (boundsMap [DShape "s1" "T1" (Some (mkBounds 0 0 10 10))])
                              ["T1"; "T2"]))
                (b_x (memberBounds (boundsMap [DShape "s1" "T1" (Some (mkBounds 0 0 10 10))])
                                   "T2")) = true /\
  PrimFloat.leb (miny (bboxOf (boundsMap [DShape "s1" "T1" (Some (mkBounds 0 0 10 10))])
                              ["T1"; "T2"]))
                (b_y (memberBounds (boundsMap [DShape "s1" "T1" (Some (mkBounds 0 0 10 10))])
                                   "T2")) = true /\
  PrimFloat.leb (b_x (memberBounds (boundsMap [DShape "s1" "T1" (Some (mkBounds 0 0 10 10))])
                                   "T2") +
                 b_w (memberBounds (boundsMap [DShape "s1" "T1" (Some (mkBounds 0 0 10 10))])
                                   "T2"))
                (maxx (bboxOf (boundsMap [DShape "s1" "T1" (Some (mkBounds 0 0 10 10))])
                              ["T1"; "T2"])) = true /\
  PrimFloat.leb (b_y (memberBounds (boundsMap [DShape "s1" "T1" (Some (mkBounds 0 0 10 10))])
                                   "T2") +
                 b_h (memberBounds (boundsMap [DShape "s1" "T1" (Some (mkBounds 0 0 10 10))])
                                   "T2"))
                (maxy (bboxOf (boundsMap [DShape "s1" "T1" (Some (mkBounds 0 0 10 10))])
                              ["T1"; "T2"])) = true.
Proof.
  apply (bbox_contains_members
           (boundsMap [DShape "s1" "T1" (Some (mkBounds 0 0 10 10))]) ["T1"; "T2"] "T2").
  - intros j Hj%list_elem_of_In. vm_compute in Hj.
    destruct Hj as [<-|[<-|[]]]; vm_compute; done.
  - in_list.
Defined.

Lemma inRange_example : inRange 5 [(0, 1); (3, 4); (1, 2)].
Proof.
  intros ab Hab%list_elem_of_In. vm_compute in Hab.
  destruct Hab as [<-|[<-|[<-|[]]]]; cbn; lia.
Defined.

(** A process with a lane group and one task. *)
Definition docLane : Doc :=
  {| d_process := [PGroup (mkGroup "Lane_A" None); PTask (mkTask "T1" nan)];
     d_plane := None |}.

Lemma fragment_groups_numbered_witness :
  NoDup (g_id <$> selectGroups (d_process (fragmentByCoupling docLane 0.5 true).1)).
Proof.
  apply (fragment_groups_numbered docLane 0.5 true).
  - by_compute.
  - intros g Hg%list_elem_of_In. vm_compute in Hg. by destruct Hg as [<-|[]].
Defined.

Lemma find_agrees_iff_connected_witness :
  (find (length (uniteAll 5 [(0, 1); (3, 4); (1, 2)]))
        (uniteAll 5 [(0, 1); (3, 4); (1, 2)]) 0).1
  = (find (length (uniteAll 5 [(0, 1); (3, 4); (1, 2)]))
          (uniteAll 5 [(0, 1); (3, 4); (1, 2)]) 2).1
  <-> conn [(0, 1); (3, 4); (1, 2)] 0 2.
Proof.
  apply (find_agrees_iff_connected 5 [(0, 1); (3, 4); (1, 2)] 0 2);
    [exact inRange_example|lia|lia].
Defined.

Lemma groups_in_document_order_witness :
  concat (groups (uniteAll 5 [(0, 1); (3, 4); (1, 2)])) ≡ₚ seq 0 5 /\
  Forall (fun g => g <> [] /\ StronglySorted lt g)
         (groups (uniteAll 5 [(0, 1); (3, 4); (1, 2)])) /\
  StronglySorted lt (omap head (groups (uniteAll 5 [(0, 1); (3, 4); (1, 2)]))).
Proof. exact (groups_in_document_order 5 [(0, 1); (3, 4); (1, 2)] inRange_example). Defined.

Lemma find_compresses_soundly_witness :
  let p := uniteAll 5 [(0, 1); (3, 4); (1, 2)] in
  let r := find (length p) p 2 in
  r.2 !! r.1 = Some r.1 /\ r.2 !! 2 = Some r.1 /\ length r.2 = length p /\
  (find (length r.2) r.2 r.1).1 = r.1 /\
  (find (length r.2) r.2 4).1 = (find (length p) p 4).1.
Proof.
  apply (find_compresses_soundly 5 [(0, 1); (3, 4); (1, 2)] 2 4);
    [exact inRange_example|lia|lia].
Defined.

Lemma fragmentComps_without_strong_flow_witness :
  fragmentComps procRow 1 true = (fun i => [i]) <$> seq 0 (length (getTaskList procRow)) /\
  fragmentComps procRow 1 false = [].
Proof.
  apply (fragmentComps_without_strong_flow procRow 1).
  intros f Hf%list_elem_of_In. vm_compute in Hf.
  destruct Hf as [<-|[<-|[<-|[<-|[<-|[]]]]]]; reflexivity.
Defined.

Lemma fragments_refine_with_threshold_witness :
  exists g1, g1 ∈ fragmentComps procRow 0.25 true /\ forall i, i ∈ [3; 4] -> i ∈ g1.
Proof.
  apply (fragments_refine_with_threshold procRow 0.25 0.75 [3; 4]).
  - reflexivity.
  - in_list.
Defined.

Lemma masked_set_monotone_witness :
  maskedOf docChain 0.75 "above" `sublist_of` maskedOf docChain 0.5 "above" /\
  ("below" <> "above" ->
   maskedOf docChain 0.5 "below" `sublist_of` maskedOf docChain 0.75 "below").
Proof. apply (masked_set_monotone docChain 0.5 0.75 "below"). reflexivity. Defined.


Lemma masking_deletes_the_masked_witness :
  getTaskList (finalProc docChain 0.5 "above")
  = List.filter (fun t => negb (shouldMask "above" 0.5 (t_privacy t)))
                (getTaskList (d_process docChain)) /\
  length (getTaskList (d_process docChain))
  = length (getTaskList (finalProc docChain 0.5 "above")) + (maskByPrivacy docChain 0.5 "above").2.
Proof. apply (masking_deletes_the_masked docChain 0.5 "above"). by_compute. Defined.

Lemma masking_idempotent_witness :
  maskByPrivacy (maskByPrivacy docChain 0.5 "above").1 0.5 "above"
  = ((maskByPrivacy docChain 0.5 "above").1, 0).
Proof. apply (masking_idempotent docChain 0.5 "above"). by_compute. Defined.

Lemma masking_deletes_only_orphans_witness :
  countAssociationsTouching (finalProc docChain 0.5 "above") "note" = 0.
Proof.
  apply (masking_deletes_only_orphans docChain 0.5 "above" "note"). vm_compute. lia.
Defined.

(** An annotation attached to a masked activity and to one that stays. *)
Definition docNote : Doc :=
  {| d_process :=
       [PTask (mkTask "A" nan); PTask (mkTask "M" 0.75%float);
        PFlow (mkFlow "f1" "A" "M" None);
        PAnnot "n1" "shared"; PAssoc (mkAssoc "a1" "n1" "M");
        PAssoc (mkAssoc "a2" "n1" "A")];
     d_plane := Some [] |}.

Lemma masking_leaves_no_orphan_witness :
  0 < countAssociationsTouching (finalProc docNote 0.5 "above") "n1".
Proof.
  apply (masking_leaves_no_orphan docNote 0.5 "above" "n1").
  - by_compute.
  - intros j Hj%list_elem_of_In. vm_compute in Hj. destruct Hj as [<-|[]].
    vm_compute. lia.
  - in_list.
Defined.

Lemma main_mask_again_witness :
  main (fun _ => 0.5%float) true ["in.bpmn"; "out.bpmn"; "--mode=mask"; "--privacy-dir=above"]
       (maskByPrivacy docChain 0.5 "above").1
  = Some ((maskByPrivacy docChain 0.5 "above").1, 0).
Proof.
  apply (main_mask_again (fun _ => 0.5%float) true
           ["in.bpmn"; "out.bpmn"; "--mode=mask"; "--privacy-dir=above"]
           docChain (maskByPrivacy docChain 0.5 "above").1 2
           {| o_input := "in.bpmn"; o_output := "out.bpmn"; o_mode := "mask";
              o_threshold := 0x1.6666666666666p-1; o_privacy := 0.5;
              o_privacyDir := "above"; o_includeSingletons := true;
              o_clearOld := false |}).
  - by_compute.
  - reflexivity.
  - reflexivity.
  - reflexivity.
Defined.

Definition docT1 : Doc := {| d_process := [PTask (mkTask "T1" nan)]; d_plane := None |}.

Lemma main_fragment_again_witness :
  exists d'',
    main (fun _ => 0.5%float) true ["in.bpmn"; "out.bpmn"; "--clear-old"]
         (fragmentByCoupling (clearOldFragments true docT1) 0x1.6666666666666p-1 true).1
    = Some (d'', 1) /\
    d_process d''
    = d_process (clearOldFragments true docT1) ++
      imap (fun k g => annotOf k (length g))
           (fragmentComps (d_process docT1) 0x1.6666666666666p-1 true) ++
      drop (length (d_process (clearOldFragments true docT1)))
           (d_process (fragmentByCoupling (clearOldFragments true docT1)
                         0x1.6666666666666p-1 true).1).
Proof.
  apply (main_fragment_again (fun _ => 0.5%float) true ["in.bpmn"; "out.bpmn"; "--clear-old"]
           docT1
           (fragmentByCoupling (clearOldFragments true docT1) 0x1.6666666666666p-1 true).1 1
           {| o_input := "in.bpmn"; o_output := "out.bpmn"; o_mode := "fragment";
              o_threshold := 0x1.6666666666666p-1; o_privacy := 0.5;
              o_privacyDir := "below"; o_includeSingletons := true;
              o_clearOld := true |}).
  - reflexivity.
  - discriminate.
  - reflexivity.
  - reflexivity.
Defined.
